(** * Shallow embedding of [scrape.py], the multi-portal scraper.

    The six portal routines, the shared helpers ([human_delay],
    [has_challenge], [wait_for_challenge], [_cffi_fetch]) and [main] are
    transcribed as functions in a small state-and-exception monad over an
    abstract browsing world.  Python strings are sequences of 8-bit
    characters; case mapping, whitespace and digits are the ASCII ones. *)

From Stdlib Require Import ZArith QArith Ascii String List Lia.
From stdpp Require Import base list strings gmap pretty.

Set Warnings "-register-all".
Local Open Scope string_scope.
Local Open Scope Z_scope.

(** ** Python string primitives *)

Module Py.

Definition in_range (lo hi : nat) (c : ascii) : bool :=
  Nat.leb lo (nat_of_ascii c) && Nat.leb (nat_of_ascii c) hi.

Definition is_lower (c : ascii) : bool := in_range 97 122 c.
Definition is_upper (c : ascii) : bool := in_range 65 90 c.
Definition is_digit (c : ascii) : bool := in_range 48 57 c.

(** [str.isspace] on the ASCII range: TAB, LF, VT, FF, CR, FS, GS, RS, US
    and the blank. *)
Definition is_space (c : ascii) : bool :=
  in_range 9 13 c || in_range 28 32 c.

Definition upper_char (c : ascii) : ascii :=
  if is_lower c then ascii_of_nat (nat_of_ascii c - 32) else c.

Definition lower_char (c : ascii) : ascii :=
  if is_upper c then ascii_of_nat (nat_of_ascii c + 32) else c.

Fixpoint smap (f : ascii -> ascii) (s : string) : string :=
  match s with
  | EmptyString => EmptyString
  | String c r => String (f c) (smap f r)
  end.

Fixpoint sfilter (p : ascii -> bool) (s : string) : string :=
  match s with
  | EmptyString => EmptyString
  | String c r => if p c then String c (sfilter p r) else sfilter p r
  end.

(** [s.upper()] and [s.lower()] *)
Definition upper (s : string) : string := smap upper_char s.
Definition lower (s : string) : string := smap lower_char s.

(** [bool(s)] for a string: non-empty. *)
Definition nonempty (s : string) : bool :=
  match s with EmptyString => false | _ => true end.

(** [s.startswith(p)] *)
Fixpoint startswith (p s : string) : bool :=
  match p, s with
  | EmptyString, _ => true
  | String a p', String b s' => if Ascii.eqb a b then startswith p' s' else false
  | String _ _, EmptyString => false
  end.

(** [p in s] *)
Fixpoint contains (p s : string) : bool :=
  startswith p s ||
  match s with
  | EmptyString => false
  | String _ r => contains p r
  end.

(** [s[n:]] and [s[:n]] for a non-negative literal [n] *)
Fixpoint drop (n : nat) (s : string) : string :=
  match n, s with
  | O, _ => s
  | S n', String _ r => drop n' r
  | S _, EmptyString => EmptyString
  end.

Fixpoint take (n : nat) (s : string) : string :=
  match n, s with
  | O, _ => EmptyString
  | S n', String c r => String c (take n' r)
  | S _, EmptyString => EmptyString
  end.

Fixpoint lstrip (s : string) : string :=
  match s with
  | EmptyString => EmptyString
  | String c r => if is_space c then lstrip r else s
  end.

(** Drops trailing characters satisfying [p]. *)
Fixpoint rstrip_by (p : ascii -> bool) (s : string) : string :=
  match s with
  | EmptyString => EmptyString
  | String c r =>
      match rstrip_by p r with
      | EmptyString => if p c then EmptyString else String c EmptyString
      | r' => String c r'
      end
  end.

(** [s.strip()] *)
Definition strip (s : string) : string := rstrip_by is_space (lstrip s).

(** [s.rstrip("/")] *)
Definition rstrip_slash (s : string) : string :=
  rstrip_by (Ascii.eqb "/"%char) s.

(** [s.replace(old, new)] for a non-empty [old]: the occurrences are taken
    left to right and do not overlap.  [skip] counts the characters of a
    matched occurrence still to be dropped. *)
Fixpoint replace_from (old new : string) (skip : nat) (s : string) : string :=
  match s with
  | EmptyString => EmptyString
  | String c r =>
      match skip with
      | S k => replace_from old new k r
      | O =>
          if startswith old s
          then new ++ replace_from old new (String.length old - 1) r
          else String c (replace_from old new O r)
      end
  end.

Definition replace (old new s : string) : string := replace_from old new O s.

(** [s.split(sep)[0]] for a one-character separator *)
Fixpoint split_head (sep : ascii) (s : string) : string :=
  match s with
  | EmptyString => EmptyString
  | String c r => if Ascii.eqb c sep then EmptyString else String c (split_head sep r)
  end.

(** [s.split(sep)[-1]] for a one-character separator; [acc] is the piece
    being read. *)
Fixpoint split_last_from (sep : ascii) (acc : string) (s : string) : string :=
  match s with
  | EmptyString => acc
  | String c r =>
      if Ascii.eqb c sep then split_last_from sep EmptyString r
      else split_last_from sep (acc ++ String c EmptyString) r
  end.

Definition split_last (sep : ascii) (s : string) : string :=
  split_last_from sep EmptyString s.

(** [s.title()]: a cased character is upper-cased when it follows an
    uncased one and lower-cased otherwise. *)
Fixpoint title_from (prev_cased : bool) (s : string) : string :=
  match s with
  | EmptyString => EmptyString
  | String c r =>
      let cased := is_lower c || is_upper c in
      String (if prev_cased then lower_char c else upper_char c)
             (title_from cased r)
  end.

Definition title (s : string) : string := title_from false s.

(** Values a record field can hold: strings, and whatever [json.loads]
    hands over (the LibreBOR API items are stored as they come). *)
Inductive pyval : Type :=
| PNone
| PBool (b : bool)
| PInt (z : Z)
| PFloat (q : Q)
| PStr (s : string)
| PList (l : list pyval)
| PDict (d : list (string * pyval)).

(** [bool(v)] *)
Definition truthy (v : pyval) : bool :=
  match v with
  | PNone => false
  | PBool b => b
  | PInt z => negb (z =? 0)
  | PFloat q => negb (Qeq_bool q 0)
  | PStr s => nonempty s
  | PList l => match l with [] => false | _ => true end
  | PDict d => match d with [] => false | _ => true end
  end.

(** [d.get(k)] on a dict kept as an association list. *)
Fixpoint assoc (k : string) (d : list (string * pyval)) : option pyval :=
  match d with
  | [] => None
  | (k', v) :: r => if String.eqb k k' then Some v else assoc k r
  end.

End Py.

Example upper_ex : Py.upper "Acme s.l." = "ACME S.L.".
Proof. reflexivity. Qed.
Example strip_ex : Py.strip "  a b   " = "a b".
Proof. reflexivity. Qed.
Example title_ex : Py.title "BARCELONA" = "Barcelona".
Proof. reflexivity. Qed.
Example replace_ex : Py.replace "tel:" "" "tel:+34 93" = "+34 93".
Proof. reflexivity. Qed.
Example split_last_ex : Py.split_last "/" "https://x.es/empresa/acme" = "acme".
Proof. reflexivity. Qed.

(** ** The outside world *)

(** A [curl_cffi] response, as far as the code reads it. *)
Record response : Type := Response { status_code : Z; text : string }.

(** Handle of a DOM element ([page.query_selector] and friends). *)
Definition elem : Type := nat.

(** One constructor per effectful call the routines make; the index is the
    type of the answer.  [scope = None] is a query on the page,
    [Some e] a query below the element [e]. *)
Inductive query : Type -> Type :=
| Launch (portal : string) (headless : bool) : query unit
| Close : query unit
| Goto (url : string) (timeout_ms : Z) : query unit
| Content : query string
| PageUrl : query string
| PageInnerText (sel : string) : query string
| WaitForTimeout (ms : Z) : query unit
| QuerySelector (scope : option elem) (sel : string) : query (option elem)
| QuerySelectorAll (scope : option elem) (sel : string) : query (list elem)
| InnerText (e : elem) : query string
| GetAttribute (e : elem) (attr : string) : query (option string)
| Click (e : elem) : query unit
| Fill (e : elem) (s : string) : query unit
| TypeText (e : elem) (s : string) (delay_ms : Z) : query unit
| Request (method url : string) (headers : gmap string string) : query response.

(** A world answers a query or raises ([None]), and moves on. *)
Class World (W : Type) : Type :=
  answer : forall A : Type, query A -> W -> option A * W.
Arguments answer {W _ A} q w.

(** Pure library calls whose algorithms are not part of the program:
    the regular-expression engine, BeautifulSoup, [urllib.parse],
    [json.loads] and [str()] of a JSON value. *)
Class Lib : Type := {
  (** [re.search(pat, s, flags)]: the groups of the first match, group 0
      first *)
  re_search : string -> string -> string -> option (list string);
  (** [re.findall(pat, s)] for a pattern with one group *)
  re_findall : string -> string -> list string;
  urljoin : string -> string -> string;
  netloc : string -> string;
  json_loads : string -> option Py.pyval;
  py_str : Py.pyval -> string;
  (** BeautifulSoup: tags of a parsed document *)
  tag : Type;
  soup_select : string -> string -> list tag;
  soup_select_one : string -> string -> option tag;
  tag_select_one : tag -> string -> option tag;
  tag_get : tag -> string -> option string;
  tag_text_strip : tag -> string
}.

(** [m.group(i)] *)
Definition group (i : nat) (m : list string) : string := nth i m "".

(** ** Observable events of a run *)

(** What a request is for: a listing page of a scope (the [scope]-th
    iteration of the outer loop, page [pnum]), a per-item detail page, or
    anything else (home page, city list). *)
Inductive req_kind : Type :=
| PageReq (scope : nat) (pnum : Z)
| DetailReq
| OtherReq.

Inductive event : Type :=
| EvRequest (k : req_kind) (url : string) (collected : nat)
    (** a network-facing call, with the number of records collected when
        it is issued *)
| EvItems (scope : nat) (pnum : Z) (n : nat)
    (** the page [pnum] of [scope] yielded [n] items *)
| EvEmit (key : string)
    (** a record is appended to [companies]; [key] is the canonical key of
        the item it was made from *)
| EvDelay (lo hi : Q)
    (** [asyncio.sleep(random.uniform(lo, hi))] *)
| EvSleep (secs : Z).
    (** a sleep of fixed length *)

(** ** State and monad *)

(** A record under construction or collected: a Python dict from field
    names to values. *)
Abbreviation dict := (gmap string Py.pyval).

(** Module globals [MIN_DELAY] and [MAX_DELAY]. *)
Record globals : Type := Globals { MIN_DELAY : Q; MAX_DELAY : Q }.

(** The module body assigns 4.0 and 7.0 when it is imported. *)
Definition module_globals : globals :=
  {| MIN_DELAY := 4; MAX_DELAY := 7 |}.

(** The state of one run: the world, the module globals, the events so far
    (newest first) and the local variables the routines mutate. *)
Record state (W : Type) : Type := State {
  world : W;
  glob : globals;
  trace : list event;
  companies : list dict;
  seen : gset string;
  total : Z;
  new : Z
}.
Arguments State {W}.
Arguments world {W}.
Arguments glob {W}.
Arguments trace {W}.
Arguments companies {W}.
Arguments seen {W}.
Arguments total {W}.
Arguments new {W}.

Definition initial {W : Type} (w : W) (g : globals) : state W :=
  {| world := w; glob := g; trace := []; companies := []; seen := ∅;
     total := 0; new := 0 |}.

(** A computation ends with a value, with an exception, or is cut off when
    the fuel of a [while True] loop is spent. *)
Inductive outcome (A : Type) : Type :=
| Val (a : A)
| Exc
| Fuel.
Arguments Val {A}.
Arguments Exc {A}.
Arguments Fuel {A}.

Definition M (W : Type) (A : Type) : Type := state W -> outcome A * state W.

Section Monad.
Context {W : Type}.

Definition ret {A : Type} (a : A) : M W A := fun s => (Val a, s).

Definition bind {A B : Type} (m : M W A) (k : A -> M W B) : M W B :=
  fun s =>
    match m s with
    | (Val a, s') => k a s'
    | (Exc, s') => (Exc, s')
    | (Fuel, s') => (Fuel, s')
    end.

Definition raise {A : Type} : M W A := fun s => (Exc, s).
Definition out_of_fuel {A : Type} : M W A := fun s => (Fuel, s).

(** [try: m  except Exception: h] *)
Definition try_except {A : Type} (m h : M W A) : M W A :=
  fun s =>
    match m s with
    | (Exc, s') => h s'
    | r => r
    end.

(** [try: m  finally: f] *)
Definition try_finally {A : Type} (m : M W A) (f : M W unit) : M W A :=
  fun s =>
    match m s with
    | (Val a, s') =>
        match f s' with
        | (Val _, s'') => (Val a, s'')
        | (Exc, s'') => (Exc, s'')
        | (Fuel, s'') => (Fuel, s'')
        end
    | (Exc, s') =>
        match f s' with
        | (Fuel, s'') => (Fuel, s'')
        | (_, s'') => (Exc, s'')
        end
    | (Fuel, s') => (Fuel, s')
    end.

Definition gets {A : Type} (f : state W -> A) : M W A := fun s => (Val (f s), s).
Definition modify (f : state W -> state W) : M W unit := fun s => (Val tt, f s).

End Monad.

Declare Scope py_scope.
Delimit Scope py_scope with py.
Notation "x <- m ;; k" := (bind m (fun x => k))
  (at level 100, m at next level, right associativity) : py_scope.
Notation "m ;;; k" := (bind m (fun _ => k))
  (at level 100, right associativity) : py_scope.
Local Open Scope py_scope.

(** Loop bodies say how the loop goes on. *)
Inductive ctl : Type := Next | Break.

Section Loops.
Context {W : Type}.

(** [for x in l: body], the body told the position of [x]; the count
    starts at [i]. *)
Fixpoint for_enum {A : Type} (i : nat) (l : list A) (body : nat -> A -> M W ctl)
  : M W unit :=
  match l with
  | [] => ret tt
  | x :: r =>
      c <- body i x ;;
      match c with
      | Next => for_enum (S i) r body
      | Break => ret tt
      end
  end.

(** [for x in l: body] *)
Definition for_each {A : Type} (l : list A) (body : A -> M W ctl) : M W unit :=
  for_enum O l (fun _ => body).

(** [while True: body], the loop variable passed along: the body answers
    [None] for [break] and [Some v] to go round again with [v]. *)
Fixpoint while_true {V : Type} (fuel : nat) (body : V -> M W (option V)) (v : V)
  : M W unit :=
  match fuel with
  | O => out_of_fuel
  | S f =>
      r <- body v ;;
      match r with
      | None => ret tt
      | Some v' => while_true f body v'
      end
  end.

End Loops.

(** ** Shared helpers *)

(** The double-quote character, for selectors and patterns that hold one. *)
Definition dq : string := String (ascii_of_nat 34) EmptyString.

Definition indicators : list string :=
  [ "challenge-platform"; "just a moment"; "cf-challenge"; "cf_chl_opt";
    "incapsula"; "_incapsula_resource"; "incident_id";
    "human verification"; "awswaf";
    "g-recaptcha-response"; "class=" ++ dq ++ "g-recaptcha" ++ dq;
    "captcha-delivery";
    "hcaptcha-box"; "capado_robots"; "control robots" ].

Definition has_challenge (content : string) : bool :=
  let lower := Py.lower content in
  existsb (fun i => Py.contains i lower) indicators.

(** [re.sub(r"[^\d+]", "", s)]: every character that is neither a digit
    nor a plus sign is removed. *)
Definition phone_char (c : ascii) : bool :=
  Py.is_digit c || Ascii.eqb c "+"%char.

Definition normalize_phone (s : string) : string := Py.sfilter phone_char s.

(** The default values of [human_delay]'s parameters: Python evaluates the
    default expressions [MIN_DELAY] and [MAX_DELAY] once, when the [def]
    statement runs, that is against the globals of the freshly imported
    module. *)
Definition human_delay_defaults : Q * Q :=
  (MIN_DELAY module_globals, MAX_DELAY module_globals).

Section Helpers.
Context {W : Type} `{!World W}.

Definition set_world (w : W) (s : state W) : state W :=
  State w (glob s) (trace s) (companies s) (seen s) (total s) (new s).

Definition push_event (e : event) (s : state W) : state W :=
  State (world s) (glob s) (e :: trace s) (companies s) (seen s) (total s) (new s).

(** [companies.append(c)] *)
Definition push_company (c : dict) (s : state W) : state W :=
  State (world s) (glob s) (trace s) (companies s ++ [c]) (seen s) (total s) (new s).

(** [seen = sn] *)
Definition set_seen (sn : gset string) (s : state W) : state W :=
  State (world s) (glob s) (trace s) (companies s) sn (total s) (new s).

(** [seen.add(k)] *)
Definition add_seen (k : string) (s : state W) : state W :=
  set_seen ({[k]} ∪ seen s) s.

(** [total = t] *)
Definition set_total (t : Z) (s : state W) : state W :=
  State (world s) (glob s) (trace s) (companies s) (seen s) t (new s).

(** [new = n] *)
Definition set_new (n : Z) (s : state W) : state W :=
  State (world s) (glob s) (trace s) (companies s) (seen s) (total s) n.

Definition ask {A : Type} (q : query A) : M W A :=
  fun s =>
    match answer q (world s) with
    | (Some a, w) => (Val a, set_world w s)
    | (None, w) => (Exc, set_world w s)
    end.

Definition log (e : event) : M W unit := modify (push_event e).

(** A network-facing call: the event records how many records the run
    holds at that moment. *)
Definition issue {A : Type} (k : req_kind) (url : string) (q : query A) : M W A :=
  n <- gets (fun s => length (companies s)) ;;
  log (EvRequest k url n) ;;;
  ask q.

(** [await page.goto(url, wait_until="domcontentloaded", timeout=t)] *)
Definition goto (k : req_kind) (url : string) (timeout_ms : Z) : M W unit :=
  issue k url (Goto url timeout_ms).

(** [await asyncio.sleep(random.uniform(lo, hi))] *)
Definition sleep_uniform (lo hi : Q) : M W unit := log (EvDelay lo hi).

(** [human_delay(min_s, max_s)]; [None] is an argument left out. *)
Definition human_delay (min_s max_s : option Q) : M W unit :=
  sleep_uniform (default (fst human_delay_defaults) min_s)
                (default (snd human_delay_defaults) max_s).

(** The loop [while elapsed < timeout] of [wait_for_challenge]. *)
Fixpoint poll_challenge (fuel : nat) (timeout elapsed : Z) : M W bool :=
  if elapsed <? timeout then
    match fuel with
    | O => out_of_fuel
    | S f =>
        log (EvSleep 5) ;;;
        let elapsed := elapsed + 5 in
        content <- ask Content ;;
        if negb (has_challenge content) then ret true
        else poll_challenge f timeout elapsed
    end
  else ret false.

(** [wait_for_challenge(page, timeout)]; every round adds 5 to [elapsed],
    so [timeout] rounds are enough fuel. *)
Definition wait_for_challenge (timeout : Z) : M W bool :=
  content <- ask Content ;;
  if negb (has_challenge content) then ret true
  else poll_challenge (Z.to_nat timeout) timeout 0.

(** [launch_browser(portal, headless)] *)
Definition launch_browser (portal : string) (headless : bool) : M W unit :=
  ask (Launch portal headless).

(** The [finally] block of the browser routines:
    [await context.close(); await pw.stop()]. *)
Definition close_browser : M W unit := ask Close.

Definition base_headers : gmap string string :=
  <["Accept-Language" := "es-ES,es;q=0.9,en;q=0.8"]>
  (<["Accept" := "text/html,application/xhtml+xml,application/xml;q=0.9,*/*;q=0.8"]>
  (<["Referer" := "https://www.google.com/"]> ∅)).

(** The loop [for attempt in range(max_retries)] of [_cffi_fetch];
    [resp] is the variable of that name, unbound before the first
    request. *)
Fixpoint cffi_attempts (k : req_kind) (url method : string)
    (headers : gmap string string) (max_retries : Z)
    (attempts : list Z) (resp : option response) : M W response :=
  match attempts with
  | [] =>
      match resp with
      | Some r => ret r
      | None => raise
      end
  | attempt :: rest =>
      r <- issue k url (Request method url headers) ;;
      if (status_code r =? 429) && (attempt <? max_retries - 1) then
        let wait := 30 * 2 ^ attempt in
        log (EvSleep wait) ;;;
        cffi_attempts k url method headers max_retries rest (Some r)
      else ret r
  end.

(** [_cffi_fetch(url, method, max_retries, headers=...)]; [k] says what
    the caller fetches. *)
Definition _cffi_fetch (k : req_kind) (url method : string) (max_retries : Z)
    (headers : gmap string string) : M W response :=
  let headers := headers ∪ base_headers in
  cffi_attempts k url method headers max_retries (seqZ 0 max_retries) None.

(** [limit and n >= limit] *)
Definition limit_reached (limit : option Z) (n : Z) : bool :=
  match limit with
  | Some l => negb (l =? 0) && (l <=? n)
  | None => false
  end.

(** [limit and len(companies) >= limit] *)
Definition at_limit (limit : option Z) : M W bool :=
  gets (fun s => limit_reached limit (Z.of_nat (length (companies s)))).

(** [companies.append(c)], the record made from the item of key [key] *)
Definition emit (key : string) (c : dict) : M W unit :=
  log (EvEmit key) ;;;
  modify (push_company c).

(** A pure step that raises on [None]. *)
Definition lift_opt {A : Type} (o : option A) : M W A :=
  match o with
  | Some a => ret a
  | None => raise
  end.

(** [if len(ph) >= 9: c["phone"] = ph] *)
Definition set_phone (ph : string) (c : dict) : dict :=
  if 9 <=? Z.of_nat (String.length ph) then <["phone" := Py.PStr ph]> c else c.

(** [if m: c[k] = v], [o] holding the [v] of a match [m] *)
Definition set_field (k : string) (o : option string) (c : dict) : dict :=
  match o with
  | Some v => <[k := Py.PStr v]> c
  | None => c
  end.

End Helpers.

Example has_challenge_ex :
  has_challenge "<title>Just a moment...</title>" = true
  /\ has_challenge "<html><body>Empresas</body></html>" = false.
Proof. split; reflexivity. Qed.

Example normalize_phone_ex :
  normalize_phone "tel:+34 93 123 45 67" = "+34931234567".
Proof. reflexivity. Qed.

(** ** Empresite (curl_cffi) *)

(** Keyword arguments the routines read. *)
Record opts : Type := Opts {
  headless : bool;
  details : bool;
  employee_min : Z;
  employee_max : Z
}.

(** [bool(city)] for the optional [city] argument *)
Definition city_given (city : option string) : option string :=
  match city with
  | Some c => if Py.nonempty c then Some c else None
  | None => None
  end.

(** [c["website_url"] = href] and
    [c["domain"] = urlparse(href).netloc.replace("www.", "")] *)
Definition set_website `{!Lib} (href : string) (c : dict) : dict :=
  <["domain" := Py.PStr (Py.replace "www." "" (netloc href))]>
  (<["website_url" := Py.PStr href]> c).

Section Empresite.
Context {W : Type} `{!World W} `{!Lib}.

Definition ES_BASE : string := "https://empresite.eleconomista.es".

(** The loop over [soup.select("a[href*='/localidad/']")] that fills
    [cities]; [None] is the [KeyError] of [link["href"]]. *)
Fixpoint es_cities (links : list tag) : option (list (string * string)) :=
  match links with
  | [] => Some []
  | link :: r =>
      match tag_get link "href" with
      | None => None
      | Some href =>
          match es_cities r with
          | None => None
          | Some rest =>
              match re_search "/localidad/([^/]+)/" "" href with
              | Some m =>
                  Some ((Py.strip (Py.split_head "(" (tag_text_strip link)),
                         group 1 m) :: rest)
              | None => Some rest
              end
          end
      end
  end.

(** The dict literal bound to [company]. *)
Definition es_company (legal_name city_slug region detail_url : string)
    (addr_el desc_el : option tag) : dict :=
  <["legal_name" := Py.PStr (Py.upper legal_name)]>
  (<["city" := Py.PStr (Py.title (Py.replace "-" " " (Py.split_head "-" city_slug)))]>
  (<["province" := Py.PStr (Py.title region)]>
  (<["region" := Py.PStr (Py.title region)]>
  (<["address" := Py.PStr (from_option tag_text_strip "" addr_el)]>
  (<["summary" := Py.PStr (from_option (fun d => Py.take 500 (tag_text_strip d)) "" desc_el)]>
  (<["source_portal" := Py.PStr "empresite"]>
  (<["source_url" := Py.PStr detail_url]> ∅))))))).

(** [ph.get("content") or ph.get_text(strip=True)] *)
Definition es_phone_candidate (ph : tag) : string :=
  match tag_get ph "content" with
  | Some s => if Py.nonempty s then s else tag_text_strip ph
  | None => tag_text_strip ph
  end.

(** The last step of the detail page: the website. *)
Definition es_detail_web (dtext : string) (company : dict) : dict :=
  match soup_select_one dtext
          ("a[itemprop=" ++ dq ++ "url" ++ dq ++ "][href*=" ++ dq ++ "http" ++ dq ++ "]") with
  | Some web =>
      match tag_get web "href" with
      | Some href =>
          if negb (Py.contains "empresite" href) then set_website href company
          else company
      | None => company
      end
  | None => company
  end.

(** The body of [if dresp.status_code == 200:], on the text of the detail
    page.  A [KeyError] of [em["href"]] or [web["href"]] leaves the record
    as it is at that point ([except Exception: pass]). *)
Definition es_detail (dtext : string) (company : dict) : dict :=
  let m :=
    re_search "'CNAE'\s*:\s*'(\d+)'.*?'GRUPO_SECTOR'\s*:\s*'([^']*)'" "" dtext in
  let company := set_field "cnae_code" (option_map (group 1) m) company in
  let company := set_field "industry" (option_map (group 2) m) company in
  let ph :=
    soup_select_one dtext
      ("span[itemprop=" ++ dq ++ "telephone" ++ dq ++ "], a[href^="
         ++ dq ++ "tel:" ++ dq ++ "]") in
  let company :=
    match ph with
    | Some ph => set_phone (normalize_phone (es_phone_candidate ph)) company
    | None => company
    end in
  match soup_select_one dtext ("a[href^=" ++ dq ++ "mailto:" ++ dq ++ "]") with
  | Some em =>
      match tag_get em "href" with
      | Some href =>
          es_detail_web dtext
            (<["email" := Py.PStr (Py.replace "mailto:" "" href)]> company)
      | None => company
      end
  | None => es_detail_web dtext company
  end.

(** The body of [for card in cards:]. *)
Definition es_card (region city_slug : string) (limit : option Z) (o : opts)
    (card : tag) : M W ctl :=
  t <- gets total ;;
  if limit_reached limit t then ret Break else
  match tag_select_one card ("meta[itemprop=" ++ dq ++ "name" ++ dq ++ "]") with
  | None => ret Next
  | Some name_meta =>
      let legal_name := Py.strip (default "" (tag_get name_meta "content")) in
      if negb (Py.nonempty legal_name) then ret Next else
      detail_url <-
        match tag_select_one card "h3 a" with
        | Some link_el =>
            href <- lift_opt (tag_get link_el "href") ;;
            ret (if negb (Py.startswith "http" href) then urljoin ES_BASE href
                 else href)
        | None => ret ""
        end ;;
      let desc_el := tag_select_one card "span.line-clamp-2" in
      let addr_el :=
        tag_select_one card ("span[itemprop=" ++ dq ++ "address" ++ dq ++ "]") in
      let company :=
        es_company legal_name city_slug region detail_url addr_el desc_el in
      company <-
        (if details o && Py.nonempty detail_url then
           g <- gets glob ;;
           sleep_uniform (MIN_DELAY g) (MAX_DELAY g) ;;;
           try_except
             (dresp <- _cffi_fetch DetailReq detail_url "GET" 3 ∅ ;;
              ret (if status_code dresp =? 200
                   then es_detail (text dresp) company else company))
             (ret company)
         else ret company) ;;
      emit (Py.upper legal_name) company ;;;
      t <- gets total ;;
      modify (set_total (t + 1)) ;;;
      ret Next
  end.

(** The body of [while True:] for the city [city_slug], the [scope]-th of
    the run. *)
Definition es_page (region city_slug : string) (limit : option Z) (o : opts)
    (scope : nat) (page : Z) : M W (option Z) :=
  t <- gets total ;;
  if limit_reached limit t then ret None else
  let emp_range := pretty (employee_min o) ++ "-" ++ pretty (employee_max o) in
  let base_path :=
    "/localidad/" ++ city_slug ++ "/"
      ++ (if 1 <? page then "PgNum-" ++ pretty page ++ "/" else "") in
  let url :=
    ES_BASE ++ base_path ++ "?testfiltros=1&emp_empleados_number=" ++ emp_range in
  g <- gets glob ;;
  sleep_uniform (MIN_DELAY g) (MAX_DELAY g) ;;;
  r <- try_except
         (resp <- _cffi_fetch (PageReq scope page) url "POST" 3
                    (<["Content-Type" := "application/x-www-form-urlencoded;charset=UTF-8"]>
                     (<["Referer" := ES_BASE ++ "/localidad/" ++ city_slug ++ "/"]> ∅)) ;;
          ret (if negb (status_code resp =? 200) then None else Some resp))
         (ret None) ;;
  match r with
  | None => ret None
  | Some resp =>
      let cards := soup_select (text resp) "div.cardCompanyBox" in
      log (EvItems scope page (length cards)) ;;;
      match cards with
      | [] => ret None
      | _ =>
          for_each cards (es_card region city_slug limit o) ;;;
          if Z.of_nat (length cards) <? 30 then ret None
          else if 40 <=? page then ret None
          else ret (Some (page + 1))
      end
  end.

(** The body of [for city_name, city_slug in cities:]. *)
Definition es_city (fuel : nat) (region : string) (limit : option Z) (o : opts)
    (scope : nat) (c : string * string) : M W ctl :=
  t <- gets total ;;
  if limit_reached limit t then ret Break else
  while_true fuel (es_page region (snd c) limit o scope) 1 ;;;
  ret Next.

Definition scrape_empresite (fuel : nat) (region : string) (city : option string)
    (limit : option Z) (o : opts) : M W (list dict) :=
  cities <-
    match city_given city with
    | Some c => ret (Some [(c, c)])
    | None =>
        resp <- _cffi_fetch OtherReq (ES_BASE ++ "/provincia/" ++ region ++ "/")
                  "GET" 3 ∅ ;;
        if negb (status_code resp =? 200) then ret None
        else
          cs <- lift_opt (es_cities (soup_select (text resp) "a[href*='/localidad/']")) ;;
          ret (Some cs)
    end ;;
  match cities with
  | None => gets companies
  | Some cities =>
      for_enum O cities (es_city fuel region limit o) ;;;
      gets companies
  end.

End Empresite.

(** ** Europages (Playwright) *)

Definition EUROPAGES_SEARCH_TERMS : list string :=
  [ "servicios"; "fabricante"; "industrial"; "construccion"; "tecnologia";
    "alimentacion"; "transporte"; "consultoria"; "energia"; "textil";
    "quimico"; "metalurgia"; "farmaceutico"; "ingenieria"; "maquinaria" ].

(** [re.sub(r"/products/.*", "", link)]: from every occurrence of
    [/products/] up to the end of its line is removed.  [cutting] says that
    the characters read belong to a match. *)
Fixpoint cut_products_from (cutting : bool) (s : string) : string :=
  match s with
  | EmptyString => EmptyString
  | String c r =>
      if Ascii.eqb c (ascii_of_nat 10) then String c (cut_products_from false r)
      else if cutting then cut_products_from true r
      else if Py.startswith "/products/" s then cut_products_from true r
      else String c (cut_products_from false r)
  end.

Definition cut_products (link : string) : string := cut_products_from false link.

(** The loop over [raw_links] that fills [slugs] and [seen_urls]. *)
Fixpoint new_slugs (raw_links : list string) (seen_urls : gset string)
  : list string * gset string :=
  match raw_links with
  | [] => ([], seen_urls)
  | link :: r =>
      let base := cut_products link in
      if bool_decide (base ∈ seen_urls) then new_slugs r seen_urls
      else
        let '(slugs, sn) := new_slugs r ({[base]} ∪ seen_urls) in
        (base :: slugs, sn)
  end.

Section Europages.
Context {W : Type} `{!World W} `{!Lib}.

Definition EP_BASE : string := "https://www.europages.es".

(** The loop [for sel in ["h1", "h2"]:] that looks for the name. *)
Fixpoint ep_name (sels : list string) : M W (option string) :=
  match sels with
  | [] => ret None
  | sel :: r =>
      el <- ask (QuerySelector None sel) ;;
      match el with
      | None => ep_name r
      | Some e =>
          raw <- ask (InnerText e) ;;
          let raw := Py.strip raw in
          let raw :=
            if Py.startswith "SOBRE " (Py.upper raw)
            then Py.strip (Py.drop 6 raw) else raw in
          if Py.nonempty raw then ret (Some raw) else ep_name r
      end
  end.

Definition ep_company (name slug region : string) : dict :=
  <["legal_name" := Py.PStr (Py.upper name)]>
  (<["source_portal" := Py.PStr "europages"]>
  (<["source_url" := Py.PStr (EP_BASE ++ slug)]>
  (<["region" := Py.PStr (Py.title region)]>
  (<["province" := Py.PStr (Py.title region)]>
  (<["city" := Py.PStr (Py.title region)]> ∅))))).

(** The body of [for slug in slugs:]. *)
Definition ep_slug (region : string) (limit : option Z) (slug : string) : M W ctl :=
  stop <- at_limit limit ;;
  if stop then ret Break else
  human_delay None None ;;;
  ok <- try_except (goto DetailReq (EP_BASE ++ slug) 30000 ;;; ret true) (ret false) ;;
  if negb ok then ret Next else
  clear <- wait_for_challenge 120 ;;
  if negb clear then ret Next else
  human_delay (Some 1%Q) (Some 3%Q) ;;;
  text <- ask (PageInnerText "body") ;;
  name <- ep_name ["h1"; "h2"] ;;
  match name with
  | None => ret Next
  | Some name =>
      let company := ep_company name slug region in
      let emp := re_search "Empleados:\s*([\d\s\-–]+)" "" text in
      let company :=
        set_field "employee_count"
          (option_map (fun emp => Py.strip (group 1 emp)) emp) company in
      web_el <- ask (QuerySelector None "a[href*='http']:has-text('Visitar')") ;;
      company <-
        match web_el with
        | Some e =>
            href <- ask (GetAttribute e "href") ;;
            ret (match href with
                 | Some href =>
                     if Py.nonempty href && negb (Py.contains "europages" href)
                     then set_website href company else company
                 | None => company
                 end)
        | None => ret company
        end ;;
      let addr := re_search "([\w\s/.,-]+\d{4,5})\s*\n?\s*España" "" text in
      let company :=
        set_field "address"
          (option_map (fun addr => Py.strip (group 1 addr)) addr) company in
      desc_el <- ask (QuerySelector None "div[class*='description'], div[class*='about'] p") ;;
      company <-
        match desc_el with
        | Some e =>
            desc <- ask (InnerText e) ;;
            let desc := Py.strip desc in
            ret (if Py.nonempty desc
                 then <["summary" := Py.PStr (Py.take 500 desc)]> company
                 else company)
        | None => ret company
        end ;;
      phone_el <- ask (QuerySelector None "a[href^='tel:']") ;;
      company <-
        match phone_el with
        | Some e =>
            href <- ask (GetAttribute e "href") ;;
            href <- lift_opt href ;;
            ret (set_phone (normalize_phone (Py.replace "tel:" "" href)) company)
        | None => ret company
        end ;;
      emit slug company ;;;
      ret Next
  end.

(** The body of [while True:] for the search term [term], the [scope]-th of
    the run. *)
Definition ep_page (region location term : string) (limit : option Z)
    (scope : nat) (page_num : Z) : M W (option Z) :=
  stop <- at_limit limit ;;
  if stop then ret None else
  human_delay None None ;;;
  let url :=
    EP_BASE ++ "/es/search?q=" ++ term ++ "&location=" ++ location
      ++ (if 1 <? page_num then "&page=" ++ pretty page_num else "") in
  ok <- try_except (goto (PageReq scope page_num) url 30000 ;;; ret true) (ret false) ;;
  if negb ok then ret None else
  clear <- wait_for_challenge 300 ;;
  if negb clear then ret None else
  human_delay (Some 2%Q) (Some 4%Q) ;;;
  content <- ask Content ;;
  let raw_links :=
    re_findall ("href=" ++ dq ++ "(/es/company/[^" ++ dq ++ "]+)" ++ dq) content in
  seen_urls <- gets seen ;;
  let '(slugs, seen_urls) := new_slugs raw_links seen_urls in
  modify (set_seen seen_urls) ;;;
  log (EvItems scope page_num (length slugs)) ;;;
  match slugs with
  | [] => ret None
  | _ =>
      for_each slugs (ep_slug region limit) ;;;
      has_next <- ask (QuerySelector None "a[rel='next'], [aria-label='Next']") ;;
      if negb (bool_decide (is_Some has_next)) || (10 <=? page_num) then ret None
      else ret (Some (page_num + 1))
  end.

(** The body of [for term in EUROPAGES_SEARCH_TERMS:]. *)
Definition ep_term (fuel : nat) (region location : string) (limit : option Z)
    (scope : nat) (term : string) : M W ctl :=
  stop <- at_limit limit ;;
  if stop then ret Break else
  while_true fuel (ep_page region location term limit scope) 1 ;;;
  ret Next.

Definition scrape_europages (fuel : nat) (region : string) (city : option string)
    (limit : option Z) (o : opts) : M W (list dict) :=
  launch_browser "europages" (headless o) ;;;
  let location :=
    match city_given city with
    | Some c => Py.title c
    | None => Py.title region
    end in
  try_finally
    (for_enum O EUROPAGES_SEARCH_TERMS (ep_term fuel region location limit))
    close_browser ;;;
  gets companies.

End Europages.

Example cut_products_ex :
  cut_products "/es/company/acme-sl/products/tornillos" = "/es/company/acme-sl".
Proof. reflexivity. Qed.

(** ** PaginasAmarillas (Playwright) *)

Definition PA_CATEGORIES : list string :=
  [ "empresas"; "construccion"; "consultoria"; "informatica";
    "transporte"; "alimentacion"; "industria"; "servicios";
    "ingenieria"; "comercio"; "inmobiliaria"; "abogados" ].

Definition PA_PROVINCES : list (string * string) :=
  [ ("BARCELONA", "barcelona"); ("MADRID", "madrid"); ("VALENCIA", "valencia");
    ("SEVILLA", "sevilla"); ("MALAGA", "malaga"); ("ALICANTE", "alicante");
    ("ZARAGOZA", "zaragoza"); ("BILBAO", "vizcaya"); ("MURCIA", "murcia") ].

(** [d.get(k, dflt)] on a literal dict of strings *)
Fixpoint dict_get (d : list (string * string)) (k dflt : string) : string :=
  match d with
  | [] => dflt
  | (k', v) :: r => if String.eqb k k' then v else dict_get r k dflt
  end.

(** The dict literal of the browser routines that start from the region
    alone. *)
Definition region_company (portal name region : string) : dict :=
  <["legal_name" := Py.PStr (Py.upper name)]>
  (<["source_portal" := Py.PStr portal]>
  (<["region" := Py.PStr (Py.title region)]>
  (<["province" := Py.PStr (Py.title region)]>
  (<["city" := Py.PStr (Py.title region)]> ∅)))).

Section Paginasamarillas.
Context {W : Type} `{!World W} `{!Lib}.

Definition PA_BASE : string := "https://www.paginasamarillas.es".

(** The body of [for li in listings:]. *)
Definition pa_listing (region : string) (limit : option Z) (li : elem) : M W ctl :=
  stop <- at_limit limit ;;
  if stop then ret Break else
  name_el <- ask (QuerySelector (Some li) "h2 a, h2 span, [itemprop='name']") ;;
  match name_el with
  | None => ret Next
  | Some name_el =>
      name <- ask (InnerText name_el) ;;
      let name := Py.strip name in
      sn <- gets seen ;;
      if negb (Py.nonempty name) || bool_decide (Py.upper name ∈ sn) then ret Next else
      modify (add_seen (Py.upper name)) ;;;
      let c := region_company "paginasamarillas" name region in
      ph_el <- ask (QuerySelector (Some li) "a[href^='tel:'], [itemprop='telephone']") ;;
      c <-
        match ph_el with
        | Some e =>
            href <- ask (GetAttribute e "href") ;;
            cand <-
              match href with
              | Some h => if Py.nonempty h then ret h else ask (InnerText e)
              | None => ask (InnerText e)
              end ;;
            ret (set_phone (normalize_phone (Py.replace "tel:" "" cand)) c)
        | None => ret c
        end ;;
      addr_el <- ask (QuerySelector (Some li) "[itemprop='address'], span.address") ;;
      c <-
        match addr_el with
        | Some a =>
            addr <- ask (InnerText a) ;;
            let c := <["address" := Py.PStr (Py.strip addr)]> c in
            city_el <- ask (QuerySelector (Some a) "[itemprop='addressLocality']") ;;
            match city_el with
            | Some ce =>
                city <- ask (InnerText ce) ;;
                ret (<["city" := Py.PStr (Py.title (Py.strip city))]> c)
            | None => ret c
            end
        | None => ret c
        end ;;
      web_el <- ask (QuerySelector (Some li) "a[data-type='web'], a.web") ;;
      c <-
        match web_el with
        | Some e =>
            href <- ask (GetAttribute e "href") ;;
            ret (match href with
                 | Some href =>
                     if Py.nonempty href
                        && negb (Py.contains "paginasamarillas" href)
                        && Py.startswith "http" href
                     then set_website href c else c
                 | None => c
                 end)
        | None => ret c
        end ;;
      emit (Py.upper name) c ;;;
      n <- gets new ;;
      modify (set_new (n + 1)) ;;;
      ret Next
  end.

(** The body of [while True:] for the category [cat], the [scope]-th of the
    run. *)
Definition pa_page (region province cat : string) (limit : option Z)
    (scope : nat) (pnum : Z) : M W (option Z) :=
  stop <- at_limit limit ;;
  if stop then ret None else
  human_delay None None ;;;
  let url :=
    PA_BASE ++ "/search/" ++ cat ++ "/all-ma/" ++ province ++ "/all-is/" ++ province
      ++ "/all-ba/all-pu/all-nc/" ++ pretty pnum in
  ok <- try_except (goto (PageReq scope pnum) url 30000 ;;; ret true) (ret false) ;;
  if negb ok then ret None else
  clear <- wait_for_challenge 120 ;;
  if negb clear then ret None else
  human_delay (Some 2%Q) (Some 4%Q) ;;;
  listings <- ask (QuerySelectorAll None
                     "div.listado-item, div.search-result, article, [data-name]") ;;
  log (EvItems scope pnum (length listings)) ;;;
  match listings with
  | [] => ret None
  | _ =>
      modify (set_new 0) ;;;
      for_each listings (pa_listing region limit) ;;;
      n <- gets new ;;
      if n =? 0 then ret None else
      has_next <- ask (QuerySelector None "a.next, a[rel='next']") ;;
      if negb (bool_decide (is_Some has_next)) || (20 <=? pnum) then ret None
      else ret (Some (pnum + 1))
  end.

(** The body of [for cat in PA_CATEGORIES:]. *)
Definition pa_category (fuel : nat) (region province : string) (limit : option Z)
    (scope : nat) (cat : string) : M W ctl :=
  stop <- at_limit limit ;;
  if stop then ret Break else
  while_true fuel (pa_page region province cat limit scope) 1 ;;;
  ret Next.

Definition scrape_paginasamarillas (fuel : nat) (region : string)
    (city : option string) (limit : option Z) (o : opts) : M W (list dict) :=
  launch_browser "paginasamarillas" (headless o) ;;;
  let province := dict_get PA_PROVINCES (Py.upper region) (Py.lower region) in
  try_finally
    (goto OtherReq PA_BASE 30000 ;;;
     human_delay (Some 3%Q) (Some 5%Q) ;;;
     clear <- wait_for_challenge 300 ;;
     if negb clear then ret tt
     else for_enum O PA_CATEGORIES (pa_category fuel region province limit))
    close_browser ;;;
  gets companies.

End Paginasamarillas.

(** ** Einforma (Playwright) *)

Definition EINFORMA_PROVINCES : list (string * string) :=
  [ ("BARCELONA", "barcelona"); ("MADRID", "madrid"); ("VALENCIA", "valencia");
    ("SEVILLA", "sevilla"); ("MALAGA", "malaga"); ("ALICANTE", "alicante");
    ("ZARAGOZA", "zaragoza"); ("BILBAO", "vizcaya"); ("MURCIA", "murcia") ].

Section Einforma.
Context {W : Type} `{!World W} `{!Lib}.

Definition EI_BASE : string := "https://www.einforma.com".

(** The body of [for row in rows:]. *)
Definition ei_row (region : string) (limit : option Z) (row : elem) : M W ctl :=
  stop <- at_limit limit ;;
  if stop then ret Break else
  name_el <- ask (QuerySelector (Some row)
                    "a[href*='/informes-empresa/'], td:first-child a") ;;
  match name_el with
  | None => ret Next
  | Some name_el =>
      name <- ask (InnerText name_el) ;;
      let name := Py.strip name in
      if negb (Py.nonempty name) then ret Next else
      let c := region_company "einforma" name region in
      href <- ask (GetAttribute name_el "href") ;;
      let c :=
        set_field "source_url"
          (match href with
           | Some href =>
               if Py.nonempty href then
                 Some (if Py.startswith "http" href then href
                       else urljoin EI_BASE href)
               else None
           | None => None
           end) c in
      cif_el <- ask (QuerySelector (Some row) ".cif, td:nth-child(2)") ;;
      c <-
        match cif_el with
        | Some e =>
            t <- ask (InnerText e) ;;
            let m := re_search "[A-Z]\d{7,8}" "" (Py.strip t) in
            ret (set_field "cif" (option_map (group 0) m) c)
        | None => ret c
        end ;;
      emit (Py.upper name) c ;;;
      ret Next
  end.

(** The body of [for link in links:]. *)
Definition ei_link (region : string) (limit : option Z) (link : string) : M W ctl :=
  stop <- at_limit limit ;;
  if stop then ret Break else
  match re_search "/informes-empresa/([^/]+)" "" link with
  | Some name_part =>
      let raw := Py.strip (Py.replace "-" " " (group 1 name_part)) in
      if Py.nonempty raw then
        emit (Py.upper raw)
          (<["legal_name" := Py.PStr (Py.upper raw)]>
           (<["source_portal" := Py.PStr "einforma"]>
           (<["source_url" := Py.PStr (urljoin EI_BASE link)]>
           (<["region" := Py.PStr (Py.title region)]>
           (<["province" := Py.PStr (Py.title region)]>
           (<["city" := Py.PStr (Py.title region)]> ∅)))))) ;;;
        ret Next
      else ret Next
  | None => ret Next
  end.

(** The body of [while True:]. *)
Definition ei_page (region province : string) (limit : option Z) (pnum : Z)
  : M W (option Z) :=
  stop <- at_limit limit ;;
  if stop then ret None else
  ok <-
    (if 1 <? pnum then
       human_delay None None ;;;
       let url := EI_BASE ++ "/informes-empresas/" ++ province ++ "-"
                    ++ pretty pnum ++ ".html" in
       ok <- try_except (goto (PageReq O pnum) url 30000 ;;; ret true) (ret false) ;;
       if negb ok then ret false else
       clear <- wait_for_challenge 120 ;;
       if negb clear then ret false else
       human_delay (Some 2%Q) (Some 4%Q) ;;;
       ret true
     else ret true) ;;
  if negb ok then ret None else
  content <- ask Content ;;
  let links :=
    re_findall ("href=" ++ dq ++ "(/informes-empresa/[^" ++ dq ++ "]+)" ++ dq) content in
  rows <- ask (QuerySelectorAll None "table tbody tr, .empresa-item, .result-row") ;;
  log (EvItems O pnum (match rows with [] => length links | _ => length rows end)) ;;;
  more <-
    match rows, links with
    | _ :: _, _ => for_each rows (ei_row region limit) ;;; ret true
    | [], _ :: _ => for_each links (ei_link region limit) ;;; ret true
    | [], [] => ret false
    end ;;
  if negb more then ret None else
  has_next <- ask (QuerySelector None "a[rel='next'], a:has-text('Siguiente')") ;;
  if negb (bool_decide (is_Some has_next)) then ret None
  else ret (Some (pnum + 1)).

Definition scrape_einforma (fuel : nat) (region : string) (city : option string)
    (limit : option Z) (o : opts) : M W (list dict) :=
  launch_browser "einforma" (headless o) ;;;
  let province := dict_get EINFORMA_PROVINCES (Py.upper region) (Py.lower region) in
  try_finally
    (goto OtherReq EI_BASE 30000 ;;;
     human_delay (Some 3%Q) (Some 5%Q) ;;;
     try_except
       (btn <- ask (QuerySelector None "button#onetrust-accept-btn-handler") ;;
        match btn with
        | Some b =>
            issue OtherReq "button#onetrust-accept-btn-handler" (Click b) ;;;
            ask (WaitForTimeout 2000)
        | None => ret tt
        end)
       (ret tt) ;;;
     goto (PageReq O 1) (EI_BASE ++ "/informes-empresas/" ++ province ++ ".html") 30000 ;;;
     human_delay (Some 3%Q) (Some 5%Q) ;;;
     clear <- wait_for_challenge 300 ;;
     if negb clear then ret tt
     else while_true fuel (ei_page region province limit) 1)
    close_browser ;;;
  gets companies.

End Einforma.

(** ** Empresia (Playwright) *)

Definition EMPRESIA_SEARCH_TERMS : list string :=
  [ "SL"; "SA"; "SLU"; "SOCIEDAD LIMITADA";
    "CONSULTING"; "SERVICIOS"; "TECNOLOGIA"; "CONSTRUCCION";
    "INGENIERIA"; "ALIMENTACION"; "TRANSPORTE"; "INDUSTRIAL";
    "GESTION"; "COMERCIAL"; "SOLUCIONES"; "GRUPO" ].

Section Empresia.
Context {W : Type} `{!World W} `{!Lib}.

Definition EM_BASE : string := "https://www.empresia.es".

Definition EM_SEARCH_BOX : string :=
  "input.ui-autocomplete-input, input[type='search'], input[type='text']".

(** The loop [for s in suggestions:] that fills [texts]. *)
Fixpoint em_texts (suggestions : list elem) : M W (list string) :=
  match suggestions with
  | [] => ret []
  | s :: r =>
      t <- ask (InnerText s) ;;
      let t := Py.strip t in
      texts <- em_texts r ;;
      ret (if Py.nonempty t then t :: texts else texts)
  end.

Definition em_excluded : list string :=
  [ "empresia"; "axesor"; "einforma"; "infocif"; "google"; "facebook" ].

(** The loop [for wel in web_els:] that looks for the website. *)
Fixpoint em_website (web_els : list elem) (c : dict) : M W dict :=
  match web_els with
  | [] => ret c
  | wel :: r =>
      href <- ask (GetAttribute wel "href") ;;
      match href with
      | Some href =>
          if Py.nonempty href
             && negb (existsb (fun d => Py.contains d (Py.lower href)) em_excluded)
          then
            wtext <- ask (InnerText wel) ;;
            if Py.contains "www" href || Py.contains "http" (Py.lower wtext)
            then ret (set_website href c)
            else em_website r c
          else em_website r c
      | None => em_website r c
      end
  end.

(** The fields read off the text of the company page with regular
    expressions. *)
Definition em_fields (body : string) (c : dict) : dict :=
  let cif_m := re_search "CIF\s*\n\s*([A-Z]\d{7,8})" "" body in
  let c := set_field "cif" (option_map (group 1) cif_m) c in
  let cnae_m := re_search "CNAE\s+(\d{3,4})\s*[-–]\s*(.+?)(?:\n|$)" "" body in
  let c := set_field "cnae_code" (option_map (group 1) cnae_m) c in
  let c :=
    set_field "industry"
      (option_map (fun m => Py.take 256 (Py.strip (group 2 m))) cnae_m) c in
  let phone_m := re_search "(\d{9})\s+\d{9}" "" body in
  let c := set_field "phone" (option_map (group 1) phone_m) c in
  let emp_m := re_search "[Nn]úmero empleados\s*\n?\s*(\d[\d.]*)" "" body in
  let c :=
    set_field "employee_count"
      (option_map (fun m => Py.replace "." "" (group 1 m)) emp_m) c in
  let addr_m :=
    re_search "((?:CALLE|PASEO|AVENIDA|PLAZA|C/|CL |PG )[^\n]+?\([A-Z]+\))"
      "re.I" body in
  let c := set_field "address" (option_map (fun m => Py.strip (group 1 m)) addr_m) c in
  let city_m :=
    match addr_m with
    | Some m => re_search "\(([^)]+)\)\s*$" "" (group 1 m)
    | None => None
    end in
  let c :=
    set_field "city" (option_map (fun m => Py.title (Py.strip (group 1 m))) city_m) c in
  let obj_m :=
    re_search "Objeto social\s*\n\s*(.+?)(?:\nCNAE|\nCIF|\nFecha)" "re.S" body in
  set_field "summary" (option_map (fun m => Py.take 500 (Py.strip (group 1 m))) obj_m) c.

(** The body of [for text in texts:]. *)
Definition em_text (region : string) (limit : option Z) (text : string) : M W ctl :=
  stop <- at_limit limit ;;
  if stop then ret Break else
  human_delay None None ;;;
  goto DetailReq EM_BASE 20000 ;;;
  human_delay (Some 1%Q) (Some 2%Q) ;;;
  search <- ask (QuerySelector None EM_SEARCH_BOX) ;;
  match search with
  | None => ret Next
  | Some search =>
      ask (Click search) ;;;
      ask (Fill search "") ;;;
      issue DetailReq (Py.take 30 text) (TypeText search (Py.take 30 text) 50) ;;;
      ask (WaitForTimeout 3000) ;;;
      item <- ask (QuerySelector None
                ".ui-autocomplete .ui-menu-item a, .ui-autocomplete li a, .ui-autocomplete li") ;;
      match item with
      | None => ret Next
      | Some item =>
          issue DetailReq (Py.take 30 text) (Click item) ;;;
          ask (WaitForTimeout 3000) ;;;
          url <- ask PageUrl ;;
          if negb (Py.contains "/empresa/" url) then ret Next else
          url <- ask PageUrl ;;
          let slug := Py.split_last "/" (Py.rstrip_slash url) in
          sn <- gets seen ;;
          if bool_decide (slug ∈ sn) then ret Next else
          modify (add_seen slug) ;;;
          body <- ask (PageInnerText "body") ;;
          let name :=
            match re_search "Datos de (.+?)(?:\n|$)" "" body with
            | Some name_m => Py.strip (group 1 name_m)
            | None => ""
            end in
          name <-
            (if negb (Py.nonempty name) then
               h1 <- ask (QuerySelector None "h1") ;;
               match h1 with
               | Some h => t <- ask (InnerText h) ;; ret (Py.strip t)
               | None => ret name
               end
             else ret name) ;;
          if negb (Py.nonempty name) then ret Next else
          url <- ask PageUrl ;;
          let c :=
            <["legal_name" := Py.PStr (Py.upper name)]>
            (<["source_portal" := Py.PStr "empresia"]>
            (<["source_url" := Py.PStr url]>
            (<["region" := Py.PStr (Py.title region)]>
            (<["province" := Py.PStr (Py.title region)]>
            (<["city" := Py.PStr (Py.title region)]> ∅))))) in
          let c := em_fields body c in
          web_els <- ask (QuerySelectorAll None "a[href^='http']") ;;
          c <- em_website web_els c ;;
          emit slug c ;;;
          ret Next
      end
  end.

(** The body of [for term in EMPRESIA_SEARCH_TERMS:]; the suggestions of a
    term are its one page. *)
Definition em_term (region location : string) (limit : option Z)
    (scope : nat) (term : string) : M W ctl :=
  stop <- at_limit limit ;;
  if stop then ret Break else
  let query := term ++ " " ++ location in
  human_delay None None ;;;
  goto (PageReq scope 1) EM_BASE 20000 ;;;
  human_delay (Some 1%Q) (Some 2%Q) ;;;
  search <- ask (QuerySelector None EM_SEARCH_BOX) ;;
  match search with
  | None => ret Next
  | Some search =>
      ask (Click search) ;;;
      ask (Fill search "") ;;;
      issue (PageReq scope 1) query (TypeText search query 50) ;;;
      ask (WaitForTimeout 3000) ;;;
      suggestions <- ask (QuerySelectorAll None
                        ".ui-autocomplete .ui-menu-item, .ui-autocomplete li") ;;
      log (EvItems scope 1 (length suggestions)) ;;;
      match suggestions with
      | [] => ret Next
      | _ =>
          texts <- em_texts suggestions ;;
          for_each texts (em_text region limit) ;;;
          ret Next
      end
  end.

Definition scrape_empresia (region : string) (city : option string)
    (limit : option Z) (o : opts) : M W (list dict) :=
  launch_browser "empresia" (headless o) ;;;
  let location := Py.upper (default region (city_given city)) in
  try_finally
    (goto OtherReq EM_BASE 20000 ;;;
     human_delay (Some 2%Q) (Some 4%Q) ;;;
     for_enum O EMPRESIA_SEARCH_TERMS (em_term region location limit))
    close_browser ;;;
  gets companies.

End Empresia.

(** ** LibreBOR (Playwright) *)

Definition LIBREBOR_PROVINCES : list (string * string) :=
  [ ("BARCELONA", "barcelona"); ("MADRID", "madrid"); ("VALENCIA", "valencia");
    ("SEVILLA", "sevilla"); ("MALAGA", "malaga"); ("ALICANTE", "alicante");
    ("ZARAGOZA", "zaragoza"); ("BILBAO", "bizkaia"); ("MURCIA", "murcia") ].

(** [v.get(k)] on a JSON value: [None] of the outer option is the
    [AttributeError] of a value that is not a dict. *)
Definition json_get (v : Py.pyval) (k : string) : option (option Py.pyval) :=
  match v with
  | Py.PDict d => Some (Py.assoc k d)
  | _ => None
  end.

(** [v[k]] when [v.get(k)] is truthy, for a dict [v] *)
Definition json_truthy (v : Py.pyval) (k : string) : option Py.pyval :=
  match json_get v k with
  | Some (Some x) => if Py.truthy x then Some x else None
  | _ => None
  end.

(** [if o: c[k] = o], the value stored as it is *)
Definition set_value (k : string) (o : option Py.pyval) (c : dict) : dict :=
  match o with
  | Some v => <[k := v]> c
  | None => c
  end.

(** [bool(v.get(k))] for a dict [v] *)
Definition json_has (v : Py.pyval) (k : string) : option bool :=
  match json_get v k with
  | Some (Some x) => Some (Py.truthy x)
  | Some None => Some false
  | None => None
  end.

Section Librebor.
Context {W : Type} `{!World W} `{!Lib}.

Definition LB_BASE : string := "https://librebor.me".

(** The body of [for link in links:] of the HTML fallback. *)
Definition lb_link (region : string) (limit : option Z) (link : string) : M W ctl :=
  stop <- at_limit limit ;;
  if stop then ret Break else
  human_delay None None ;;;
  ok <- try_except (goto DetailReq (LB_BASE ++ link) 20000 ;;; ret true) (ret false) ;;
  if negb ok then ret Next else
  clear <- wait_for_challenge 60 ;;
  if negb clear then ret Next else
  text <- ask (PageInnerText "body") ;;
  h1 <- ask (QuerySelector None "h1") ;;
  match h1 with
  | None => ret Next
  | Some h1 =>
      name <- ask (InnerText h1) ;;
      let name := Py.strip name in
      if negb (Py.nonempty name) then ret Next else
      let c :=
        <["legal_name" := Py.PStr (Py.upper name)]>
        (<["source_portal" := Py.PStr "librebor"]>
        (<["source_url" := Py.PStr (LB_BASE ++ link)]>
        (<["city" := Py.PStr (Py.title region)]>
        (<["province" := Py.PStr (Py.title region)]>
        (<["region" := Py.PStr (Py.title region)]> ∅))))) in
      let cif_m := re_search "CIF:\s*([A-Z]\d{7,8})" "" text in
      let c := set_field "cif" (option_map (group 1) cif_m) c in
      let cnae_m := re_search "CNAE:\s*(\d{3,4})" "" text in
      let c := set_field "cnae_code" (option_map (group 1) cnae_m) c in
      emit (Py.upper name) c ;;;
      ret Next
  end.

(** The fields copied from an API item that has them. *)
Definition lb_item_fields (item : Py.pyval) (c : dict) : dict :=
  let c := set_value "source_url" (json_truthy item "url") c in
  let c := set_value "cif" (json_truthy item "cif") c in
  set_field "cnae_code"
    (match json_truthy item "cnae" with
     | Some v =>
         if Z.of_nat (String.length (py_str v)) <=? 20 then Some (py_str v) else None
     | None => None
     end) c.

(** The body of [for item in results:]; an item that is not a dict, or
    whose name is not a string, raises. *)
Definition lb_item (region : string) (limit : option Z) (item : Py.pyval) : M W ctl :=
  stop <- at_limit limit ;;
  if stop then ret Break else
  name <- lift_opt (json_get item "name") ;;
  match default (Py.PStr "") name with
  | Py.PStr name =>
      let name := Py.strip name in
      if negb (Py.nonempty name) then ret Next else
      emit (Py.upper name)
        (lb_item_fields item (region_company "librebor" name region)) ;;;
      ret Next
  | _ => raise
  end.

(** The body of [while True:]. *)
Definition lb_page (region province : string) (limit : option Z) (pnum : Z)
  : M W (option Z) :=
  stop <- at_limit limit ;;
  if stop then ret None else
  human_delay None None ;;;
  let api_url :=
    LB_BASE ++ "/borme/api/v1/empresa/provincia/" ++ province ++ "/?page="
      ++ pretty pnum in
  ok <- try_except (goto (PageReq O pnum) api_url 30000 ;;; ret true) (ret false) ;;
  if negb ok then ret None else
  clear <- wait_for_challenge 120 ;;
  if negb clear then ret None else
  data <- try_except
            (body <- ask (PageInnerText "body") ;;
             d <- lift_opt (json_loads body) ;;
             ret (Some d))
            (ret None) ;;
  match data with
  | None =>
      (* HTML fallback *)
      content <- ask Content ;;
      let links :=
        re_findall ("href=" ++ dq ++ "(/borme/empresa/[^" ++ dq ++ "]+)" ++ dq) content in
      log (EvItems O pnum (length links)) ;;;
      match links with
      | [] => ret None
      | _ =>
          for_each links (lb_link region limit) ;;;
          ret (Some (pnum + 1))
      end
  | Some data =>
      results <- lift_opt (json_get data "results") ;;
      let results := default (Py.PList []) results in
      if negb (Py.truthy results) then
        log (EvItems O pnum O) ;;;
        ret None
      else
        match results with
        | Py.PList items =>
            log (EvItems O pnum (length items)) ;;;
            for_each items (lb_item region limit) ;;;
            next <- lift_opt (json_has data "next") ;;
            if negb next then ret None else ret (Some (pnum + 1))
        | _ =>
            (* iterating a dict or a string gives strings, on which
               [item.get] raises; a number cannot be iterated *)
            raise
        end
  end.

Definition scrape_librebor (fuel : nat) (region : string) (city : option string)
    (limit : option Z) (o : opts) : M W (list dict) :=
  launch_browser "librebor" (headless o) ;;;
  let province := dict_get LIBREBOR_PROVINCES (Py.upper region) (Py.lower region) in
  try_finally
    (goto OtherReq LB_BASE 30000 ;;;
     human_delay (Some 3%Q) (Some 5%Q) ;;;
     clear <- wait_for_challenge 300 ;;
     if negb clear then ret tt
     else while_true fuel (lb_page region province limit) 1)
    close_browser ;;;
  gets companies.

End Librebor.

(** ** Main *)

Inductive portal : Type :=
| Empresite | Europages | Paginasamarillas | Einforma | Empresia | Librebor.

(** The parsed command line. *)
Record args : Type := Args {
  a_portal : portal;
  a_region : string;
  a_city : option string;
  a_limit : option Z;
  a_output : option string;
  a_headless : bool;
  a_details : bool;
  a_employee_min : Z;
  a_employee_max : Z;
  a_delay_min : Q;
  a_delay_max : Q
}.

(** [{k: v for k, v in company.items() if v}] *)
Definition remove_empty (company : dict) : dict :=
  filter (fun kv => Is_true (Py.truthy kv.2)) company.

Section Main.
Context {W : Type} `{!World W} `{!Lib}.

(** [SCRAPERS[portal]] *)
Definition SCRAPERS (p : portal) (fuel : nat)
  : string -> option string -> option Z -> opts -> M W (list dict) :=
  match p with
  | Empresite => scrape_empresite fuel
  | Europages => scrape_europages fuel
  | Paginasamarillas => scrape_paginasamarillas fuel
  | Einforma => scrape_einforma fuel
  | Empresia => scrape_empresia
  | Librebor => scrape_librebor fuel
  end.

(** The run of the selected routine from [main]: the two globals are
    assigned from the command line, then the routine is called. *)
Definition run (fuel : nat) (a : args) (w : W) : outcome (list dict) * state W :=
  let g := {| MIN_DELAY := a_delay_min a; MAX_DELAY := a_delay_max a |} in
  SCRAPERS (a_portal a) fuel
    (Py.upper (a_region a))
    (option_map Py.upper (city_given (a_city a)))
    (a_limit a)
    {| headless := a_headless a; details := a_details a;
       employee_min := a_employee_min a; employee_max := a_employee_max a |}
    (initial w g).

(** [main]: the records written to the output, one JSON line each, in
    order.  Nothing is written when the routine raises or does not
    return. *)
Definition main (fuel : nat) (a : args) (w : W) : list dict :=
  match run fuel a w with
  | (Val companies, _) => map remove_empty companies
  | _ => []
  end.

End Main.

(** * Reasoning about runs *)

Local Open Scope list_scope.

(** ** Weakest preconditions *)

Section Logic.
Context {W : Type}.

(** [wpx E F m Q s]: run from [s], [m] ends with a value and a state that
    satisfy [Q], or raises in a state that satisfies [E], or is cut off in
    a state that satisfies [F]. *)
Definition wpx {A : Type} (E F : state W -> Prop) (m : M W A)
    (Q : A -> state W -> Prop) (s : state W) : Prop :=
  match m s with
  | (Val a, s') => Q a s'
  | (Exc, s') => E s'
  | (Fuel, s') => F s'
  end.

Lemma wp_ret {A} E F (a : A) (Q : A -> state W -> Prop) s :
  Q a s -> wpx E F (ret a) Q s.
Proof. done. Qed.

Lemma wp_raise {A} (E F : state W -> Prop) (Q : A -> state W -> Prop) s :
  E s -> wpx E F raise Q s.
Proof. done. Qed.

Lemma wp_bind {A B} E F (m : M W A) (k : A -> M W B) Q s :
  wpx E F m (fun a s' => wpx E F (k a) Q s') s -> wpx E F (bind m k) Q s.
Proof. unfold wpx, bind. by destruct (m s) as [[a| |] s']. Qed.

Lemma wp_mono {A} (E F E' F' : state W -> Prop) (m : M W A)
    (Q Q' : A -> state W -> Prop) s :
  wpx E F m Q s ->
  (forall a s', Q a s' -> Q' a s') ->
  (forall s', E s' -> E' s') ->
  (forall s', F s' -> F' s') ->
  wpx E' F' m Q' s.
Proof. unfold wpx. destruct (m s) as [[a| |] s']; auto. Qed.

Lemma wp_gets {A B} E F (f : state W -> A) (k : A -> M W B) Q s :
  wpx E F (k (f s)) Q s -> wpx E F (bind (gets f) k) Q s.
Proof. done. Qed.

Lemma wp_modify {B} E F (f : state W -> state W) (k : unit -> M W B) Q s :
  wpx E F (k tt) Q (f s) -> wpx E F (bind (modify f) k) Q s.
Proof. done. Qed.

Lemma wp_try_except {A} E F (m h : M W A) Q s :
  wpx (fun s' => wpx E F h Q s') F m Q s -> wpx E F (try_except m h) Q s.
Proof. unfold wpx, try_except. by destruct (m s) as [[a| |] s']. Qed.

Lemma wp_try_finally {A} E F (m : M W A) (f : M W unit) Q s :
  wpx (fun s' => wpx E F f (fun _ => E) s') F m
      (fun a s' => wpx E F f (fun _ => Q a) s') s ->
  wpx E F (try_finally m f) Q s.
Proof.
  unfold wpx, try_finally. destruct (m s) as [[a| |] s']; [| |done].
  - by destruct (f s') as [[[]| |] s''].
  - by destruct (f s') as [[[]| |] s''].
Qed.

(** A loop invariant [J] on the position and the items left. *)
Lemma wp_for_enum {A} E F (J : nat -> list A -> state W -> Prop)
    (Qf : state W -> Prop) (body : nat -> A -> M W ctl) l i s :
  J i l s ->
  (forall i x r s, J i (x :: r) s ->
     wpx E F (body i x)
       (fun c s' => match c with Next => J (S i) r s' | Break => Qf s' end) s) ->
  (forall i s, J i [] s -> Qf s) ->
  wpx E F (for_enum i l body) (fun _ => Qf) s.
Proof.
  intros HJ Hbody Hend. revert i s HJ.
  induction l as [|x r IH]; intros i s HJ; simpl.
  - apply wp_ret. eauto.
  - apply wp_bind. eapply wp_mono; [by apply Hbody| |done|done].
    intros [] s' H'; simpl in H'; [by apply IH | by apply wp_ret].
Qed.

Lemma wp_for_each {A} E F (J : list A -> state W -> Prop)
    (Qf : state W -> Prop) (body : A -> M W ctl) l s :
  J l s ->
  (forall x r s, J (x :: r) s ->
     wpx E F (body x)
       (fun c s' => match c with Next => J r s' | Break => Qf s' end) s) ->
  (forall s, J [] s -> Qf s) ->
  wpx E F (for_each l body) (fun _ => Qf) s.
Proof.
  intros HJ Hbody Hend. unfold for_each.
  apply (wp_for_enum E F (fun _ => J)); eauto.
Qed.

(** A loop invariant [J] on the loop variable. *)
Lemma wp_while {V} E F (J : V -> state W -> Prop) (Qf : state W -> Prop)
    (body : V -> M W (option V)) fuel v s :
  J v s ->
  (forall v s, J v s ->
     wpx E F (body v)
       (fun r s' => match r with Some v' => J v' s' | None => Qf s' end) s) ->
  (forall v s, J v s -> F s) ->
  wpx E F (while_true fuel body v) (fun _ => Qf) s.
Proof.
  intros HJ Hbody Hfuel. revert v s HJ.
  induction fuel as [|fuel IH]; intros v s HJ; simpl.
  - unfold wpx, out_of_fuel. eauto.
  - apply wp_bind. eapply wp_mono; [by apply Hbody| |done|done].
    intros [v'|] s' H'; simpl in H'; [by apply IH | by apply wp_ret].
Qed.

(** Loops that keep an invariant [I], whatever their position. *)
Lemma wp_for_enum_const {A B} (I : state W -> Prop) (body : nat -> A -> M W ctl)
    l i (k : unit -> M W B) Q s :
  I s ->
  (forall i x s, I s -> wpx I I (body i x) (fun _ => I) s) ->
  (forall s', I s' -> wpx I I (k tt) Q s') ->
  wpx I I (bind (for_enum i l body) k) Q s.
Proof.
  intros Hs Hbody Hk. apply wp_bind.
  eapply wp_mono;
    [apply (wp_for_enum I I (fun _ _ => I) I); eauto| | done | done].
  - intros j x r s0 Hs0. eapply wp_mono; [by apply Hbody| |done|done].
    by intros [].
  - by intros [].
Qed.

Lemma wp_for_each_const {A B} (I : state W -> Prop) (body : A -> M W ctl)
    l (k : unit -> M W B) Q s :
  I s ->
  (forall x s, I s -> wpx I I (body x) (fun _ => I) s) ->
  (forall s', I s' -> wpx I I (k tt) Q s') ->
  wpx I I (bind (for_each l body) k) Q s.
Proof. intros. apply wp_for_enum_const; eauto. Qed.

Lemma wp_while_const {V B} (I : state W -> Prop) (body : V -> M W (option V))
    fuel v (k : unit -> M W B) Q s :
  I s ->
  (forall v s, I s -> wpx I I (body v) (fun _ => I) s) ->
  (forall s', I s' -> wpx I I (k tt) Q s') ->
  wpx I I (bind (while_true fuel body v) k) Q s.
Proof.
  intros Hs Hbody Hk. apply wp_bind.
  eapply wp_mono;
    [apply (wp_while I I (fun _ => I) I); eauto| | done | done].
  - intros v0 s0 Hs0. eapply wp_mono; [by apply Hbody| |done|done].
    by intros [].
  - by intros [].
Qed.

Lemma wp_for_enum_end {A} (I : state W -> Prop) (body : nat -> A -> M W ctl) l i s :
  I s ->
  (forall i x s, I s -> wpx I I (body i x) (fun _ => I) s) ->
  wpx I I (for_enum i l body) (fun _ => I) s.
Proof.
  intros Hs Hbody. apply (wp_for_enum I I (fun _ _ => I) I); eauto.
  intros j x r s0 Hs0. eapply wp_mono; [by apply Hbody| |done|done].
  by intros [].
Qed.

Lemma wp_while_end {V} (I : state W -> Prop) (body : V -> M W (option V)) fuel v s :
  I s ->
  (forall v s, I s -> wpx I I (body v) (fun _ => I) s) ->
  wpx I I (while_true fuel body v) (fun _ => I) s.
Proof.
  intros Hs Hbody. apply (wp_while I I (fun _ => I) I); eauto.
  intros v0 s0 Hs0. eapply wp_mono; [by apply Hbody| |done|done].
  by intros [].
Qed.

(** ** Steps that only log and talk to the world *)

(** [s'] differs from [s] in the world and in new events, all in [P]. *)
Definition ext (P : event -> Prop) (s s' : state W) : Prop :=
  glob s' = glob s /\ companies s' = companies s /\ seen s' = seen s
  /\ total s' = total s /\ new s' = new s
  /\ exists evs, trace s' = evs ++ trace s /\ Forall P evs.

Lemma ext_refl P s : ext P s s.
Proof. repeat split. by exists []. Qed.

Lemma ext_trans P s1 s2 s3 : ext P s1 s2 -> ext P s2 s3 -> ext P s1 s3.
Proof.
  intros (?&?&?&?&?&e1&Ht1&F1) (?&?&?&?&?&e2&Ht2&F2).
  repeat split; try congruence.
  exists (e2 ++ e1). split; [|by apply Forall_app].
  by rewrite Ht2, Ht1, app_assoc.
Qed.

Lemma ext_mono (P P' : event -> Prop) s s' :
  (forall e, P e -> P' e) -> ext P s s' -> ext P' s s'.
Proof.
  intros HP (?&?&?&?&?&evs&?&HF). repeat split; try done.
  exists evs. split; [done|]. eapply Forall_impl; eauto.
Qed.

(** [m] only logs events in [P n], [n] the number of records held. *)
Definition frames {A : Type} (P : nat -> event -> Prop) (m : M W A) : Prop :=
  forall s, ext (P (length (companies s))) s (snd (m s)).

Lemma frames_ret {A} P (a : A) : frames P (ret a).
Proof. intros s. apply ext_refl. Qed.

Lemma frames_raise {A} P : frames P (@raise W A).
Proof. intros s. apply ext_refl. Qed.

Lemma frames_out_of_fuel {A} P : frames P (@out_of_fuel W A).
Proof. intros s. apply ext_refl. Qed.

Lemma frames_gets {A} P (f : state W -> A) : frames P (gets f).
Proof. intros s. apply ext_refl. Qed.

Lemma frames_lift_opt {A} P (o : option A) : frames P (lift_opt o).
Proof. destruct o; [apply frames_ret | apply frames_raise]. Qed.

Lemma frames_bind {A B} P (m : M W A) (k : A -> M W B) :
  frames P m -> (forall a, frames P (k a)) -> frames P (bind m k).
Proof.
  intros Hm Hk s. specialize (Hm s). unfold bind.
  destruct (m s) as [[a| |] s'] eqn:E; simpl in *; try done.
  eapply ext_trans; [exact Hm|].
  destruct Hm as (_&Hc&_). specialize (Hk a s'). by rewrite Hc in Hk.
Qed.

Lemma frames_try_except {A} P (m h : M W A) :
  frames P m -> frames P h -> frames P (try_except m h).
Proof.
  intros Hm Hh s. specialize (Hm s). unfold try_except.
  destruct (m s) as [[a| |] s'] eqn:E; simpl in *; try done.
  eapply ext_trans; [exact Hm|].
  destruct Hm as (_&Hc&_). specialize (Hh s'). by rewrite Hc in Hh.
Qed.

Lemma frames_log (P : nat -> event -> Prop) e :
  (forall n, P n e) -> frames P (log e).
Proof.
  intros HP s. repeat split. exists [e]. split; [done|]. by constructor.
Qed.

Lemma frames_mono {A} (P P' : nat -> event -> Prop) (m : M W A) :
  (forall n e, P n e -> P' n e) -> frames P m -> frames P' m.
Proof. intros HP Hm s. eapply ext_mono; [apply HP | apply Hm]. Qed.

(** A predicate on states that steps in [P] keep. *)
Definition stable (P : nat -> event -> Prop) (J : state W -> Prop) : Prop :=
  forall s s', J s -> ext (P (length (companies s))) s s' -> J s'.

Lemma wp_frames {A B} E F P (J : state W -> Prop) (m : M W A) (k : A -> M W B) Q s :
  frames P m -> stable P J -> J s ->
  (forall s', J s' -> E s') -> (forall s', J s' -> F s') ->
  (forall a s', J s' -> wpx E F (k a) Q s') ->
  wpx E F (bind m k) Q s.
Proof.
  intros Hm HJ Hs HE HF Hk. apply wp_bind. unfold wpx at 1.
  specialize (Hm s). pose proof (HJ _ _ Hs Hm) as H'.
  destruct (m s) as [[a| |] s']; simpl in *; eauto.
Qed.

Lemma wp_frames_end {A} E F P (J : state W -> Prop) (m : M W A) Q s :
  frames P m -> stable P J -> J s ->
  (forall s', J s' -> E s') -> (forall s', J s' -> F s') ->
  (forall a s', J s' -> Q a s') ->
  wpx E F m Q s.
Proof.
  intros Hm HJ Hs HE HF HQ. unfold wpx.
  specialize (Hm s). pose proof (HJ _ _ Hs Hm) as H'.
  destruct (m s) as [[a| |] s']; simpl in *; eauto.
Qed.

(** The values [m] can end with satisfy [R]. *)
Definition returns {A : Type} (R : A -> Prop) (m : M W A) : Prop :=
  forall s a s', m s = (Val a, s') -> R a.

Lemma returns_any {A} (m : M W A) : returns (fun _ => True) m.
Proof. done. Qed.

Lemma returns_ret {A} (R : A -> Prop) a : R a -> returns R (ret a).
Proof. intros Ha s a' s' [= <- _]. done. Qed.

Lemma returns_raise {A} (R : A -> Prop) : returns R (@raise W A).
Proof. intros s a s' [=]. Qed.

Lemma returns_bind {A B} (R : B -> Prop) (m : M W A) (k : A -> M W B) :
  (forall a, returns R (k a)) -> returns R (bind m k).
Proof.
  intros Hk s b s'. unfold bind. destruct (m s) as [[a| |] s1] eqn:E; try done.
  apply Hk.
Qed.

Lemma returns_try_except {A} (R : A -> Prop) (m h : M W A) :
  returns R m -> returns R h -> returns R (try_except m h).
Proof.
  intros Hm Hh s a s'. unfold try_except.
  destruct (m s) as [[a1| |] s1] eqn:E; try done.
  - intros [= <- <-]. eauto.
  - apply Hh.
Qed.

Lemma wp_frames_val {A B} E F P (J : state W -> Prop) (R : A -> Prop)
    (m : M W A) (k : A -> M W B) Q s :
  frames P m -> returns R m -> stable P J -> J s ->
  (forall s', J s' -> E s') -> (forall s', J s' -> F s') ->
  (forall a s', J s' -> R a -> wpx E F (k a) Q s') ->
  wpx E F (bind m k) Q s.
Proof.
  intros Hm HR HJ Hs HE HF Hk. apply wp_bind. unfold wpx at 1.
  specialize (Hm s). pose proof (HJ _ _ Hs Hm) as H'. specialize (HR s).
  destruct (m s) as [[a| |] s']; simpl in *; eauto.
Qed.

Lemma wp_emit {B} E F key c (k : unit -> M W B) Q s :
  wpx E F (k tt) Q (push_company c (push_event (EvEmit key) s)) ->
  wpx E F (bind (emit key c) k) Q s.
Proof. done. Qed.

(** [try: m finally: f] keeps [J] when [m] does and [f] only logs. *)
Lemma wp_finally_frames {A} P (J : state W -> Prop) (m : M W A) (f : M W unit) s :
  frames P f -> stable P J ->
  wpx J J m (fun _ => J) s ->
  wpx J J (try_finally m f) (fun _ => J) s.
Proof.
  intros Hf HJ Hm. apply wp_try_finally.
  eapply wp_mono; [exact Hm| | |done].
  - intros a s' Hs'. eapply (wp_frames_end _ _ P J); eauto.
  - intros s' Hs'. eapply (wp_frames_end _ _ P J); eauto.
Qed.

Lemma wp_finally_const {A B} P (I : state W -> Prop) (m : M W A) (f : M W unit)
    (k : A -> M W B) Q s :
  frames P f -> stable P I ->
  wpx I I m (fun _ => I) s ->
  (forall a s', I s' -> wpx I I (k a) Q s') ->
  wpx I I (bind (try_finally m f) k) Q s.
Proof.
  intros Hf HI Hm Hk. apply wp_bind.
  eapply wp_mono; [by apply (wp_finally_frames P)| |done|done].
  intros a s'. apply Hk.
Qed.

End Logic.

(** ** What the helpers log *)

(** Delays and sleeps. *)
Definition quiet (e : event) : Prop :=
  match e with
  | EvDelay _ _ | EvSleep _ => True
  | _ => False
  end.

(** Delays, sleeps, and requests of kind [k] issued while [n] records are
    held. *)
Definition req_of (k : req_kind) (n : nat) (e : event) : Prop :=
  match e with
  | EvRequest k' _ c => k' = k /\ c = n
  | EvDelay _ _ | EvSleep _ => True
  | _ => False
  end.

Lemma quiet_req_of k n e : quiet e -> req_of k n e.
Proof. by destruct e. Qed.

Section HelperFrames.
Context {W : Type} `{!World W} `{!Lib}.

Lemma frames_ask {A} P (q : query A) : frames (W:=W) P (ask q).
Proof.
  intros s. unfold ask. destruct (answer q (world s)) as [[a|] w];
    simpl; repeat split; by exists [].
Qed.

Lemma frames_human_delay a b : frames (W:=W) (fun _ => quiet) (human_delay a b).
Proof. by apply frames_log. Qed.

Lemma frames_sleep_uniform a b : frames (W:=W) (fun _ => quiet) (sleep_uniform a b).
Proof. by apply frames_log. Qed.

Lemma frames_poll_challenge fuel timeout elapsed :
  frames (W:=W) (fun _ => quiet) (poll_challenge fuel timeout elapsed).
Proof.
  revert elapsed. induction fuel as [|f IH]; intros elapsed; simpl;
    destruct (elapsed <? timeout); try apply frames_ret; try apply frames_out_of_fuel.
  apply frames_bind; [by apply frames_log|]. intros _.
  apply frames_bind; [apply frames_ask|]. intros c.
  destruct (negb (has_challenge c)); [apply frames_ret | apply IH].
Qed.

Lemma frames_wait_for_challenge timeout :
  frames (W:=W) (fun _ => quiet) (wait_for_challenge timeout).
Proof.
  apply frames_bind; [apply frames_ask|]. intros c.
  destruct (negb (has_challenge c)); [apply frames_ret | apply frames_poll_challenge].
Qed.

Lemma frames_issue {A} k url (q : query A) : frames (W:=W) (req_of k) (issue k url q).
Proof.
  intros s. unfold issue, bind, gets, log, modify, ask; simpl.
  destruct (answer q (world s)) as [[a|] w]; simpl;
    repeat split; exists [EvRequest k url (length (companies s))];
    (split; [done|]); by repeat constructor.
Qed.

Lemma frames_goto k url t : frames (W:=W) (req_of k) (goto k url t).
Proof. apply frames_issue. Qed.

Lemma frames_cffi_attempts k url method headers max attempts resp :
  frames (W:=W) (req_of k) (cffi_attempts k url method headers max attempts resp).
Proof.
  revert resp. induction attempts as [|a r IH]; intros resp; simpl.
  - apply frames_lift_opt.
  - apply frames_bind; [apply frames_issue|]. intros rp.
    destruct (_ && _); [|apply frames_ret].
    apply frames_bind; [by apply frames_log|]. intros _. apply IH.
Qed.

Lemma frames_cffi_fetch k url method max headers :
  frames (W:=W) (req_of k) (_cffi_fetch k url method max headers).
Proof. apply frames_cffi_attempts. Qed.

End HelperFrames.

(** ** Facts about the string primitives *)

Lemma upper_char_idem c : Py.upper_char (Py.upper_char c) = Py.upper_char c.
Proof. by destruct c as [[] [] [] [] [] [] [] []]. Qed.

Lemma upper_idem s : Py.upper (Py.upper s) = Py.upper s.
Proof.
  induction s as [|c r IH]; [done|]. unfold Py.upper in *; simpl.
  by rewrite upper_char_idem, IH.
Qed.

Lemma nonempty_upper s : Py.nonempty (Py.upper s) = Py.nonempty s.
Proof. by destruct s. Qed.

Lemma nonempty_true s : Py.nonempty s = true <-> s <> "".
Proof. destruct s; simpl; split; congruence. Qed.

Lemma sfilter_all p s c : In c (list_ascii_of_string (Py.sfilter p s)) -> p c = true.
Proof.
  induction s as [|a r IH]; simpl; [done|].
  destruct (p a) eqn:E; simpl; [|done]. intros [<-|]; auto.
Qed.

(** ** Records and requests under the limit *)

(** The record has a legal name: a non-empty string that is its own
    upper-casing. *)
Definition good (c : dict) : Prop :=
  exists s, c !! "legal_name" = Some (Py.PStr s) /\ s <> "" /\ Py.upper s = s.

Lemma good_new name (m : dict) :
  Py.nonempty name = true -> good (<["legal_name" := Py.PStr (Py.upper name)]> m).
Proof.
  intros Hn. exists (Py.upper name). split; [by rewrite lookup_insert_eq|].
  split; [|apply upper_idem].
  apply nonempty_true. by rewrite nonempty_upper.
Qed.

Lemma good_insert k v (c : dict) : k <> "legal_name" -> good c -> good (<[k := v]> c).
Proof. intros Hk (s&?&?&?). exists s. by rewrite lookup_insert_ne. Qed.

Lemma good_set_phone ph c : good c -> good (set_phone ph c).
Proof. unfold set_phone. intros. case_match; [by apply good_insert|done]. Qed.

Lemma good_set_website `{!Lib} href c : good c -> good (set_website href c).
Proof. intros. unfold set_website. by repeat (apply good_insert; [done|]). Qed.

Create HintDb good.
#[local] Hint Resolve good_new good_insert good_set_phone good_set_website : good.

(** A request is in order when the limit was not reached as it was
    issued, or when nothing was collected yet (the requests that open a
    run come before the first test of the limit). *)
Definition ev_ok (limit : option Z) (e : event) : Prop :=
  match e with
  | EvRequest _ _ c => limit_reached limit (Z.of_nat c) = false \/ c = O
  | _ => True
  end.

Section Inv.
Context {W : Type} `{!World W} `{!Lib}.
Variable limit : option Z.

(** Every request so far was in order, the limit was not reached before the
    last record was appended, and every record is good. *)
Definition inv (s : state W) : Prop :=
  Forall (ev_ok limit) (trace s)
  /\ (forall n, length (companies s) = S n -> limit_reached limit (Z.of_nat n) = false)
  /\ Forall good (companies s).

(** ... and the limit is not reached now. *)
Definition open_inv (s : state W) : Prop :=
  inv s /\ limit_reached limit (Z.of_nat (length (companies s))) = false.

Lemma open_inv_inv s : open_inv s -> inv s.
Proof. by intros []. Qed.

Lemma stable_inv : stable (fun _ => quiet) inv.
Proof.
  intros s s' (Ht&Hn&Hg) (_&Hc&_&_&_&evs&Hevs&HF).
  unfold inv. rewrite Hc, Hevs. repeat split; try done.
  apply Forall_app. split; [|done].
  eapply Forall_impl; [exact HF|]. by intros [].
Qed.

Lemma stable_open_inv k : stable (req_of k) open_inv.
Proof.
  intros s s' [(Ht&Hn&Hg) Hl] (_&Hc&_&_&_&evs&Hevs&HF).
  unfold open_inv, inv. rewrite Hc, Hevs. repeat split; try done.
  apply Forall_app. split; [|done].
  eapply Forall_impl; [exact HF|]. intros [] He; try done.
  simpl in *. destruct He as [_ ->]. by left.
Qed.

Lemma stable_open_inv_quiet : stable (fun _ => quiet) open_inv.
Proof.
  intros s s' Hs Hext. eapply (stable_open_inv OtherReq); [done|].
  eapply ext_mono; [|done]. apply quiet_req_of.
Qed.

(** ... and nothing is collected yet. *)
Definition start_inv (s : state W) : Prop :=
  inv s /\ companies s = [].

Lemma start_inv_inv s : start_inv s -> inv s.
Proof. by intros []. Qed.

Lemma stable_start_inv k : stable (req_of k) start_inv.
Proof.
  intros s s' [(Ht&Hn&Hg) Hl] (_&Hc&_&_&_&evs&Hevs&HF).
  unfold start_inv, inv. rewrite Hc, Hevs. repeat split; try done.
  apply Forall_app. split; [|done].
  eapply Forall_impl; [exact HF|]. intros [] He; try done.
  simpl in *. destruct He as [_ ->]. right. by rewrite Hl.
Qed.

Lemma stable_start_inv_quiet : stable (fun _ => quiet) start_inv.
Proof.
  intros s s' Hs Hext. eapply (stable_start_inv OtherReq); [done|].
  eapply ext_mono; [|done]. apply quiet_req_of.
Qed.

Lemma inv_initial w g : start_inv (initial w g).
Proof. repeat split; [constructor|done|constructor]. Qed.

Lemma inv_emit key c s :
  open_inv s -> good c -> inv (push_company c (push_event (EvEmit key) s)).
Proof.
  intros [(Ht&Hn&Hg) Hl] Hc. repeat split; simpl.
  - by constructor.
  - rewrite length_app; simpl. intros n Hlen.
    by replace n with (length (companies s)) by lia.
  - apply Forall_app. split; [done|]. by constructor.
Qed.

Lemma open_inv_items sc p n s : open_inv s -> open_inv (push_event (EvItems sc p n) s).
Proof. intros [(Ht&Hn&Hg) Hl]. repeat split; try done. by constructor. Qed.

Lemma inv_items sc p n s : inv s -> inv (push_event (EvItems sc p n) s).
Proof. intros (Ht&Hn&Hg). repeat split; try done. by constructor. Qed.

Lemma open_inv_set_seen sn s : open_inv s -> open_inv (set_seen sn s).
Proof. done. Qed.

Lemma inv_set_new n s : inv s -> inv (set_new n s).
Proof. done. Qed.

Lemma open_inv_set_new n s : open_inv s -> open_inv (set_new n s).
Proof. done. Qed.

Lemma inv_set_total n s : inv s -> inv (set_total n s).
Proof. done. Qed.

End Inv.

(** ** Proof steps *)

Create HintDb frames.

Ltac frames_leaf :=
  first
    [ apply frames_ret | apply frames_raise | apply frames_ask | apply frames_gets
    | apply frames_lift_opt
    | apply frames_goto | apply frames_issue | apply frames_cffi_fetch
    | apply frames_human_delay | apply frames_sleep_uniform
    | apply frames_wait_for_challenge
    | eapply frames_mono;
      [ intros ? ?; apply quiet_req_of
      | first [ apply frames_human_delay | apply frames_sleep_uniform
              | apply frames_wait_for_challenge ] ]
    | match goal with IH : _ |- _ => apply IH end
    | solve [ eauto with frames ] ].

Ltac solve_frames :=
  lazymatch goal with
  | |- frames _ (bind _ _) => apply frames_bind; [solve_frames | intros; solve_frames]
  | |- frames _ (try_except _ _) => apply frames_try_except; solve_frames
  | |- frames _ (if ?b then _ else _) => destruct b; solve_frames
  | |- frames _ (match ?x with _ => _ end) => destruct x; solve_frames
  | |- frames _ _ => frames_leaf
  end.

Ltac solve_returns tac :=
  lazymatch goal with
  | |- returns (fun _ => True) _ => apply returns_any
  | |- returns _ (bind _ _) => apply returns_bind; intros; solve_returns tac
  | |- returns _ (try_except _ _) => apply returns_try_except; solve_returns tac
  | |- returns _ (if ?b then _ else _) => destruct b eqn:?; solve_returns tac
  | |- returns _ (match ?x with _ => _ end) => destruct x eqn:?; solve_returns tac
  | |- returns _ (ret _) => apply returns_ret; tac
  | |- returns _ raise => apply returns_raise
  | |- returns _ (lift_opt ?o) => destruct o; solve_returns tac
  | |- returns _ _ => tac
  end.

(** A statement that branches before it loops: the branches are taken one
    by one. *)
Ltac wp_branch :=
  lazymatch goal with
  | |- wpx _ _ (bind (if ?b then _ else _) _) _ _ => destruct b eqn:?
  | |- wpx _ _ (bind (match ?x with _ => _ end) _) _ _ => destruct x eqn:?
  end.

(** Straight-line steps that need no invariant. *)
Ltac wp_pure :=
  lazymatch goal with
  | |- wpx _ _ (bind (gets _) _) _ _ => apply wp_gets; cbv beta
  | |- wpx _ _ (bind (at_limit _) _) _ _ => apply wp_gets; cbv beta
  | |- wpx _ _ (bind (modify _) _) _ _ => apply wp_modify; cbv beta
  | |- wpx _ _ (bind (log _) _) _ _ => apply wp_modify; cbv beta
  | |- wpx _ _ (bind (emit _ _) _) _ _ => apply wp_emit; cbv beta
  | |- wpx _ _ (bind (ret _) _) _ _ => apply wp_bind, wp_ret; cbv beta
  | |- wpx _ _ (bind (bind _ _) _) _ _ => apply wp_bind
  | |- wpx _ _ (ret _) _ _ => apply wp_ret; cbv beta
  | |- wpx _ _ raise _ _ => apply wp_raise
  | |- wpx _ _ (if ?b then _ else _) _ _ => destruct b eqn:?
  | |- wpx _ _ (match ?x with _ => _ end) _ _ => destruct x eqn:?
  end.

Lemma good_set_field k o c : k <> "legal_name" -> good c -> good (set_field k o c).
Proof. intros. destruct o; simpl; [by apply good_insert|done]. Qed.

Lemma good_set_value k o c : k <> "legal_name" -> good c -> good (set_value k o c).
Proof. intros. destruct o; simpl; [by apply good_insert|done]. Qed.

#[local] Hint Resolve good_set_field good_set_value : good.
#[local] Hint Extern 1 (_ <> _) => discriminate : good.

Lemma good_ep_company name slug region :
  Py.nonempty name = true -> good (ep_company name slug region).
Proof. apply good_new. Qed.

Lemma good_region_company portal name region :
  Py.nonempty name = true -> good (region_company portal name region).
Proof. apply good_new. Qed.

Lemma negb_nonempty s : negb (Py.nonempty s) = false -> Py.nonempty s = true.
Proof. by destruct (Py.nonempty s). Qed.

#[local] Hint Resolve good_ep_company good_region_company negb_nonempty : good.

Ltac good_tac :=
  repeat match goal with
    | H : forall n, Some ?x = Some n -> _ |- _ => specialize (H x eq_refl)
    end;
  repeat match goal with
    | |- good (match ?x with _ => _ end) => destruct x
    end;
  eauto 8 with good.

(** One framed step of a proof that keeps [inv]: the statement at the head
    only logs, so [open_inv] (or [inv], when the limit was not tested)
    carries over; [R] is what is known of its value. *)
Tactic Notation "inv_frame" uconstr(R) tactic3(tac) :=
  lazymatch goal with
  | Ho : open_inv ?limit ?s |- wpx _ _ (bind _ _) _ ?s =>
      first
        [ eapply (wp_frames_val _ _ (fun _ => quiet) (open_inv limit) R);
          [ solve_frames | solve_returns tac | apply stable_open_inv_quiet | exact Ho
          | apply open_inv_inv | apply open_inv_inv | ]
        | eapply (wp_frames_val _ _ (req_of _) (open_inv limit) R);
          [ solve_frames | solve_returns tac | apply stable_open_inv | exact Ho
          | apply open_inv_inv | apply open_inv_inv | ] ];
      clear Ho; cbv beta; intros ? ? ? ?
  | Hi : inv ?limit ?s |- wpx _ _ (bind _ _) _ ?s =>
      eapply (wp_frames_val _ _ (fun _ => quiet) (inv limit) R);
        [ solve_frames | solve_returns tac | apply stable_inv | exact Hi
        | done | done | ];
      clear Hi; cbv beta; intros ? ? ? ?
  | Hs : start_inv ?limit ?s |- wpx _ _ (bind _ _) _ ?s =>
      first
        [ eapply (wp_frames_val _ _ (fun _ => quiet) (start_inv limit) R);
          [ solve_frames | solve_returns tac | apply stable_start_inv_quiet | exact Hs
          | apply start_inv_inv | apply start_inv_inv | ]
        | eapply (wp_frames_val _ _ (req_of _) (start_inv limit) R);
          [ solve_frames | solve_returns tac | apply stable_start_inv | exact Hs
          | apply start_inv_inv | apply start_inv_inv | ] ];
      clear Hs; cbv beta; intros ? ? ? ?
  end.

Ltac inv_open :=
  match goal with
  | Hi : inv ?limit ?s,
    Hb : limit_reached ?limit (Z.of_nat (length (companies ?s))) = false |- _ =>
      assert (open_inv limit s) by (split; assumption); clear Hi
  end.

Ltac inv_close :=
  repeat first
    [ assumption
    | apply open_inv_inv; assumption
    | apply start_inv_inv; assumption
    | apply inv_set_new | apply inv_set_total
    | apply inv_items
    | apply inv_emit; [assumption | solve [good_tac]]
    | apply open_inv_items | apply open_inv_set_seen | apply open_inv_set_new ].

(** Both tests of a failed [or] failed. *)
Ltac split_orb :=
  repeat match goal with
    | H : _ || _ = false |- _ => apply orb_false_iff in H; destruct H
    end.

(** The invariant follows the state through an assignment. *)
Ltac inv_move :=
  match goal with
  | Ho : open_inv ?l ?s |- wpx _ _ _ _ ?s2 =>
      lazymatch s2 with s => fail | _ => idtac end;
      first [ assert (open_inv l s2) by (solve [inv_close])
            | assert (inv l s2) by (solve [inv_close]) ];
      clear Ho
  | Hi : inv ?l ?s |- wpx _ _ _ _ ?s2 =>
      lazymatch s2 with s => fail | _ => idtac end;
      assert (inv l s2) by (solve [inv_close]);
      clear Hi
  end.

Ltac inv_step :=
  lazymatch goal with
  | |- wpx _ _ _ _ _ =>
      first
        [ wp_pure; split_orb; try inv_open; try inv_move
        | lazymatch goal with
          | |- wpx _ _ (bind ?m _) _ _ =>
              lazymatch type of m with
              | M _ dict => inv_frame good good_tac
              | _ => inv_frame (fun _ => True) idtac
              end
          end
        | wp_branch; split_orb; try inv_open; try inv_move ]
  | |- _ => solve [inv_close]
  end.


Section EuropagesInv.
Context {W : Type} `{!World W} `{!Lib}.
Variable limit : option Z.

Lemma frames_ep_name sels : frames (W:=W) (fun _ => quiet) (ep_name sels).
Proof. induction sels as [|sel r IH]; simpl; solve_frames. Qed.

Lemma returns_ep_name sels :
  returns (W:=W) (fun o => forall n, o = Some n -> Py.nonempty n = true) (ep_name sels).
Proof.
  induction sels as [|sel r IH]; simpl.
  - by apply returns_ret.
  - solve_returns ltac:(first [apply IH | by intros ? [= <-]]).
Qed.
#[local] Hint Resolve frames_ep_name : frames.

Lemma ep_slug_inv region slug s :
  inv limit s ->
  wpx (inv limit) (inv limit) (ep_slug region limit slug) (fun _ => inv limit) s.
Proof.
  intros Hs. unfold ep_slug.
  repeat first
    [ lazymatch goal with
      | |- wpx _ _ (bind (ep_name _) _) _ _ =>
          inv_frame (fun o : option string => forall n, o = Some n -> Py.nonempty n = true)
            (apply returns_ep_name)
      end
    | inv_step ].
Qed.

Lemma ep_page_inv region location term scope page_num s :
  inv limit s ->
  wpx (inv limit) (inv limit) (ep_page region location term limit scope page_num)
    (fun _ => inv limit) s.
Proof.
  intros Hs. unfold ep_page.
  repeat inv_step.
  apply (wp_for_each_const (inv limit)); [inv_close | intros; by apply ep_slug_inv |].
  intros s1 Hs1. repeat inv_step.
Qed.

Lemma ep_term_inv fuel region location scope term s :
  inv limit s ->
  wpx (inv limit) (inv limit) (ep_term fuel region location limit scope term)
    (fun _ => inv limit) s.
Proof.
  intros Hs. unfold ep_term. repeat inv_step.
  apply (wp_while_const (inv limit)); [inv_close | intros; by apply ep_page_inv |].
  intros s1 Hs1. repeat inv_step.
Qed.

Lemma scrape_europages_inv fuel region city o s :
  start_inv limit s ->
  wpx (inv limit) (inv limit) (scrape_europages fuel region city limit o)
    (fun cs s' => inv limit s' /\ cs = companies s') s.
Proof.
  intros Hs. unfold scrape_europages, launch_browser. repeat inv_step.
  apply (wp_finally_const (fun _ => quiet) (inv limit));
    [solve_frames | apply stable_inv | |].
  - apply wp_for_enum_end; [inv_close|]. intros. by apply ep_term_inv.
  - intros _ s1 Hs1. by apply wp_gets, wp_ret.
Qed.

End EuropagesInv.

Section PaginasamarillasInv.
Context {W : Type} `{!World W} `{!Lib}.
Variable limit : option Z.

Lemma pa_listing_inv region li s :
  inv limit s ->
  wpx (inv limit) (inv limit) (pa_listing region limit li) (fun _ => inv limit) s.
Proof. intros Hs. unfold pa_listing. repeat inv_step. Qed.

Lemma pa_page_inv region province cat scope pnum s :
  inv limit s ->
  wpx (inv limit) (inv limit) (pa_page region province cat limit scope pnum)
    (fun _ => inv limit) s.
Proof.
  intros Hs. unfold pa_page. repeat inv_step.
  apply (wp_for_each_const (inv limit)); [inv_close | intros; by apply pa_listing_inv |].
  intros s1 Hs1. repeat inv_step.
Qed.

Lemma pa_category_inv fuel region province scope cat s :
  inv limit s ->
  wpx (inv limit) (inv limit) (pa_category fuel region province limit scope cat)
    (fun _ => inv limit) s.
Proof.
  intros Hs. unfold pa_category. repeat inv_step.
  apply (wp_while_const (inv limit)); [inv_close | intros; by apply pa_page_inv |].
  intros s1 Hs1. repeat inv_step.
Qed.

Lemma scrape_paginasamarillas_inv fuel region city o s :
  start_inv limit s ->
  wpx (inv limit) (inv limit) (scrape_paginasamarillas fuel region city limit o)
    (fun cs s' => inv limit s' /\ cs = companies s') s.
Proof.
  intros Hs. unfold scrape_paginasamarillas, launch_browser. repeat inv_step.
  apply (wp_finally_const (fun _ => quiet) (inv limit));
    [solve_frames | apply stable_inv | |].
  - repeat inv_step.
    apply wp_for_enum_end; [inv_close|]. intros. by apply pa_category_inv.
  - intros _ s1 Hs1. by apply wp_gets, wp_ret.
Qed.
End PaginasamarillasInv.

Section EinformaInv.
Context {W : Type} `{!World W} `{!Lib}.
Variable limit : option Z.

Lemma ei_row_inv region row s :
  inv limit s ->
  wpx (inv limit) (inv limit) (ei_row region limit row) (fun _ => inv limit) s.
Proof. intros Hs. unfold ei_row. repeat inv_step. Qed.

Lemma ei_link_inv region link (s : state W) :
  inv limit s ->
  wpx (inv limit) (inv limit) (ei_link region limit link) (fun _ => inv limit) s.
Proof. intros Hs. unfold ei_link. repeat inv_step. Qed.

Lemma ei_page_inv region province pnum s :
  inv limit s ->
  wpx (inv limit) (inv limit) (ei_page region province limit pnum)
    (fun _ => inv limit) s.
Proof.
  intros Hs. unfold ei_page. repeat inv_step.
  - apply (wp_for_each_const (inv limit)); [inv_close | intros; by apply ei_link_inv |].
    intros s1 Hs1. repeat inv_step.
  - apply (wp_for_each_const (inv limit)); [inv_close | intros; by apply ei_row_inv |].
    intros s1 Hs1. repeat inv_step.
Qed.

Lemma scrape_einforma_inv fuel region city o s :
  start_inv limit s ->
  wpx (inv limit) (inv limit) (scrape_einforma fuel region city limit o)
    (fun cs s' => inv limit s' /\ cs = companies s') s.
Proof.
  intros Hs. unfold scrape_einforma, launch_browser. repeat inv_step.
  apply (wp_finally_const (fun _ => quiet) (inv limit));
    [solve_frames | apply stable_inv | |].
  - repeat inv_step.
    apply wp_while_end; [inv_close|]. intros. by apply ei_page_inv.
  - intros _ s1 Hs1. by apply wp_gets, wp_ret.
Qed.
End EinformaInv.

Section EmpresiaInv.
Context {W : Type} `{!World W} `{!Lib}.
Variable limit : option Z.

Lemma frames_em_texts l : frames (W:=W) (fun _ => quiet) (em_texts l).
Proof. induction l as [|x r IH]; simpl; solve_frames. Qed.

Lemma frames_em_website l c : frames (W:=W) (fun _ => quiet) (em_website l c).
Proof. induction l as [|x r IH]; simpl; solve_frames. Qed.

Lemma returns_em_website l c : good c -> returns (W:=W) good (em_website l c).
Proof.
  intros Hc. induction l as [|x r IH]; simpl.
  - by apply returns_ret.
  - solve_returns ltac:(first [apply IH | good_tac]).
Qed.

Lemma good_em_fields body c : good c -> good (em_fields body c).
Proof.
  intros. unfold em_fields. cbv zeta.
  by repeat (apply good_set_field; [done|]).
Qed.

#[local] Hint Resolve frames_em_texts frames_em_website : frames.
#[local] Hint Resolve good_em_fields : good.

Lemma em_text_inv region text (s : state W) :
  inv limit s ->
  wpx (inv limit) (inv limit) (em_text region limit text) (fun _ => inv limit) s.
Proof.
  intros Hs. unfold em_text.
  repeat first
    [ lazymatch goal with
      | |- wpx _ _ (bind (em_website _ _) _) _ _ =>
          inv_frame good (apply returns_em_website; good_tac)
      end
    | inv_step ].
Qed.

Lemma em_term_inv region location scope term (s : state W) :
  inv limit s ->
  wpx (inv limit) (inv limit) (em_term region location limit scope term)
    (fun _ => inv limit) s.
Proof.
  intros Hs. unfold em_term. repeat inv_step.
  apply (wp_for_each_const (inv limit)); [inv_close | intros; by apply em_text_inv |].
  intros s1 Hs1. repeat inv_step.
Qed.

Lemma scrape_empresia_inv region city o (s : state W) :
  start_inv limit s ->
  wpx (inv limit) (inv limit) (scrape_empresia region city limit o)
    (fun cs s' => inv limit s' /\ cs = companies s') s.
Proof.
  intros Hs. unfold scrape_empresia, launch_browser. repeat inv_step.
  apply (wp_finally_const (fun _ => quiet) (inv limit));
    [solve_frames | apply stable_inv | |].
  - repeat inv_step.
    apply wp_for_enum_end; [inv_close|]. intros. by apply em_term_inv.
  - intros _ s1 Hs1. by apply wp_gets, wp_ret.
Qed.
End EmpresiaInv.

Section LibreborInv.
Context {W : Type} `{!World W} `{!Lib}.
Variable limit : option Z.

Lemma good_lb_item_fields item c : good c -> good (lb_item_fields item c).
Proof.
  intros. unfold lb_item_fields. cbv zeta.
  apply good_set_field; [done|]. by repeat (apply good_set_value; [done|]).
Qed.
#[local] Hint Resolve good_lb_item_fields : good.

Lemma lb_link_inv region link (s : state W) :
  inv limit s ->
  wpx (inv limit) (inv limit) (lb_link region limit link) (fun _ => inv limit) s.
Proof. intros Hs. unfold lb_link. repeat inv_step. Qed.

Lemma lb_item_inv region item (s : state W) :
  inv limit s ->
  wpx (inv limit) (inv limit) (lb_item region limit item) (fun _ => inv limit) s.
Proof. intros Hs. unfold lb_item. repeat inv_step. Qed.

Lemma lb_page_inv region province pnum (s : state W) :
  inv limit s ->
  wpx (inv limit) (inv limit) (lb_page region province limit pnum)
    (fun _ => inv limit) s.
Proof.
  intros Hs. unfold lb_page. repeat inv_step.
  - apply (wp_for_each_const (inv limit)); [inv_close | intros; by apply lb_item_inv |].
    intros s1 Hs1. repeat inv_step.
  - apply (wp_for_each_const (inv limit)); [inv_close | intros; by apply lb_link_inv |].
    intros s1 Hs1. repeat inv_step.
Qed.

Lemma scrape_librebor_inv fuel region city o (s : state W) :
  start_inv limit s ->
  wpx (inv limit) (inv limit) (scrape_librebor fuel region city limit o)
    (fun cs s' => inv limit s' /\ cs = companies s') s.
Proof.
  intros Hs. unfold scrape_librebor, launch_browser. repeat inv_step.
  apply (wp_finally_const (fun _ => quiet) (inv limit));
    [solve_frames | apply stable_inv | |].
  - repeat inv_step.
    apply wp_while_end; [inv_close|]. intros. by apply lb_page_inv.
  - intros _ s1 Hs1. by apply wp_gets, wp_ret.
Qed.
End LibreborInv.

Section EmpresiteInv.
Context {W : Type} `{!World W} `{!Lib}.
Variable limit : option Z.

(** The counter [total] is the number of records held. *)
Definition tot (s : state W) : Prop := total s = Z.of_nat (length (companies s)).

Definition inv_t (s : state W) : Prop := inv limit s /\ tot s.
Definition open_t (s : state W) : Prop := open_inv limit s /\ tot s.
Definition start_t (s : state W) : Prop := start_inv limit s /\ tot s.

Lemma stable_tot P : stable P tot.
Proof. intros s s' Hs (_&Hc&_&Ht&_). unfold tot. by rewrite Ht, Hc. Qed.

Lemma stable_and P (J1 J2 : state W -> Prop) :
  stable P J1 -> stable P J2 -> stable P (fun s => J1 s /\ J2 s).
Proof. intros H1 H2 s s' [] ?. split; [by eapply H1 | by eapply H2]. Qed.

Lemma stable_inv_t : stable (fun _ => quiet) inv_t.
Proof. apply stable_and; [apply stable_inv | apply stable_tot]. Qed.

Lemma stable_open_t k : stable (req_of k) open_t.
Proof. apply stable_and; [apply stable_open_inv | apply stable_tot]. Qed.

Lemma stable_start_t k : stable (req_of k) start_t.
Proof. apply stable_and; [apply stable_start_inv | apply stable_tot]. Qed.

Lemma good_es_detail_web dtext c : good c -> good (es_detail_web dtext c).
Proof. intros. unfold es_detail_web. good_tac. Qed.

Lemma good_es_detail dtext c : good c -> good (es_detail dtext c).
Proof.
  intros Hc. unfold es_detail. cbv zeta.
  assert (forall c, good c -> good (es_detail_web dtext c)) as Hw
    by (intros; by apply good_es_detail_web).
  repeat case_match; try apply Hw; good_tac.
Qed.

Lemma good_es_company legal_name city_slug region detail_url addr_el desc_el :
  Py.nonempty legal_name = true ->
  good (es_company legal_name city_slug region detail_url addr_el desc_el).
Proof. apply good_new. Qed.

#[local] Hint Resolve good_es_detail good_es_company : good.

Lemma stable_quiet_of (J : state W -> Prop) :
  (forall k, stable (req_of k) J) -> stable (fun _ => quiet) J.
Proof.
  intros HJ s s' Hs Hext. eapply (HJ OtherReq); [done|].
  eapply ext_mono; [|done]. apply quiet_req_of.
Qed.

Tactic Notation "es_frame" uconstr(R) tactic3(tac) :=
  lazymatch goal with
  | Ho : open_t ?s |- wpx _ _ (bind _ _) _ ?s =>
      first
        [ eapply (wp_frames_val _ _ (fun _ => quiet) open_t R);
          [ solve_frames | solve_returns tac
          | apply stable_quiet_of, stable_open_t | exact Ho
          | by intros ? [[] ] | by intros ? [[] ] | ]
        | eapply (wp_frames_val _ _ (req_of _) open_t R);
          [ solve_frames | solve_returns tac | apply stable_open_t | exact Ho
          | by intros ? [[] ] | by intros ? [[] ] | ] ];
      clear Ho; cbv beta; intros ? ? ? ?
  end.

Lemma es_card_inv region city_slug o card (s : state W) :
  inv_t s ->
  wpx inv_t inv_t (es_card region city_slug limit o card)
    (fun _ => inv_t) s.
Proof.
  intros [Hs Ht]. unfold es_card.
  wp_pure. rewrite Ht. wp_pure; [by wp_pure|].
  assert (Ho : open_t s) by done. clear Hs Ht.
  wp_pure; [|by wp_pure; destruct Ho as [[] ]].
  wp_pure; [by wp_pure; destruct Ho as [[] ]|].
  es_frame (fun _ => True) idtac.
  es_frame good good_tac.
  apply wp_emit, wp_gets, wp_modify, wp_ret.
  destruct H0 as [Ho Ht]. split.
  - apply inv_set_total, inv_emit; [done|done].
  - unfold tot in *; simpl. rewrite Ht, length_app; simpl. lia.
Qed.

Lemma es_page_inv region city_slug o scope page (s : state W) :
  inv_t s ->
  wpx inv_t inv_t (es_page region city_slug limit o scope page)
    (fun _ => inv_t) s.
Proof.
  intros [Hs Ht]. unfold es_page.
  wp_pure. rewrite Ht. wp_pure; [by wp_pure|].
  assert (Ho : open_t s) by done. clear Hs Ht.
  wp_pure.
  es_frame (fun _ => True) idtac.
  es_frame (fun _ => True) idtac.
  wp_pure; [|wp_pure; by destruct H0 as [[] ]].
  wp_pure.
  assert (Hi : inv_t (push_event
       (EvItems scope page (length (soup_select (text r) "div.cardCompanyBox"))) s'0)).
  { destruct H0 as [[] ]. split; [by apply inv_items|done]. }
  clear H0. wp_pure; [by wp_pure|].
  apply (wp_for_each_const inv_t); [done | intros; by apply es_card_inv |].
  intros s1 Hs1. repeat wp_pure; done.
Qed.

Lemma es_city_inv fuel region o scope c (s : state W) :
  inv_t s ->
  wpx inv_t inv_t (es_city fuel region limit o scope c) (fun _ => inv_t) s.
Proof.
  intros Hs. unfold es_city. wp_pure. wp_pure; [by wp_pure|].
  apply (wp_while_const inv_t); [done | intros; by apply es_page_inv |].
  intros s1 Hs1. by wp_pure.
Qed.

Lemma scrape_empresite_inv fuel region city o (s : state W) :
  start_t s ->
  wpx (inv limit) (inv limit) (scrape_empresite fuel region city limit o)
    (fun cs s' => inv limit s' /\ cs = companies s') s.
Proof.
  intros Hs. unfold scrape_empresite.
  eapply (wp_mono inv_t inv_t); [| |by intros ? []|by intros ? []].
  2: { intros a s' Ha. exact Ha. }
  assert (Hi : inv_t s) by (destruct Hs as [[] ]; by split).
  destruct (city_given city) as [c|].
  - wp_pure. apply (wp_for_enum_const inv_t); [done | intros; by apply es_city_inv |].
    intros s1 [Hs1 _]. by apply wp_gets, wp_ret.
  - apply wp_bind.
    eapply (wp_frames_val _ _ (req_of _) start_t (fun _ => True));
      [ solve_frames | solve_returns idtac | apply stable_start_t | exact Hs
      | by intros ? [[] ] | by intros ? [[] ] | ].
    intros r s1 Hs1 _. clear Hi.
    assert (Hi : inv_t s1) by (destruct Hs1 as [[] ]; by split).
    destruct (negb _).
    + apply wp_ret. apply wp_gets, wp_ret. by destruct Hi.
    + apply wp_bind. destruct (es_cities _) as [cs|]; simpl; [|exact Hi].
      do 2 apply wp_ret.
      apply (wp_for_enum_const inv_t); [done | intros; by apply es_city_inv |].
      intros s2 [Hs2 _]. by apply wp_gets, wp_ret.
Qed.
End EmpresiteInv.

(** ** The run started by [main] *)

Section RunInv.
Context {W : Type} `{!World W} `{!Lib}.

Lemma start_t_initial limit (w : W) g : start_t limit (initial w g).
Proof. split; [apply inv_initial | done]. Qed.

(** Whatever the portal, the world and the fuel, the state a run ends in
    satisfies [inv], and the records returned are the ones collected. *)
Lemma run_inv fuel a (w : W) :
  match run fuel a w with
  | (Val cs, s') => inv (a_limit a) s' /\ cs = companies s'
  | (_, s') => inv (a_limit a) s'
  end.
Proof.
  unfold run.
  set (g := {| MIN_DELAY := a_delay_min a; MAX_DELAY := a_delay_max a |}).
  pose proof (inv_initial (a_limit a) w g) as Hs.
  pose proof (start_t_initial (a_limit a) w g) as Ht.
  set (o := {| headless := _ |}).
  destruct (a_portal a); simpl.
  - by apply scrape_empresite_inv.
  - by apply scrape_europages_inv.
  - by apply scrape_paginasamarillas_inv.
  - by apply scrape_einforma_inv.
  - by apply scrape_empresia_inv.
  - by apply scrape_librebor_inv.
Qed.

Lemma remove_empty_lookup (c : dict) k v :
  remove_empty c !! k = Some v <-> c !! k = Some v /\ Py.truthy v = true.
Proof.
  unfold remove_empty. rewrite map_lookup_filter_Some. simpl.
  by rewrite Is_true_true.
Qed.

Lemma good_remove_empty c : good c -> good (remove_empty c).
Proof.
  intros (s&Hl&Hne&Hu). exists s. split; [|done].
  apply remove_empty_lookup. split; [done|]. simpl. by apply nonempty_true.
Qed.

End RunInv.

(** ** Scripted worlds, to run the routines *)

(** A world that answers from a script: the successive results of
    [page.content()] and of [curl_requests.request] are read off two lists
    (an empty page, a 200 with an empty body, once a list is used up);
    navigation to the addresses in [sim_down] fails; every selector query
    and every text or attribute read has one fixed answer. *)
Record sim : Type := Sim {
  sim_contents : list string;
  sim_responses : list response;
  sim_down : list string;
  sim_elems : list elem;
  sim_found : option elem;
  sim_text : string;
  sim_attr : option string;
  sim_url : string
}.

Definition sim_next_content (w : sim) : string * sim :=
  match sim_contents w with
  | [] => ("", w)
  | c :: r =>
      (c, Sim r (sim_responses w) (sim_down w) (sim_elems w) (sim_found w)
            (sim_text w) (sim_attr w) (sim_url w))
  end.

Definition sim_next_response (w : sim) : response * sim :=
  match sim_responses w with
  | [] => (Response 200 "", w)
  | c :: r =>
      (c, Sim (sim_contents w) r (sim_down w) (sim_elems w) (sim_found w)
            (sim_text w) (sim_attr w) (sim_url w))
  end.

#[local] Instance sim_world : World sim := fun A q =>
  match q in query T return sim -> option T * sim with
  | Launch _ _ => fun w => (Some tt, w)
  | Close => fun w => (Some tt, w)
  | Goto url _ => fun w =>
      (if existsb (String.eqb url) (sim_down w) then None else Some tt, w)
  | Content => fun w => let '(c, w') := sim_next_content w in (Some c, w')
  | PageUrl => fun w => (Some (sim_url w), w)
  | PageInnerText _ => fun w => (Some (sim_text w), w)
  | WaitForTimeout _ => fun w => (Some tt, w)
  | QuerySelector _ _ => fun w => (Some (sim_found w), w)
  | QuerySelectorAll _ _ => fun w => (Some (sim_elems w), w)
  | InnerText _ => fun w => (Some (sim_text w), w)
  | GetAttribute _ _ => fun w => (Some (sim_attr w), w)
  | Click _ => fun w => (Some tt, w)
  | Fill _ _ => fun w => (Some tt, w)
  | TypeText _ _ _ => fun w => (Some tt, w)
  | Request _ _ _ => fun w => let '(r, w') := sim_next_response w in (Some r, w')
  end.

(** A library whose regular expressions never match but for [re.findall],
    which gives [links]; a parsed page holds the cards [cards], each a tag
    that is its own name. *)
Definition sim_lib (links cards : list string) : Lib := {|
  re_search := fun _ _ _ => None;
  re_findall := fun _ _ => links;
  urljoin := fun base url => (base ++ url)%string;
  netloc := fun url => url;
  json_loads := fun _ => None;
  py_str := fun _ => "";
  tag := string;
  soup_select := fun _ sel => if String.eqb sel "div.cardCompanyBox" then cards else [];
  soup_select_one := fun _ _ => None;
  tag_select_one := fun t sel => if Py.startswith "meta" sel then Some t else None;
  tag_get := fun t attr => if String.eqb attr "content" then Some t else None;
  tag_text_strip := fun t => t
|}.

(** A listing site that always has one more page: every page shows one
    row, named Acme, and a link to the next page. *)
Definition endless : sim :=
  Sim [] [] [] [O] (Some O) "Acme" (Some "/informes-empresa/acme") "".

Definition default_args (p : portal) (limit : option Z) : args :=
  Args p "BARCELONA" None limit None false false 10 200 4 7.

Example einforma_run :
  map (fun c : dict => c !! "legal_name")
    (@main sim sim_world (sim_lib [] []) 5 (default_args Einforma (Some 2)) endless)
  = [Some (Py.PStr "ACME"); Some (Py.PStr "ACME")].
Proof. vm_compute. reflexivity. Qed.

(** * The claims *)

Section Claims.
Context {W : Type} `{!World W} `{!Lib}.

(** C1. Every record [main] writes has the field [legal_name]; its value
    is a non-empty string that equals its own upper-casing.  This holds for
    the six portals, every command line, every behaviour of the sites and
    every amount of fuel. *)
Theorem legal_name_written fuel a (w : W) :
  Forall (fun rec : dict =>
            exists s, rec !! "legal_name" = Some (Py.PStr s)
                      /\ s <> "" /\ Py.upper s = s)
         (main fuel a w).
Proof.
  unfold main. pose proof (run_inv fuel a w) as Hr.
  destruct (run fuel a w) as [[cs| |] s']; [|constructor..].
  destruct Hr as [(_&_&Hg) ->].
  apply Forall_map. eapply Forall_impl; [exact Hg|].
  intros c Hc. by apply good_remove_empty.
Qed.

(** C2. No field of a record [main] writes holds an empty string: the
    values that are left are all truthy. *)
Theorem no_empty_field_written fuel a (w : W) :
  Forall (fun rec : dict =>
            forall k v, rec !! k = Some v ->
                        Py.truthy v = true /\ v <> Py.PStr "")
         (main fuel a w).
Proof.
  unfold main. destruct (run fuel a w) as [[cs| |] s']; [|constructor..].
  apply Forall_map. apply Forall_forall. intros c _ k v Hk.
  apply remove_empty_lookup in Hk as [_ Ht].
  split; [done|]. by intros ->.
Qed.

(** A request issued while fewer than [L] records are held. *)
Definition under_limit (L : Z) (e : event) : Prop :=
  match e with
  | EvRequest _ _ collected => Z.of_nat collected < L
  | _ => True
  end.

(** C3. With a limit [L >= 1] a run never holds more than [L] records, and
    every request it issues (listing page, detail page or other) is issued
    while fewer than [L] records are held: none follows the [L]-th
    record.  The state is the one the run ends in, also when it raises or
    is cut off. *)
Theorem limit_respected fuel a (w : W) (L : Z) :
  1 <= L ->
  a_limit a = Some L ->
  Z.of_nat (length (companies (run fuel a w).2)) <= L
  /\ Forall (under_limit L) (trace (run fuel a w).2)
  /\ Z.of_nat (length (main fuel a w)) <= L.
Proof.
  intros HL Ha. unfold main. pose proof (run_inv fuel a w) as Hr.
  rewrite Ha in Hr.
  assert (Hinv : inv (Some L) (run fuel a w).2)
    by (destruct (run fuel a w) as [[cs| |] s']; simpl; tauto).
  assert (Hlim : forall n : nat,
            limit_reached (Some L) (Z.of_nat n) = false -> Z.of_nat n < L).
  { intros n. simpl. destruct (Z.eqb_spec L 0); [lia|]. simpl. lia. }
  destruct Hinv as (Ht&Hn&_).
  assert (Hlen : Z.of_nat (length (companies (run fuel a w).2)) <= L).
  { destruct (length (companies (run fuel a w).2)) as [|n] eqn:E; [lia|].
    specialize (Hlim n (Hn n eq_refl)). lia. }
  split; [done|]. split.
  - eapply Forall_impl; [exact Ht|]. intros [] He; try done. simpl in *.
    destruct He as [He| ->]; [by apply Hlim | lia].
  - destruct (run fuel a w) as [[cs| |] s']; simpl in *; [|lia..].
    destruct Hr as [_ ->]. by rewrite length_map.
Qed.

End Claims.

Lemma limit_respected_witness :
  1 <= 2 /\ a_limit (default_args Einforma (Some 2)) = Some 2
  /\ Z.of_nat (length (companies
        (@run sim sim_world (sim_lib [] []) 5
           (default_args Einforma (Some 2)) endless).2)) <= 2
  /\ Forall (under_limit 2)
        (trace (@run sim sim_world (sim_lib [] []) 5
                  (default_args Einforma (Some 2)) endless).2)
  /\ Z.of_nat (length
        (@main sim sim_world (sim_lib [] []) 5
           (default_args Einforma (Some 2)) endless)) <= 2.
Proof.
  split; [lia|]. split; [reflexivity|].
  apply (@limit_respected sim sim_world (sim_lib [] []) 5
           (default_args Einforma (Some 2)) endless 2);
    [lia | reflexivity].
Defined.

(** A site that never lets go of its challenge page. *)
Inductive wall : Type := Wall.

#[local] Instance wall_world : World wall := fun A q =>
  match q in query T return wall -> option T * wall with
  | Content => fun w => (Some "<title>Just a moment...</title>", w)
  | _ => fun w => (None, w)
  end.

Section ChallengeWaiter.
Context {W : Type} `{!World W}.

(** The content stays challenged, whatever the world has come to. *)
Definition stays_challenged : Prop :=
  forall w : W, exists c w', answer Content w = (Some c, w') /\ has_challenge c = true.

Lemma poll_stays_challenged fuel timeout elapsed (s : state W) :
  stays_challenged ->
  (Z.to_nat (timeout - elapsed) <= fuel)%nat ->
  exists n s',
    poll_challenge fuel timeout elapsed s = (Val false, s')
    /\ trace s' = replicate n (EvSleep 5) ++ trace s
    /\ companies s' = companies s
    /\ Z.max elapsed timeout <= elapsed + 5 * Z.of_nat n < Z.max elapsed timeout + 5.
Proof.
  intros Hc. revert elapsed s. induction fuel as [|f IH]; intros elapsed s Hf.
  - exists O, s. simpl. destruct (Z.ltb_spec elapsed timeout); [lia|].
    repeat split; lia.
  - simpl. destruct (Z.ltb_spec elapsed timeout) as [Hlt|Hge].
    + destruct (Hc (world s)) as (c&w'&Hq&Hch).
      unfold bind, log, modify, ask at 1. simpl. rewrite Hq, Hch. simpl.
      destruct (IH (elapsed + 5) (set_world w' (push_event (EvSleep 5) s)))
        as (n&s'&Hp&Ht&Hcs&Hn); [lia|].
      exists (S n), s'. rewrite Hp. split; [done|]. split; [|split; [done|lia]].
      rewrite Ht. simpl.
      change (EvSleep 5 :: trace s) with ([EvSleep 5] ++ trace s).
      by rewrite app_assoc, <- replicate_cons_app.
    + exists O, s. repeat split; lia.
Qed.

(** [wait_for_challenge] always returns: the fuel it gives its loop is
    never spent. *)
Lemma wait_for_challenge_total timeout (s : state W) :
  (wait_for_challenge timeout s).1 <> Fuel.
Proof.
  assert (Hp : forall fuel elapsed (s : state W),
             (Z.to_nat (timeout - elapsed) <= fuel)%nat ->
             (poll_challenge fuel timeout elapsed s).1 <> Fuel).
  { induction fuel as [|f IH]; intros elapsed s0 Hf; simpl.
    - destruct (Z.ltb_spec elapsed timeout); [lia|done].
    - destruct (Z.ltb_spec elapsed timeout); [|done].
      unfold bind, log, modify, ask at 1. simpl.
      destruct (answer Content (world s0)) as [[c|] w']; simpl; [|done].
      destruct (has_challenge c); simpl; [|done]. apply IH. lia. }
  unfold wait_for_challenge, bind, ask.
  destruct (answer Content (world s)) as [[c|] w']; simpl; [|done].
  destruct (has_challenge c); simpl; [|done]. apply Hp. lia.
Qed.

(** C7. (1) When the first content read is clear, [wait_for_challenge]
    returns [True] at once: nothing is logged, so no poll tick took place.
    (2) When the contents read are challenged, challenged, clear, and the
    timeout allows a second tick, it returns [True] after exactly two
    sleeps of 5 seconds.  (3) When the content stays challenged it returns
    [False] after [n] sleeps of 5 seconds, where [5 n] is at least the
    timeout and less than the timeout plus one interval. *)
Theorem wait_for_challenge_spec (timeout : Z) (s : state W) :
  (forall c w',
     answer Content (world s) = (Some c, w') ->
     has_challenge c = false ->
     wait_for_challenge timeout s = (Val true, set_world w' s))
  /\ (forall c0 w1 c1 w2 c2 w3,
        5 < timeout ->
        answer Content (world s) = (Some c0, w1) -> has_challenge c0 = true ->
        answer Content w1 = (Some c1, w2) -> has_challenge c1 = true ->
        answer Content w2 = (Some c2, w3) -> has_challenge c2 = false ->
        wait_for_challenge timeout s
        = (Val true,
           State w3 (glob s) (EvSleep 5 :: EvSleep 5 :: trace s)
             (companies s) (seen s) (total s) (new s)))
  /\ (stays_challenged ->
      0 <= timeout ->
      exists n s',
        wait_for_challenge timeout s = (Val false, s')
        /\ trace s' = replicate n (EvSleep 5) ++ trace s
        /\ timeout <= 5 * Z.of_nat n < timeout + 5).
Proof.
  split; [|split].
  - intros c w' Hq Hc. unfold wait_for_challenge, bind, ask.
    by rewrite Hq, Hc.
  - intros c0 w1 c1 w2 c2 w3 Ht H0 Hc0 H1 Hc1 H2 Hc2.
    unfold wait_for_challenge, bind, ask at 1. rewrite H0, Hc0. simpl.
    destruct (Z.to_nat timeout) as [|[|f]] eqn:Ef; [lia|lia|].
    simpl. destruct (Z.ltb_spec 0 timeout); [|lia].
    unfold bind, log, modify, ask at 1. simpl. rewrite H1, Hc1. simpl.
    change (0 + 5) with 5. destruct (Z.ltb_spec 5 timeout); [|lia].
    unfold bind, log, modify, ask. simpl. by rewrite H2, Hc2.
  - intros Hc Ht. unfold wait_for_challenge, bind, ask at 1.
    destruct (Hc (world s)) as (c&w'&Hq&Hch). rewrite Hq, Hch. simpl.
    destruct (poll_stays_challenged (Z.to_nat timeout) timeout 0 (set_world w' s))
      as (n&s'&Hp&Htr&_&Hn); [done|lia|].
    exists n, s'. split; [done|]. split; [done|lia].
Qed.

End ChallengeWaiter.

Definition challenge_page : string := "<title>Just a moment...</title>".

(** A page that shows its content the third time it is read. *)
Definition solved_after_two : sim :=
  Sim [challenge_page; challenge_page; "<html>Empresas</html>"] [] [] [] None "" None "".

Lemma wait_for_challenge_spec_witness :
  @wait_for_challenge sim sim_world 300
    (initial (Sim ["<html>Empresas</html>"] [] [] [] None "" None "") module_globals)
  = (Val true, initial (Sim [] [] [] [] None "" None "") module_globals)
  /\ @wait_for_challenge sim sim_world 300 (initial solved_after_two module_globals)
     = (Val true,
        State (Sim [] [] [] [] None "" None "") module_globals
          [EvSleep 5; EvSleep 5] [] ∅ 0 0)
  /\ exists n s',
       @wait_for_challenge wall wall_world 12 (initial Wall module_globals)
       = (Val false, s')
       /\ trace s' = replicate n (EvSleep 5) ++ []
       /\ 12 <= 5 * Z.of_nat n < 12 + 5.
Proof.
  split; [|split].
  - apply (proj1 (@wait_for_challenge_spec sim sim_world 300
             (initial (Sim ["<html>Empresas</html>"] [] [] [] None "" None "")
                module_globals)) "<html>Empresas</html>");
      reflexivity.
  - apply (proj1 (proj2 (@wait_for_challenge_spec sim sim_world 300
             (initial solved_after_two module_globals)))
             challenge_page
             (Sim [challenge_page; "<html>Empresas</html>"] [] [] [] None "" None "")
             challenge_page
             (Sim ["<html>Empresas</html>"] [] [] [] None "" None "")
             "<html>Empresas</html>");
      first [lia | reflexivity].
  - apply (proj2 (proj2 (@wait_for_challenge_spec wall wall_world 12
             (initial Wall module_globals)))); [|lia].
    intros []. by exists challenge_page, Wall.
Defined.

Section RateLimitRetrier.
Context {W : Type} `{!World W}.

(** The events of [j] rate-limited attempts, the first numbered [a], oldest
    first: each is a request followed by a sleep of [30 * 2 ^ attempt]
    seconds. *)
Fixpoint backoff (k : req_kind) (url : string) (n : nat) (j : nat) (a : Z)
  : list event :=
  match j with
  | O => []
  | S j' => EvRequest k url n :: EvSleep (30 * 2 ^ a) :: backoff k url n j' (a + 1)
  end.

Lemma cffi_attempts_trace k url method headers max len a resp (s : state W) r s' :
  a + Z.of_nat (S len) = max ->
  cffi_attempts k url method headers max (seqZ a (Z.of_nat (S len))) resp s
  = (Val r, s') ->
  exists j, (j <= len)%nat
    /\ trace s' = rev (backoff k url (length (companies s)) j a
                       ++ [EvRequest k url (length (companies s))]) ++ trace s.
Proof.
  revert a resp s. induction len as [|len IH]; intros a resp s Ha.
  - change (seqZ a (Z.of_nat 1)) with [a]. simpl.
    unfold bind, issue, bind, gets, log, modify, ask. simpl.
    destruct (answer _ (world s)) as [[rp|] w]; simpl; [|done].
    replace (a <? max - 1) with false by (symmetry; apply Z.ltb_ge; lia).
    rewrite andb_false_r. intros [= <- <-]. exists O. by split.
  - rewrite seqZ_cons by lia.
    replace (Z.pred (Z.of_nat (S (S len)))) with (Z.of_nat (S len)) by lia.
    cbn [cffi_attempts].
    unfold bind at 1. unfold issue, bind, gets, log, modify, ask. simpl.
    destruct (answer _ (world s)) as [[rp|] w]; simpl; [|done].
    destruct (_ && _).
    + intros Hrun. apply IH in Hrun as (j&Hj&Ht); [|lia].
      exists (S j). split; [lia|]. rewrite Ht. simpl.
      replace (Z.succ a) with (a + 1) by lia.
      by rewrite <- !app_assoc.
    + intros [= <- <-]. exists O. split; [lia|done].
Qed.

(** [rs] are the answers to the next requests [q], in order, from the
    world [w]; [w'] is the world after them. *)
Fixpoint replies (q : query response) (rs : list response) (w w' : W) : Prop :=
  match rs with
  | [] => w' = w
  | r :: rest => exists w1, answer q w = (Some r, w1) /\ replies q rest w1 w'
  end.

Definition rate_limit (r : response) : Prop := status_code r = 429.

(** The loop from attempt [a] on, when the next answers are the rate-limit
    responses [rs] and then [r]; [len] attempts are left after that. *)
Lemma cffi_attempts_retries k url method headers max rs :
  forall a len resp (s : state W) r w' w'',
    a + Z.of_nat (length rs) + 1 + Z.of_nat len = max ->
    replies (Request method url headers) rs (world s) w' ->
    Forall rate_limit rs ->
    answer (Request method url headers) w' = (Some r, w'') ->
    ~ rate_limit r \/ len = O ->
    cffi_attempts k url method headers max
      (seqZ a (Z.of_nat (length rs) + 1 + Z.of_nat len)) resp s
    = (Val r,
       State w'' (glob s)
         (rev (backoff k url (length (companies s)) (length rs) a
               ++ [EvRequest k url (length (companies s))]) ++ trace s)
         (companies s) (seen s) (total s) (new s)).
Proof.
  induction rs as [|r0 rs IH]; intros a len resp s r w' w'' Ha Hrs H429 Hq Hr.
  - simpl in Hrs. subst w'. rewrite seqZ_cons by lia. cbn [cffi_attempts].
    unfold bind, issue, bind, gets, log, modify, ask. simpl. rewrite Hq. simpl.
    replace ((status_code r =? 429) && (a <? max - 1)) with false; [done|].
    symmetry. apply andb_false_iff. destruct Hr as [Hr| ->].
    + left. apply Z.eqb_neq. exact Hr.
    + right. apply Z.ltb_ge. simpl in Ha. lia.
  - destruct Hrs as (w1&Hq0&Hrs). apply Forall_cons in H429 as [H0 H429].
    assert (Hlt : (a <? max - 1) = true)
      by (apply Z.ltb_lt; simpl length in Ha; lia).
    replace (Z.of_nat (length (r0 :: rs)) + 1 + Z.of_nat len)
      with (Z.succ (Z.of_nat (length rs) + 1 + Z.of_nat len))
      by (simpl length; lia).
    rewrite seqZ_cons, Z.pred_succ by lia.
    replace (Z.succ a) with (a + 1) by lia.
    remember (seqZ (a + 1) (Z.of_nat (length rs) + 1 + Z.of_nat len)) as l eqn:El.
    cbn [cffi_attempts].
    unfold bind at 1. unfold issue, bind, gets, log, modify, ask. simpl.
    rewrite Hq0. simpl. unfold rate_limit in H0. rewrite H0, Hlt. simpl.
    subst l.
    erewrite IH; [|simpl length in Ha; lia|exact Hrs|exact H429|exact Hq|exact Hr].
    simpl. by rewrite <- !app_assoc.
Qed.

(** C8. (1) A call that returns made [j + 1] requests, [j + 1] at most the
    attempt cap; each of the first [j] was followed by a sleep of
    [30 * 2 ^ attempt] seconds, and the last by none.  (2) Every rate-limited
    response below the cap is retried: when the next answers are the
    rate-limit responses [rs], fewer than the cap, and then [r], which is
    not one or is the answer to the last attempt allowed, each response of
    [rs] is followed by a sleep of [30 * 2 ^ attempt] seconds and by the
    next request, and [r] is returned as it is, with the world where its
    request left it.  (3) With a cap of 3 and three rate-limited responses
    in a row, the call makes exactly three requests, sleeps 30 and then 60
    seconds in between, and returns the third response as it is; the world
    is left where the third request left it, so a fourth response is never
    asked for. *)
Theorem cffi_fetch_backoff k url method headers (s : state W) :
  (forall max r s',
     1 <= max ->
     _cffi_fetch k url method max headers s = (Val r, s') ->
     exists j, Z.of_nat j < max
       /\ trace s' = rev (backoff k url (length (companies s)) j 0
                          ++ [EvRequest k url (length (companies s))]) ++ trace s)
  /\ (forall max rs r w' w'',
        Z.of_nat (length rs) < max ->
        replies (Request method url (headers ∪ base_headers)) rs (world s) w' ->
        Forall rate_limit rs ->
        answer (Request method url (headers ∪ base_headers)) w' = (Some r, w'') ->
        ~ rate_limit r \/ Z.of_nat (length rs) = max - 1 ->
        _cffi_fetch k url method max headers s
        = (Val r,
           State w'' (glob s)
             (rev (backoff k url (length (companies s)) (length rs) 0
                   ++ [EvRequest k url (length (companies s))]) ++ trace s)
             (companies s) (seen s) (total s) (new s)))
  /\ (forall r1 w1 r2 w2 r3 w3,
        answer (Request method url (headers ∪ base_headers)) (world s) = (Some r1, w1) ->
        answer (Request method url (headers ∪ base_headers)) w1 = (Some r2, w2) ->
        answer (Request method url (headers ∪ base_headers)) w2 = (Some r3, w3) ->
        status_code r1 = 429 -> status_code r2 = 429 -> status_code r3 = 429 ->
        _cffi_fetch k url method 3 headers s
        = (Val r3,
           State w3 (glob s)
             (EvRequest k url (length (companies s)) :: EvSleep 60
              :: EvRequest k url (length (companies s)) :: EvSleep 30
              :: EvRequest k url (length (companies s)) :: trace s)
             (companies s) (seen s) (total s) (new s))).
Proof.
  split; [|split].
  - intros max r s' Hm Hrun. unfold _cffi_fetch in Hrun.
    replace max with (Z.of_nat (S (Z.to_nat (max - 1)))) in Hrun at 2 by lia.
    apply cffi_attempts_trace in Hrun as (j&Hj&Ht); [|lia].
    exists j. split; [lia|done].
  - intros max rs r w' w'' Hlt Hrs H429 Hq Hr. unfold _cffi_fetch.
    set (len := Z.to_nat (max - Z.of_nat (length rs) - 1)).
    replace (seqZ 0 max)
      with (seqZ 0 (Z.of_nat (length rs) + 1 + Z.of_nat len))
      by (f_equal; lia).
    apply (cffi_attempts_retries k url method _ max rs 0 len None s r w' w'');
      [lia|done|done|done|].
    destruct Hr as [Hr|Hr]; [by left|right; lia].
  - intros r1 w1 r2 w2 r3 w3 H1 H2 H3 E1 E2 E3.
    unfold _cffi_fetch. change (seqZ 0 3) with [0; 1; 2]. simpl.
    unfold bind, issue, bind, gets, log, modify, ask. simpl.
    rewrite H1, E1. simpl. rewrite H2, E2. simpl. by rewrite H3, E3.
Qed.

End RateLimitRetrier.

(** Three rate-limited responses, then a success. *)
Definition rate_limited : sim :=
  Sim [] [Response 429 "a"; Response 429 "b"; Response 429 "c"; Response 200 "ok"]
    [] [] None "" None "".

(** The server of [rate_limited] against a cap of 3, and against a cap of
    5: there the fourth request is made, after sleeps of 30, 60 and 120
    seconds, and its answer returned. *)
Lemma cffi_fetch_backoff_witness :
  (exists j, Z.of_nat j < 3
     /\ trace (@_cffi_fetch sim sim_world OtherReq "u" "GET" 3 ∅
                 (initial rate_limited module_globals)).2
        = rev (backoff OtherReq "u" 0 j 0 ++ [EvRequest OtherReq "u" 0]) ++ [])
  /\ @_cffi_fetch sim sim_world OtherReq "u" "GET" 5 ∅
       (initial rate_limited module_globals)
     = (Val (Response 200 "ok"),
        State (Sim [] [] [] [] None "" None "") module_globals
          [EvRequest OtherReq "u" 0; EvSleep 120; EvRequest OtherReq "u" 0;
           EvSleep 60; EvRequest OtherReq "u" 0; EvSleep 30;
           EvRequest OtherReq "u" 0] [] ∅ 0 0)
  /\ @_cffi_fetch sim sim_world OtherReq "u" "GET" 3 ∅
       (initial rate_limited module_globals)
     = (Val (Response 429 "c"),
        State (Sim [] [Response 200 "ok"] [] [] None "" None "") module_globals
          [EvRequest OtherReq "u" 0; EvSleep 60; EvRequest OtherReq "u" 0;
           EvSleep 30; EvRequest OtherReq "u" 0] [] ∅ 0 0).
Proof.
  split; [|split].
  - apply (proj1 (@cffi_fetch_backoff sim sim_world OtherReq "u" "GET" ∅
                    (initial rate_limited module_globals))
             3 (Response 429 "c")
             (State (Sim [] [Response 200 "ok"] [] [] None "" None "") module_globals
                [EvRequest OtherReq "u" 0; EvSleep 60; EvRequest OtherReq "u" 0;
                 EvSleep 30; EvRequest OtherReq "u" 0] [] ∅ 0 0)); [lia|].
    vm_compute. reflexivity.
  - apply (proj1 (proj2 (@cffi_fetch_backoff sim sim_world OtherReq "u" "GET" ∅
                           (initial rate_limited module_globals)))
             5 [Response 429 "a"; Response 429 "b"; Response 429 "c"]
             (Response 200 "ok")
             (Sim [] [Response 200 "ok"] [] [] None "" None "")
             (Sim [] [] [] [] None "" None "")).
    + simpl. lia.
    + simpl. eexists. split; [reflexivity|]. eexists. split; [reflexivity|].
      eexists. split; reflexivity.
    + repeat constructor.
    + reflexivity.
    + left. unfold rate_limit. simpl. lia.
  - apply (proj2 (proj2 (@cffi_fetch_backoff sim sim_world OtherReq "u" "GET" ∅
                           (initial rate_limited module_globals)))
             (Response 429 "a")
             (Sim [] [Response 429 "b"; Response 429 "c"; Response 200 "ok"]
                [] [] None "" None "")
             (Response 429 "b")
             (Sim [] [Response 429 "c"; Response 200 "ok"] [] [] None "" None "")
             (Response 429 "c")
             (Sim [] [Response 200 "ok"] [] [] None "" None ""));
      vm_compute; reflexivity.
Defined.

(** ** Phone numbers *)

Lemma sfilter_In p s c :
  In c (list_ascii_of_string (Py.sfilter p s))
  <-> In c (list_ascii_of_string s) /\ p c = true.
Proof.
  induction s as [|a r IH]; simpl; [tauto|].
  destruct (p a) eqn:E; simpl; rewrite IH; split.
  - intros [<-|[]]; auto.
  - intros [[<-|] ?]; auto.
  - intros []; auto.
  - intros [[<-|] ?]; [congruence|auto].
Qed.

Lemma phone_char_spec c :
  phone_char c = true <-> Py.is_digit c = true \/ c = "+"%char.
Proof.
  unfold phone_char. rewrite orb_true_iff.
  by rewrite (Ascii.eqb_eq c "+").
Qed.

(** The number of digits of a string. *)
Definition digits (s : string) : nat := String.length (Py.sfilter Py.is_digit s).

(** C9, as stated, fails: the candidate [tel:+12 34 56 78] is normalized
    to [+12345678], which still holds a character that is not a digit and
    has eight digits only, and yet the phone field is set. *)
Lemma phone_claim_counterexample :
  normalize_phone "tel:+12 34 56 78" = "+12345678"
  /\ In "+"%char (list_ascii_of_string (normalize_phone "tel:+12 34 56 78"))
  /\ Py.is_digit "+" = false
  /\ (digits (normalize_phone "tel:+12 34 56 78") < 9)%nat
  /\ set_phone (normalize_phone "tel:+12 34 56 78") ∅ !! "phone"
     = Some (Py.PStr "+12345678").
Proof. repeat split; vm_compute; auto. Qed.

(** C9, amended.  Normalization keeps exactly the digits and the plus
    signs of a candidate, in order, so [tel:+34 93 123 45 67] gives
    [+34931234567]; when the normalized candidate has fewer than 9
    characters, plus signs counted, the record is left as it is and gets
    no phone field; otherwise the field is the normalized candidate. *)
Theorem phone_normalization :
  normalize_phone "tel:+34 93 123 45 67" = "+34931234567"
  /\ (forall cand, normalize_phone cand = Py.sfilter phone_char cand)
  /\ (forall cand c,
        In c (list_ascii_of_string (normalize_phone cand))
        <-> In c (list_ascii_of_string cand)
            /\ (Py.is_digit c = true \/ c = "+"%char))
  /\ (forall cand (company : dict),
        (String.length (normalize_phone cand) < 9)%nat ->
        set_phone (normalize_phone cand) company = company
        /\ (company !! "phone" = None ->
            set_phone (normalize_phone cand) company !! "phone" = None))
  /\ (forall cand (company : dict),
        (9 <= String.length (normalize_phone cand))%nat ->
        set_phone (normalize_phone cand) company !! "phone"
        = Some (Py.PStr (normalize_phone cand))).
Proof.
  split; [reflexivity|]. split; [done|]. split; [|split].
  - intros cand c. unfold normalize_phone. by rewrite sfilter_In, phone_char_spec.
  - intros cand company Hlen. unfold set_phone.
    destruct (Z.leb_spec 9 (Z.of_nat (String.length (normalize_phone cand))));
      [lia|done].
  - intros cand company Hlen. unfold set_phone.
    destruct (Z.leb_spec 9 (Z.of_nat (String.length (normalize_phone cand))));
      [|lia].
    apply lookup_insert_eq.
Qed.

Lemma phone_normalization_witness :
  (String.length (normalize_phone "tel: 93 123") < 9)%nat
  /\ set_phone (normalize_phone "tel: 93 123") (∅ : dict) !! "phone" = None
  /\ (9 <= String.length (normalize_phone "tel:+34 93 123 45 67"))%nat
  /\ set_phone (normalize_phone "tel:+34 93 123 45 67") (∅ : dict) !! "phone"
     = Some (Py.PStr (normalize_phone "tel:+34 93 123 45 67")).
Proof.
  split; [vm_compute; lia|]. split.
  - apply (proj1 (proj2 (proj2 (proj2 phone_normalization))) "tel: 93 123" ∅);
      [vm_compute; lia | reflexivity].
  - split; [vm_compute; lia|].
    apply (proj2 (proj2 (proj2 (proj2 phone_normalization)))
             "tel:+34 93 123 45 67" ∅).
    vm_compute; lia.
Defined.

(** The records the three routines that normalize phones start from have
    no phone field. *)
Lemma no_phone_yet `{!Lib} name slug region portal :
  ep_company name slug region !! "phone" = None
  /\ region_company portal name region !! "phone" = None
  /\ (forall city_slug url a d,
        es_company name city_slug region url a d !! "phone" = None).
Proof. repeat split; intros; by simplify_map_eq. Qed.

(** ** Delay bounds *)

(** An event that is a random delay within [lo, hi]. *)
Definition is_delay (lo hi : Q) (e : event) : bool :=
  match e with
  | EvDelay a b => Qeq_bool a lo && Qeq_bool b hi
  | _ => false
  end.

(** A run asked to pause between 10 and 20 seconds. *)
Definition slow_args (p : portal) : args :=
  Args p "BARCELONA" (Some "BADALONA") (Some 1) None false false 10 200 10 20.

(** One listing, one company, no challenge. *)
Definition one_company : sim :=
  Sim [] [] [] [O] (Some O) "Acme" (Some "tel:+34 93 123 45 67") "https://www.empresia.es/empresa/acme".

(** C10 fails on the code.  [human_delay] called without arguments pauses
    between 4 and 7 seconds whatever the globals hold, because its default
    values are those the globals had when the function was defined.  A run
    of the Europages routine started with [--delay-min 10 --delay-max 20]
    pauses between 4 and 7 seconds and never between 10 and 20, while the
    Empresite routine, which reads the globals at each call, pauses between
    10 and 20 seconds. *)
Theorem delay_bounds_ignored :
  (forall (W : Type) (HW : World W) (s : state W),
     trace (human_delay None None s).2 = EvDelay 4 7 :: trace s)
  /\ (let tr := trace (@run sim sim_world (sim_lib ["/es/company/acme"] []) 3
                        (slow_args Europages) one_company).2 in
      existsb (is_delay 4 7) tr = true /\ existsb (is_delay 10 20) tr = false)
  /\ (let tr := trace (@run sim sim_world (sim_lib [] ["Acme"]) 3
                        (slow_args Empresite) one_company).2 in
      existsb (is_delay 10 20) tr = true /\ existsb (is_delay 4 7) tr = false).
Proof. split; [done|]. split; split; vm_compute; reflexivity. Qed.

(** ** Page ceilings *)

(** A request for the page [p] of a listing. *)
Definition is_page (p : Z) (e : event) : bool :=
  match e with
  | EvRequest (PageReq _ n) _ _ => n =? p
  | _ => false
  end.

(** On the endless site, with no limit, one round of the Einforma loop
    asks for the page it is at (the first page apart, loaded before the
    loop) and goes on to the next. *)
Lemma ei_page_endless pnum (s : state sim) :
  world s = endless ->
  let r := @ei_page sim sim_world (sim_lib [] []) "BARCELONA" "barcelona" None pnum s in
  r.1 = Val (Some (pnum + 1))
  /\ world r.2 = endless
  /\ exists evs, trace r.2 = evs ++ trace s
       /\ (1 < pnum -> existsb (is_page pnum) evs = true).
Proof.
  destruct s as [w g tr cs sn t n]. simpl. intros ->.
  unfold ei_page. destruct (Z.ltb_spec 1 pnum) as [Hp|Hp].
  - split; [vm_compute; reflexivity|]. split; [vm_compute; reflexivity|].
    exists [EvEmit "ACME"; EvItems 0 pnum 1; EvDelay 2 4;
            EvRequest (PageReq 0 pnum)
              (EI_BASE ++ "/informes-empresas/" ++ "barcelona" ++ "-"
                 ++ pretty pnum ++ ".html")%string (length cs);
            EvDelay 4 7].
    split; [vm_compute; reflexivity|]. intros _. simpl.
    by rewrite Z.eqb_refl.
  - split; [vm_compute; reflexivity|]. split; [vm_compute; reflexivity|].
    exists [EvEmit "ACME"; EvItems 0 pnum 1].
    split; [vm_compute; reflexivity|]. lia.
Qed.

(** So the loop never ends by itself: whatever the fuel, it is spent, and
    every page from the second up to the fuel has been asked for. *)
Lemma ei_loop_endless fuel pnum (s : state sim) :
  world s = endless ->
  let r := while_true fuel
             (@ei_page sim sim_world (sim_lib [] []) "BARCELONA" "barcelona" None)
             pnum s in
  r.1 = Fuel
  /\ exists evs, trace r.2 = evs ++ trace s
       /\ forall p, 1 < p -> pnum <= p < pnum + Z.of_nat fuel ->
                    existsb (is_page p) evs = true.
Proof.
  revert pnum s. induction fuel as [|f IH]; intros pnum s Hw; simpl.
  - split; [done|]. exists []. split; [done|]. lia.
  - pose proof (ei_page_endless pnum s Hw) as (H1&H2&evs&Ht&Hp). simpl in *.
    unfold bind.
    destruct (ei_page _ _ _ _ s) as [o s1]. simpl in *. subst o.
    destruct (IH (pnum + 1) s1 H2) as (Hf&evs'&Ht'&Hp').
    destruct (while_true f _ (pnum + 1) s1) as [o s2]. simpl in *. subst o.
    split; [done|]. exists (evs' ++ evs). split; [by rewrite Ht', Ht, app_assoc|].
    intros p Hp1 Hr. rewrite existsb_app.
    destruct (Z.eq_dec p pnum) as [->|Hne].
    + rewrite (Hp Hp1). apply orb_true_r.
    + rewrite Hp'; [done|done|lia].
Qed.

(** C5 fails on the code.  The Einforma loop has no page ceiling: on a site
    that always shows a row and a link to the next page, and with no item
    limit, the run never returns, whatever the fuel, writes nothing, and
    asks for every page from the second up to the fuel, so for pages far
    beyond 40. *)
Theorem einforma_no_page_ceiling (fuel : nat) :
  (@run sim sim_world (sim_lib [] []) fuel (default_args Einforma None) endless).1 = Fuel
  /\ @main sim sim_world (sim_lib [] []) fuel (default_args Einforma None) endless = []
  /\ forall p, 1 < p -> p <= Z.of_nat fuel ->
       existsb (is_page p)
         (trace (@run sim sim_world (sim_lib [] []) fuel
                   (default_args Einforma None) endless).2) = true.
Proof.
  unfold main, run. simpl SCRAPERS. unfold scrape_einforma.
  pose proof (ei_loop_endless fuel 1) as Hlp.
  set (lp := while_true fuel _ 1) in *. clearbody lp.
  set (s1 := State endless {| MIN_DELAY := 4; MAX_DELAY := 7 |}
               [EvDelay 3 5;
                EvRequest (PageReq 0 1)
                  "https://www.einforma.com/informes-empresas/barcelona.html" 0;
                EvRequest OtherReq "button#onetrust-accept-btn-handler" 0;
                EvDelay 3 5; EvRequest OtherReq "https://www.einforma.com" 0]
               [] ∅ 0 0).
  destruct (Hlp s1 eq_refl) as (Hf&evs&Ht&Hp). clear Hlp.
  match goal with
  | |- context [bind ?a ?b ?s] => set (r := bind a b s)
  end.
  assert (Hrun : r = (Fuel, (lp s1).2)).
  { subst r. destruct (lp s1) as [o s2] eqn:E. simpl in Hf. subst o.
    vm_compute. change (lp _) with (lp s1). by rewrite E. }
  rewrite Hrun. simpl. split; [done|]. split; [done|].
  intros p Hp1 Hp2. rewrite Ht, existsb_app, Hp; [done|done|lia].
Qed.

(** The page the run is at after the ceilings of the other routines. *)
Lemma einforma_no_page_ceiling_witness :
  1 < 41 /\ 41 <= Z.of_nat 45
  /\ existsb (is_page 41)
       (trace (@run sim sim_world (sim_lib [] []) 45
                 (default_args Einforma None) endless).2) = true.
Proof.
  split; [lia|]. split; [lia|].
  apply (proj2 (proj2 (einforma_no_page_ceiling 45)) 41); lia.
Defined.

(** The three routines that do have a ceiling: a round of their loop goes
    on to the next page only below it. *)
Ltac ceiling_tac :=
  try done;
  match goal with
  | |- forall v, Some _ = Some v -> _ =>
      intros ? [= <-]; split; [done|];
      repeat match goal with
        | H : _ || _ = false |- _ => apply orb_false_iff in H; destruct H
        | H : (_ <=? _) = false |- _ => apply Z.leb_gt in H
        end; lia
  | |- forall v, None = Some v -> _ => by intros ? [=]
  end.

Lemma es_page_ceiling {W} `{!World W} `{!Lib} region city_slug limit o scope page :
  returns (W:=W) (fun r => forall v, r = Some v -> v = page + 1 /\ page < 40)
    (es_page region city_slug limit o scope page).
Proof. unfold es_page. solve_returns ceiling_tac. Qed.

Lemma ep_page_ceiling {W} `{!World W} `{!Lib} region location term limit scope page :
  returns (W:=W) (fun r => forall v, r = Some v -> v = page + 1 /\ page < 10)
    (ep_page region location term limit scope page).
Proof. unfold ep_page. solve_returns ceiling_tac. Qed.

Lemma pa_page_ceiling {W} `{!World W} `{!Lib} region province cat limit scope page :
  returns (W:=W) (fun r => forall v, r = Some v -> v = page + 1 /\ page < 20)
    (pa_page region province cat limit scope page).
Proof. unfold pa_page. solve_returns ceiling_tac. Qed.

(** ** Pagination *)

(** No page of a scope is asked for beyond one of that scope that yielded
    no item. *)
Definition pag_ok (t : list event) : Prop :=
  forall sc n m url c,
    In (EvItems sc n 0) t -> In (EvRequest (PageReq sc m) url c) t -> m <= n.

(** The run is at page [p] of scope [i]: the pages asked for belong to
    earlier scopes or are pages of [i] up to [p], and the pages of [i]
    read so far, all before [p], yielded items. *)
Definition at_page (i : nat) (p : Z) (t : list event) : Prop :=
  (forall sc m url c, In (EvRequest (PageReq sc m) url c) t ->
     (sc < i)%nat \/ (sc = i /\ m <= p))
  /\ (forall sc m k, In (EvItems sc m k) t ->
        (sc < i)%nat \/ (sc = i /\ m < p /\ k <> O))
  /\ pag_ok t.

(** The run is about to enter scope [i]. *)
Definition at_scope (i : nat) (t : list event) : Prop :=
  (forall sc m url c, In (EvRequest (PageReq sc m) url c) t -> (sc < i)%nat)
  /\ (forall sc m k, In (EvItems sc m k) t -> (sc < i)%nat)
  /\ pag_ok t.

(** Events that leave the run at page [p] of scope [i]. *)
Definition pag_step (i : nat) (p : Z) (e : event) : Prop :=
  match e with
  | EvRequest (PageReq sc m) _ _ => sc = i /\ m <= p
  | EvItems _ _ _ => False
  | _ => True
  end.

(** Events that leave the run between scopes. *)
Definition scope_step (e : event) : Prop :=
  match e with
  | EvRequest (PageReq _ _) _ _ => False
  | EvItems _ _ _ => False
  | _ => True
  end.

Lemma at_page_pag_ok i p t : at_page i p t -> pag_ok t.
Proof. by intros (_&_&?). Qed.

Lemma at_scope_pag_ok i t : at_scope i t -> pag_ok t.
Proof. by intros (_&_&?). Qed.

Lemma at_scope_nil : at_scope 0 [].
Proof. unfold at_scope, pag_ok. simpl. tauto. Qed.

Lemma at_scope_at_page i p t : at_scope i t -> at_page i p t.
Proof.
  intros (Hr&Hi&Hok). repeat split; [| |done].
  - intros sc m url c H. left. eauto.
  - intros sc m k H. left. eauto.
Qed.

Lemma at_page_at_scope i p t : at_page i p t -> at_scope (S i) t.
Proof.
  intros (Hr&Hi&Hok). repeat split; [| |done].
  - intros sc m url c H. destruct (Hr _ _ _ _ H) as [|[]]; lia.
  - intros sc m k H. destruct (Hi _ _ _ H) as [|[]]; lia.
Qed.

Lemma at_page_app i p evs t :
  Forall (pag_step i p) evs -> at_page i p t -> at_page i p (evs ++ t).
Proof.
  intros Hevs (Hr&Hi&Hok). rewrite Forall_forall in Hevs.
  assert (Hin : forall e, In e evs -> pag_step i p e)
    by (intros e He; apply Hevs; by apply list_elem_of_In).
  repeat split.
  - intros sc m url c [H|H]%in_app_or; [|eauto].
    apply Hin in H. simpl in H. by right.
  - intros sc m k [H|H]%in_app_or; [|eauto]. by apply Hin in H.
  - intros sc n m url c [H|H]%in_app_or; [by apply Hin in H|].
    intros [H'|H']%in_app_or; [|eauto].
    apply Hin in H'. simpl in H'. destruct H' as [-> Hm].
    destruct (Hi _ _ _ H) as [|(_&_&?)]; [lia|done].
Qed.

Lemma at_page_cons i p e t : pag_step i p e -> at_page i p t -> at_page i p (e :: t).
Proof. intros He. apply (at_page_app i p [e]). by constructor. Qed.

Lemma at_scope_app i evs t :
  Forall scope_step evs -> at_scope i t -> at_scope i (evs ++ t).
Proof.
  intros Hevs (Hr&Hi&Hok). rewrite Forall_forall in Hevs.
  assert (Hin : forall e, In e evs -> scope_step e)
    by (intros e He; apply Hevs; by apply list_elem_of_In).
  repeat split.
  - intros sc m url c [H|H]%in_app_or; [|eauto]. by apply Hin in H.
  - intros sc m k [H|H]%in_app_or; [|eauto]. by apply Hin in H.
  - intros sc n m url c [H|H]%in_app_or; [by apply Hin in H|].
    intros [H'|H']%in_app_or; [by apply Hin in H'|eauto].
Qed.

Lemma at_scope_cons i e t : scope_step e -> at_scope i t -> at_scope i (e :: t).
Proof. intros He. apply (at_scope_app i [e]). by constructor. Qed.

(** A page that yields items: on to the next. *)
Lemma at_page_items i p n t :
  n <> O -> at_page i p t -> at_page i (p + 1) (EvItems i p n :: t).
Proof.
  intros Hn (Hr&Hi&Hok). repeat split.
  - intros sc m url c [H|H]; [done|].
    destruct (Hr _ _ _ _ H) as [|[]]; [by left|right; lia].
  - intros sc m k [[= <- <- <-]|H]; [right; lia|].
    destruct (Hi _ _ _ H) as [|(?&?&?)]; [by left|right; lia].
  - intros sc n' m url c [[= <- <- ?]|H]; [done|].
    intros [H'|H']; [done|eauto].
Qed.

(** A page that yields none: the scope is over. *)
Lemma at_scope_no_items i p t : at_page i p t -> at_scope (S i) (EvItems i p 0 :: t).
Proof.
  intros (Hr&Hi&Hok). repeat split.
  - intros sc m url c [H|H]; [done|].
    destruct (Hr _ _ _ _ H) as [|[]]; lia.
  - intros sc m k [[= <- <- <-]|H]; [lia|].
    destruct (Hi _ _ _ H) as [|(?&?&?)]; lia.
  - intros sc n m url c [[= <- <-]|H]; intros [H'|H']; try done.
    + destruct (Hr _ _ _ _ H') as [|[]]; lia.
    + eauto.
Qed.

Lemma at_page_mono i p p' t : p <= p' -> at_page i p t -> at_page i p' t.
Proof.
  intros Hp (Hr&Hi&Hok). repeat split; [| |done].
  - intros sc m url c H. destruct (Hr _ _ _ _ H) as [|[]]; [by left|right; lia].
  - intros sc m k H. destruct (Hi _ _ _ H) as [|(?&?&?)]; [by left|right; lia].
Qed.

Section Pag.
Context {W : Type} `{!World W} `{!Lib}.

Definition pag_inv (s : state W) : Prop := pag_ok (trace s).
Definition page_inv (i : nat) (p : Z) (s : state W) : Prop := at_page i p (trace s).
Definition scope_inv (i : nat) (s : state W) : Prop := at_scope i (trace s).

Lemma stable_page_inv i p : stable (fun _ => pag_step i p) (page_inv i p).
Proof.
  intros s s' Hs (_&_&_&_&_&evs&Ht&HF). unfold page_inv. rewrite Ht.
  by apply at_page_app.
Qed.

Lemma stable_scope_inv i : stable (fun _ => scope_step) (scope_inv i).
Proof.
  intros s s' Hs (_&_&_&_&_&evs&Ht&HF). unfold scope_inv. rewrite Ht.
  by apply at_scope_app.
Qed.

Lemma page_inv_pag i p s : page_inv i p s -> pag_inv s.
Proof. apply at_page_pag_ok. Qed.

Lemma scope_inv_pag i s : scope_inv i s -> pag_inv s.
Proof. apply at_scope_pag_ok. Qed.

End Pag.

Lemma quiet_pag_step i p e : quiet e -> pag_step i p e.
Proof. by destruct e. Qed.

Lemma quiet_scope_step e : quiet e -> scope_step e.
Proof. by destruct e. Qed.

Lemma req_pag_step_page i p n e : req_of (PageReq i p) n e -> pag_step i p e.
Proof. destruct e; simpl; try done. intros [-> _]. split; [done|lia]. Qed.

Lemma req_pag_step_detail i p n e : req_of DetailReq n e -> pag_step i p e.
Proof. destruct e; simpl; try done. by intros [-> _]. Qed.

Lemma req_pag_step_other i p n e : req_of OtherReq n e -> pag_step i p e.
Proof. destruct e; simpl; try done. by intros [-> _]. Qed.

Lemma req_scope_step_detail n e : req_of DetailReq n e -> scope_step e.
Proof. destruct e; simpl; try done. by intros [-> _]. Qed.

Lemma req_scope_step_other n e : req_of OtherReq n e -> scope_step e.
Proof. destruct e; simpl; try done. by intros [-> _]. Qed.

Section LoopRules.
Context {W : Type}.

(** Loop rules in which the invariant need not be what holds when the run
    raises. *)
Lemma wp_for_each_keep {A B} E F (I : state W -> Prop) (body : A -> M W ctl)
    l (k : unit -> M W B) Q s :
  I s ->
  (forall x s, I s -> wpx E F (body x) (fun _ => I) s) ->
  (forall s', I s' -> wpx E F (k tt) Q s') ->
  wpx E F (bind (for_each l body) k) Q s.
Proof.
  intros Hs Hbody Hk. apply wp_bind.
  eapply wp_mono;
    [apply (wp_for_each E F (fun _ => I) I); eauto| | done | done].
  - intros x r s0 Hs0. eapply wp_mono; [by apply Hbody| |done|done].
    by intros [].
  - by intros [].
Qed.

Lemma wp_while_pos {V B} E F (J : V -> state W -> Prop) (Qf : state W -> Prop)
    (body : V -> M W (option V)) fuel v (k : unit -> M W B) Q s :
  J v s ->
  (forall v s, J v s ->
     wpx E F (body v)
       (fun r s' => match r with Some v' => J v' s' | None => Qf s' end) s) ->
  (forall v s, J v s -> F s) ->
  (forall s', Qf s' -> wpx E F (k tt) Q s') ->
  wpx E F (bind (while_true fuel body v) k) Q s.
Proof.
  intros Hs Hbody HF Hk. apply wp_bind.
  eapply wp_mono; [apply (wp_while E F J Qf); eauto| | done | done].
  by intros [].
Qed.

End LoopRules.

Lemma pag_ok_app evs t : Forall scope_step evs -> pag_ok t -> pag_ok (evs ++ t).
Proof.
  intros Hevs Hok. rewrite Forall_forall in Hevs.
  assert (Hin : forall e, In e evs -> scope_step e)
    by (intros e He; apply Hevs; by apply list_elem_of_In).
  intros sc n m url c [H|H]%in_app_or; [by apply Hin in H|].
  intros [H'|H']%in_app_or; [by apply Hin in H'|eauto].
Qed.

Lemma stable_pag_inv {W} : stable (W:=W) (fun _ => quiet) pag_inv.
Proof.
  intros s s' Hs (_&_&_&_&_&evs&Ht&HF). unfold pag_inv. rewrite Ht.
  apply pag_ok_app; [|done].
  eapply Forall_impl; [exact HF|]. apply quiet_scope_step.
Qed.

(** The outer loop of a routine with scopes. *)
Lemma wp_scopes {W A} (body : nat -> A -> M W ctl) l i (s : state W) :
  scope_inv i s ->
  (forall i x s, scope_inv i s ->
     wpx pag_inv pag_inv (body i x)
       (fun c s' => match c with
                    | Next => scope_inv (S i) s'
                    | Break => pag_inv s'
                    end) s) ->
  wpx pag_inv pag_inv (for_enum i l body) (fun _ => pag_inv) s.
Proof.
  intros Hs Hbody.
  apply (wp_for_enum _ _ (fun i _ => scope_inv i) pag_inv); [done| |].
  - intros. by apply Hbody.
  - intros. by eapply scope_inv_pag.
Qed.

#[local] Hint Resolve frames_ep_name frames_em_texts frames_em_website : frames.

Create HintDb pag.
#[local] Hint Extern 1 (pag_step _ _ _) => exact I : pag.
#[local] Hint Extern 1 (scope_step _) => exact I : pag.
#[local] Hint Extern 1 (_ <> O) => discriminate : pag.
#[local] Hint Resolve at_page_pag_ok at_scope_pag_ok at_page_at_scope at_scope_at_page
  at_page_cons at_scope_cons at_page_items at_scope_no_items : pag.

Ltac pag_close :=
  unfold page_inv, scope_inv, pag_inv in *; simpl in *;
  solve [eauto 6 with pag].

Ltac pag_move :=
  match goal with
  | Hp : page_inv ?i ?p ?s |- wpx _ _ _ _ ?s2 =>
      lazymatch s2 with s => fail | _ => idtac end;
      first [ assert (page_inv i p s2) by pag_close
            | assert (page_inv i (p + 1) s2) by pag_close ];
      clear Hp
  | Hs : scope_inv ?i ?s |- wpx _ _ _ _ ?s2 =>
      lazymatch s2 with s => fail | _ => idtac end;
      assert (scope_inv i s2) by pag_close;
      clear Hs
  end.

(** A framed step of a proof about pagination. *)
Ltac pag_frame :=
  lazymatch goal with
  | Hp : page_inv ?i ?p ?s |- wpx _ _ (bind _ _) _ ?s =>
      eapply (wp_frames_val _ _ (fun _ => pag_step i p) (page_inv i p) (fun _ => True));
      [ first
          [ eapply (frames_mono (fun _ => quiet));
            [ intros ? ?; apply quiet_pag_step | solve_frames ]
          | eapply (frames_mono (req_of _)); [ | solve_frames ];
            intros ? ?;
            first [ apply req_pag_step_page | apply req_pag_step_detail
                  | apply req_pag_step_other ] ]
      | apply returns_any | apply stable_page_inv | exact Hp
      | apply page_inv_pag | apply page_inv_pag | ];
      clear Hp; cbv beta; intros ? ? ? _
  | Hs : scope_inv ?i ?s |- wpx _ _ (bind _ _) _ ?s =>
      eapply (wp_frames_val _ _ (fun _ => scope_step) (scope_inv i) (fun _ => True));
      [ first
          [ eapply (frames_mono (fun _ => quiet));
            [ intros ? ?; apply quiet_scope_step | solve_frames ]
          | eapply (frames_mono (req_of _)); [ | solve_frames ];
            intros ? ?;
            first [ apply req_scope_step_detail | apply req_scope_step_other ] ]
      | apply returns_any | apply stable_scope_inv | exact Hs
      | apply scope_inv_pag | apply scope_inv_pag | ];
      clear Hs; cbv beta; intros ? ? ? _
  end.

Ltac pag_step :=
  lazymatch goal with
  | |- wpx _ _ _ _ _ =>
      first
        [ wp_pure; try pag_move
        | pag_frame
        | wp_branch; try pag_move ]
  | |- _ => solve [pag_close]
  end.

Section EuropagesPag.
Context {W : Type} `{!World W} `{!Lib}.

Lemma ep_slug_pag region limit slug i p (s : state W) :
  page_inv i p s ->
  wpx pag_inv pag_inv (ep_slug region limit slug) (fun _ => page_inv i p) s.
Proof. intros Hs. unfold ep_slug. repeat pag_step. Qed.

Lemma ep_page_pag region location term limit i p (s : state W) :
  page_inv i p s ->
  wpx pag_inv pag_inv (ep_page region location term limit i p)
    (fun r s' => match r with
                 | Some p' => page_inv i p' s'
                 | None => scope_inv (S i) s'
                 end) s.
Proof.
  intros Hs. unfold ep_page. repeat pag_step.
  apply (wp_for_each_keep _ _ (page_inv i (p + 1)));
    [done | intros; by apply ep_slug_pag |].
  intros s1 Hs1. repeat pag_step.
Qed.

Lemma ep_term_pag fuel region location limit i term (s : state W) :
  scope_inv i s ->
  wpx pag_inv pag_inv (ep_term fuel region location limit i term)
    (fun c s' => match c with
                 | Next => scope_inv (S i) s'
                 | Break => pag_inv s'
                 end) s.
Proof.
  intros Hs. unfold ep_term. repeat pag_step.
  apply (wp_while_pos _ _ (page_inv i) (scope_inv (S i)));
    [pag_close | intros; by apply ep_page_pag | intros; pag_close |].
  intros s1 Hs1. repeat pag_step.
Qed.

Lemma scrape_europages_pag fuel region city limit o (s : state W) :
  scope_inv 0 s ->
  wpx pag_inv pag_inv (scrape_europages fuel region city limit o)
    (fun _ => pag_inv) s.
Proof.
  intros Hs. unfold scrape_europages, launch_browser. repeat pag_step.
  apply (wp_finally_const (fun _ => quiet) pag_inv);
    [solve_frames | apply stable_pag_inv | |].
  - apply wp_scopes; [done|]. intros. by apply ep_term_pag.
  - intros _ s1 Hs1. by apply wp_gets, wp_ret.
Qed.
End EuropagesPag.

Section PaginasamarillasPag.
Context {W : Type} `{!World W} `{!Lib}.

Lemma pa_listing_pag region limit li i p (s : state W) :
  page_inv i p s ->
  wpx pag_inv pag_inv (pa_listing region limit li) (fun _ => page_inv i p) s.
Proof. intros Hs. unfold pa_listing. repeat pag_step. Qed.

Lemma pa_page_pag region province cat limit i p (s : state W) :
  page_inv i p s ->
  wpx pag_inv pag_inv (pa_page region province cat limit i p)
    (fun r s' => match r with
                 | Some p' => page_inv i p' s'
                 | None => scope_inv (S i) s'
                 end) s.
Proof.
  intros Hs. unfold pa_page. repeat pag_step.
  apply (wp_for_each_keep _ _ (page_inv i (p + 1)));
    [done | intros; by apply pa_listing_pag |].
  intros s1 Hs1. repeat pag_step.
Qed.

Lemma pa_category_pag fuel region province limit i cat (s : state W) :
  scope_inv i s ->
  wpx pag_inv pag_inv (pa_category fuel region province limit i cat)
    (fun c s' => match c with
                 | Next => scope_inv (S i) s'
                 | Break => pag_inv s'
                 end) s.
Proof.
  intros Hs. unfold pa_category. repeat pag_step.
  apply (wp_while_pos _ _ (page_inv i) (scope_inv (S i)));
    [pag_close | intros; by apply pa_page_pag | intros; pag_close |].
  intros s1 Hs1. repeat pag_step.
Qed.

Lemma scrape_paginasamarillas_pag fuel region city limit o (s : state W) :
  scope_inv 0 s ->
  wpx pag_inv pag_inv (scrape_paginasamarillas fuel region city limit o)
    (fun _ => pag_inv) s.
Proof.
  intros Hs. unfold scrape_paginasamarillas, launch_browser. repeat pag_step.
  apply (wp_finally_const (fun _ => quiet) pag_inv);
    [solve_frames | apply stable_pag_inv | |].
  - repeat pag_step. apply wp_scopes; [done|]. intros. by apply pa_category_pag.
  - intros _ s1 Hs1. by apply wp_gets, wp_ret.
Qed.
End PaginasamarillasPag.

Section EinformaPag.
Context {W : Type} `{!World W} `{!Lib}.

Lemma ei_row_pag region limit row i p (s : state W) :
  page_inv i p s ->
  wpx pag_inv pag_inv (ei_row region limit row) (fun _ => page_inv i p) s.
Proof. intros Hs. unfold ei_row. repeat pag_step. Qed.

Lemma ei_link_pag region limit link i p (s : state W) :
  page_inv i p s ->
  wpx pag_inv pag_inv (ei_link region limit link) (fun _ => page_inv i p) s.
Proof. intros Hs. unfold ei_link. repeat pag_step. Qed.

Lemma ei_page_pag region province limit p (s : state W) :
  page_inv 0 p s ->
  wpx pag_inv pag_inv (ei_page region province limit p)
    (fun r s' => match r with
                 | Some p' => page_inv 0 p' s'
                 | None => scope_inv 1 s'
                 end) s.
Proof.
  intros Hs. unfold ei_page. repeat pag_step.
  - apply (wp_for_each_keep _ _ (page_inv 0 (p + 1)));
      [done | intros; by apply ei_link_pag |].
    intros s1 Hs1. repeat pag_step.
  - apply (wp_for_each_keep _ _ (page_inv 0 (p + 1)));
      [done | intros; by apply ei_row_pag |].
    intros s1 Hs1. repeat pag_step.
Qed.

Lemma scrape_einforma_pag fuel region city limit o (s : state W) :
  scope_inv 0 s ->
  wpx pag_inv pag_inv (scrape_einforma fuel region city limit o)
    (fun _ => pag_inv) s.
Proof.
  intros Hs. unfold scrape_einforma, launch_browser. repeat pag_step.
  apply (wp_finally_const (fun _ => quiet) pag_inv);
    [solve_frames | apply stable_pag_inv | |].
  - assert (Hp : page_inv 0 1 s') by pag_close. clear H0.
    repeat pag_step.
    eapply wp_mono;
      [apply (wp_while _ _ (page_inv 0) (scope_inv 1));
         [done | intros; by apply ei_page_pag | intros; pag_close]
      | intros; pag_close | done | done].
  - intros _ s1 Hs1. by apply wp_gets, wp_ret.
Qed.
End EinformaPag.

Section EmpresiaPag.
Context {W : Type} `{!World W} `{!Lib}.

Lemma em_text_pag region limit text i p (s : state W) :
  page_inv i p s ->
  wpx pag_inv pag_inv (em_text region limit text) (fun _ => page_inv i p) s.
Proof. intros Hs. unfold em_text. repeat pag_step. Qed.

Lemma em_term_pag region location limit i term (s : state W) :
  scope_inv i s ->
  wpx pag_inv pag_inv (em_term region location limit i term)
    (fun c s' => match c with
                 | Next => scope_inv (S i) s'
                 | Break => pag_inv s'
                 end) s.
Proof.
  intros Hs. unfold em_term. wp_pure. wp_pure; [repeat pag_step|].
  assert (Hp : page_inv i 1 s) by pag_close. clear Hs.
  repeat pag_step.
  apply (wp_for_each_keep _ _ (page_inv i (1 + 1)));
    [done | intros; by apply em_text_pag |].
  intros s1 Hs1. repeat pag_step.
Qed.

Lemma scrape_empresia_pag region city limit o (s : state W) :
  scope_inv 0 s ->
  wpx pag_inv pag_inv (scrape_empresia region city limit o) (fun _ => pag_inv) s.
Proof.
  intros Hs. unfold scrape_empresia, launch_browser. repeat pag_step.
  apply (wp_finally_const (fun _ => quiet) pag_inv);
    [solve_frames | apply stable_pag_inv | |].
  - repeat pag_step. apply wp_scopes; [done|]. intros. by apply em_term_pag.
  - intros _ s1 Hs1. by apply wp_gets, wp_ret.
Qed.
End EmpresiaPag.

Section LibreborPag.
Context {W : Type} `{!World W} `{!Lib}.

Lemma lb_link_pag region limit link i p (s : state W) :
  page_inv i p s ->
  wpx pag_inv pag_inv (lb_link region limit link) (fun _ => page_inv i p) s.
Proof. intros Hs. unfold lb_link. repeat pag_step. Qed.

Lemma lb_item_pag region limit item i p (s : state W) :
  page_inv i p s ->
  wpx pag_inv pag_inv (lb_item region limit item) (fun _ => page_inv i p) s.
Proof. intros Hs. unfold lb_item. repeat pag_step. Qed.

Lemma lb_page_pag region province limit p (s : state W) :
  page_inv 0 p s ->
  wpx pag_inv pag_inv (lb_page region province limit p)
    (fun r s' => match r with
                 | Some p' => page_inv 0 p' s'
                 | None => scope_inv 1 s'
                 end) s.
Proof.
  intros Hs. unfold lb_page. repeat pag_step.
  - destruct l as [|x l]; [done|]. pag_move.
    apply (wp_for_each_keep _ _ (page_inv 0 (p + 1)));
      [done | intros; by apply lb_item_pag |].
    intros s1 Hs1. repeat pag_step.
  - apply (wp_for_each_keep _ _ (page_inv 0 (p + 1)));
      [done | intros; by apply lb_link_pag |].
    intros s1 Hs1. repeat pag_step.
Qed.

Lemma scrape_librebor_pag fuel region city limit o (s : state W) :
  scope_inv 0 s ->
  wpx pag_inv pag_inv (scrape_librebor fuel region city limit o)
    (fun _ => pag_inv) s.
Proof.
  intros Hs. unfold scrape_librebor, launch_browser. repeat pag_step.
  apply (wp_finally_const (fun _ => quiet) pag_inv);
    [solve_frames | apply stable_pag_inv | |].
  - repeat pag_step.
    eapply wp_mono;
      [apply (wp_while _ _ (page_inv 0) (scope_inv 1));
         [pag_close | intros; by apply lb_page_pag | intros; pag_close]
      | intros; pag_close | done | done].
  - intros _ s1 Hs1. by apply wp_gets, wp_ret.
Qed.
End LibreborPag.

Section EmpresitePag.
Context {W : Type} `{!World W} `{!Lib}.

Lemma es_card_pag region city_slug limit o card i p (s : state W) :
  page_inv i p s ->
  wpx pag_inv pag_inv (es_card region city_slug limit o card)
    (fun _ => page_inv i p) s.
Proof. intros Hs. unfold es_card. repeat pag_step. Qed.

Lemma es_page_pag region city_slug limit o i p (s : state W) :
  page_inv i p s ->
  wpx pag_inv pag_inv (es_page region city_slug limit o i p)
    (fun r s' => match r with
                 | Some p' => page_inv i p' s'
                 | None => scope_inv (S i) s'
                 end) s.
Proof.
  intros Hs. unfold es_page. repeat pag_step.
  apply (wp_for_each_keep _ _ (page_inv i (p + 1)));
    [done | intros; by apply es_card_pag |].
  intros s1 Hs1. repeat pag_step.
Qed.

Lemma es_city_pag fuel region limit o i c (s : state W) :
  scope_inv i s ->
  wpx pag_inv pag_inv (es_city fuel region limit o i c)
    (fun c s' => match c with
                 | Next => scope_inv (S i) s'
                 | Break => pag_inv s'
                 end) s.
Proof.
  intros Hs. unfold es_city. repeat pag_step.
  apply (wp_while_pos _ _ (page_inv i) (scope_inv (S i)));
    [pag_close | intros; by apply es_page_pag | intros; pag_close |].
  intros s1 Hs1. repeat pag_step.
Qed.

Lemma scrape_empresite_pag fuel region city limit o (s : state W) :
  scope_inv 0 s ->
  wpx pag_inv pag_inv (scrape_empresite fuel region city limit o)
    (fun _ => pag_inv) s.
Proof.
  intros Hs. unfold scrape_empresite. repeat pag_step.
  - apply wp_bind. eapply wp_mono; [| |done|done].
    + apply wp_scopes; [done|]. intros. by apply es_city_pag.
    + intros ? s1 Hs1. by apply wp_gets, wp_ret.
  - apply wp_gets, wp_ret. pag_close.
Qed.
End EmpresitePag.

Section RunPag.
Context {W : Type} `{!World W} `{!Lib}.

Lemma run_pag fuel a (w : W) : pag_ok (trace (run fuel a w).2).
Proof.
  unfold run.
  set (g := {| MIN_DELAY := a_delay_min a; MAX_DELAY := a_delay_max a |}).
  assert (Hs : scope_inv 0 (initial w g)) by apply at_scope_nil.
  set (o := {| headless := _ |}).
  assert (Hw : forall m : M W (list dict),
            wpx pag_inv pag_inv m (fun _ => pag_inv) (initial w g) ->
            pag_ok (trace (m (initial w g)).2)).
  { intros m Hm. unfold wpx in Hm. by destruct (m (initial w g)) as [[| |] ?]. }
  apply Hw. destruct (a_portal a); simpl.
  - by apply scrape_empresite_pag.
  - by apply scrape_europages_pag.
  - by apply scrape_paginasamarillas_pag.
  - by apply scrape_einforma_pag.
  - by apply scrape_empresia_pag.
  - by apply scrape_librebor_pag.
Qed.

(** C6. In every run of every routine, if the page [n] of a scope yielded
    no item, no page of that scope after [n] is ever asked for: every
    listing-page request of the scope is for a page up to [n].  The scope is
    the iteration of the outer loop (a city, a search term, a category; the
    one listing of Einforma and LibreBOR), and the items of a page are what
    the routine tests to stop: cards, new links, listings, rows or links,
    suggestions, API results. *)
Theorem pagination_stops_at_empty_page fuel a (w : W) sc n m url c :
  In (EvItems sc n 0) (trace (run fuel a w).2) ->
  In (EvRequest (PageReq sc m) url c) (trace (run fuel a w).2) ->
  m <= n.
Proof. apply run_pag. Qed.

End RunPag.

(** A listing site whose pages are empty. *)
Definition empty_site : sim := Sim [] [] [] [] None "" None "".

Lemma pagination_stops_at_empty_page_witness :
  In (EvItems 0 1 0)
     (trace (@run sim sim_world (sim_lib [] []) 3
               (default_args Paginasamarillas None) empty_site).2)
  /\ In (EvRequest (PageReq 0 1)
           "https://www.paginasamarillas.es/search/empresas/all-ma/barcelona/all-is/barcelona/all-ba/all-pu/all-nc/1"
           0)
        (trace (@run sim sim_world (sim_lib [] []) 3
                  (default_args Paginasamarillas None) empty_site).2)
  /\ 1 <= 1.
Proof.
  assert (H1 : In (EvItems 0 1 0)
     (trace (@run sim sim_world (sim_lib [] []) 3
               (default_args Paginasamarillas None) empty_site).2)).
  { vm_compute. tauto. }
  assert (H2 : In (EvRequest (PageReq 0 1)
           "https://www.paginasamarillas.es/search/empresas/all-ma/barcelona/all-is/barcelona/all-ba/all-pu/all-nc/1"
           0)
        (trace (@run sim sim_world (sim_lib [] []) 3
                  (default_args Paginasamarillas None) empty_site).2)).
  { vm_compute. tauto. }
  split; [exact H1|]. split; [exact H2|].
  exact (@pagination_stops_at_empty_page sim sim_world (sim_lib [] []) 3
           (default_args Paginasamarillas None) empty_site 0 1 1 _ 0 H1 H2).
Defined.

(** ** Deduplication *)

Set Warnings "-clear-no-such-hyp".

(** The keys of the records appended so far, newest first. *)
Fixpoint emitted (t : list event) : list string :=
  match t with
  | [] => []
  | EvEmit k :: r => k :: emitted r
  | _ :: r => emitted r
  end.

(** Events other than the appending of a record. *)
Definition no_emit (e : event) : Prop :=
  match e with
  | EvEmit _ => False
  | _ => True
  end.

Lemma emitted_app evs t : Forall no_emit evs -> emitted (evs ++ t) = emitted t.
Proof.
  induction 1 as [|e evs He _ IH]; [done|]. simpl. by destruct e.
Qed.

Lemma quiet_no_emit e : quiet e -> no_emit e.
Proof. by destruct e. Qed.

Lemma req_no_emit k n e : req_of k n e -> no_emit e.
Proof. by destruct e. Qed.

Lemma new_slugs_spec raw sn slugs sn' :
  new_slugs raw sn = (slugs, sn') ->
  NoDup slugs
  /\ (forall k, k ∈ slugs -> (k ∉ sn) /\ (k ∈ sn'))
  /\ sn ⊆ sn'.
Proof.
  revert sn slugs sn'. induction raw as [|link r IH]; intros sn slugs sn'; simpl.
  - intros [= <- <-]. split; [constructor|]. split; [|done].
    intros k Hk. by apply elem_of_nil in Hk.
  - case_bool_decide as Hin.
    + apply IH.
    + destruct (new_slugs r ({[cut_products link]} ∪ sn)) as [l sn1] eqn:E.
      intros [= <- <-]. apply IH in E as (Hnd&Hk&Hsub).
      split; [|split].
      * constructor; [|done]. intros Hl. apply Hk in Hl as [Hl _]. set_solver.
      * intros k [->|Hl]%elem_of_cons; [set_solver|].
        apply Hk in Hl. set_solver.
      * set_solver.
Qed.

Section Dedup.
Context {W : Type} `{!World W} `{!Lib}.

(** The keys appended are pairwise distinct and all in [seen], one key per
    record; the keys [l] that wait for their turn are distinct, in [seen]
    and not yet appended. *)
Definition pend (l : list string) (s : state W) : Prop :=
  NoDup (emitted (trace s))
  /\ (forall k, k ∈ emitted (trace s) -> k ∈ seen s)
  /\ length (emitted (trace s)) = length (companies s)
  /\ NoDup l
  /\ (forall k, k ∈ l -> (k ∉ emitted (trace s)) /\ (k ∈ seen s)).

Lemma pend_initial (w : W) g : pend [] (initial w g).
Proof.
  unfold pend. simpl. split_and!.
  - constructor.
  - intros k Hk. by apply elem_of_nil in Hk.
  - done.
  - constructor.
  - intros k Hk. by apply elem_of_nil in Hk.
Qed.

Lemma stable_pend l : stable (fun _ => no_emit) (pend l).
Proof.
  intros s s' (H1&H2&H3&H4&H5) (_&Hc&Hs&_&_&evs&Ht&HF).
  unfold pend. rewrite Ht, Hc, Hs, (emitted_app _ _ HF). done.
Qed.

Lemma pend_nil l s : pend l s -> pend [] s.
Proof.
  intros (H1&H2&H3&H4&H5). unfold pend. split_and!; try done.
  - constructor.
  - intros k Hk. by apply elem_of_nil in Hk.
Qed.

Lemma pend_tail x r s : pend (x :: r) s -> pend r s.
Proof.
  intros (H1&H2&H3&H4&H5). unfold pend. split_and!; try done.
  - by apply NoDup_cons in H4 as [].
  - intros k Hk. apply H5. by right.
Qed.

Lemma pend_emit x r c s :
  pend (x :: r) s -> pend r (push_company c (push_event (EvEmit x) s)).
Proof.
  intros (H1&H2&H3&H4&H5). apply NoDup_cons in H4 as [Hx Hr].
  destruct (H5 x) as [Hx1 Hx2]; [by left|].
  unfold pend. simpl. split_and!.
  - by constructor.
  - intros k [->|Hk]%elem_of_cons; auto.
  - rewrite length_app. simpl. lia.
  - done.
  - intros k Hk. destruct (H5 k) as [Hk1 Hk2]; [by right|]. split; [|done].
    intros [->|Hk']%elem_of_cons; done.
Qed.

Lemma pend_fresh k s :
  pend [] s -> k ∉ seen s -> pend [k] (add_seen k s).
Proof.
  intros (H1&H2&H3&_&_) Hk. unfold pend. simpl. split_and!; try done.
  - intros k' Hk'. apply H2 in Hk'. set_solver.
  - apply NoDup_singleton.
  - intros k' ->%list_elem_of_singleton. split; [|set_solver].
    intros Hin. by apply H2 in Hin.
Qed.

Lemma pend_items l sc p n s : pend l s -> pend l (push_event (EvItems sc p n) s).
Proof. done. Qed.

Lemma pend_set_new l n s : pend l s -> pend l (set_new n s).
Proof. done. Qed.

Lemma pend_slugs raw slugs sn' s :
  new_slugs raw (seen s) = (slugs, sn') ->
  pend [] s -> pend slugs (set_seen sn' s).
Proof.
  intros (Hnd&Hk&Hsub)%new_slugs_spec (H1&H2&H3&_&_).
  unfold pend. simpl. split_and!; try done.
  - intros k Hin. apply H2 in Hin. set_solver.
  - intros k Hin. destruct (Hk k Hin) as [Hk1 Hk2]. split; [|done].
    intros Hin'. by apply H2 in Hin'.
Qed.

End Dedup.

Create HintDb dd.
#[local] Hint Resolve pend_nil pend_tail pend_emit pend_items pend_set_new : dd.

Ltac dd_close := simpl; solve [eauto 4 with dd].

Ltac dd_move :=
  match goal with
  | Hp : pend ?l ?s |- wpx _ _ _ _ ?s2 =>
      lazymatch s2 with s => fail | _ => idtac end;
      first
        [ assert (pend l s2) by dd_close
        | lazymatch l with
          | _ :: ?r => assert (pend r s2) by dd_close
          end
        | lazymatch s2 with
          | add_seen ?k s =>
              assert (pend [k] s2)
                by (apply pend_fresh;
                    [ dd_close
                    | match goal with
                      | Hb : bool_decide _ = false |- _ =>
                          apply bool_decide_eq_false_1 in Hb; exact Hb
                      end ])
          end ];
      clear Hp
  end.

(** A framed step of a proof about deduplication. *)
Ltac dd_frame :=
  lazymatch goal with
  | Hp : pend ?l ?s |- wpx _ _ (bind _ _) _ ?s =>
      eapply (wp_frames_val _ _ (fun _ => no_emit) (pend l) (fun _ => True));
      [ first
          [ eapply (frames_mono (fun _ => quiet));
            [ intros ? ?; apply quiet_no_emit | solve_frames ]
          | eapply (frames_mono (req_of _)); [ | solve_frames ];
            intros ? ?; apply req_no_emit ]
      | apply returns_any | apply stable_pend | exact Hp
      | apply pend_nil | apply pend_nil | ];
      clear Hp; cbv beta; intros ? ? ? _
  end.

Ltac dd_step :=
  lazymatch goal with
  | |- wpx _ _ _ _ _ =>
      first
        [ wp_pure; split_orb; try dd_move
        | dd_frame
        | wp_branch; split_orb; try dd_move ]
  | |- _ => solve [dd_close]
  end.

Section DedupRuns.
Context {W : Type} `{!World W} `{!Lib}.

Lemma ep_slug_dd region limit x r (s : state W) :
  pend (x :: r) s ->
  wpx (pend []) (pend []) (ep_slug region limit x)
    (fun c s' => match c with Next => pend r s' | Break => pend [] s' end) s.
Proof. intros Hs. unfold ep_slug. repeat dd_step. Qed.

Lemma ep_page_dd region location term limit i p (s : state W) :
  pend [] s ->
  wpx (pend []) (pend []) (ep_page region location term limit i p)
    (fun _ => pend []) s.
Proof.
  intros Hs. unfold ep_page. repeat dd_step.
  - apply pend_items, (pend_slugs _ _ _ _ Heqp0 H0).
  - apply wp_bind.
    eapply wp_mono;
      [apply (wp_for_each _ _ (fun l => pend l) (pend []))| |done|done].
    + apply pend_items, (pend_slugs _ _ _ _ Heqp0 H0).
    + intros x r s1 Hs1. by apply ep_slug_dd.
    + done.
    + intros ? s1 Hs1. cbv beta in Hs1. clear H0. repeat dd_step.
Qed.

Lemma ep_term_dd fuel region location limit i term (s : state W) :
  pend [] s ->
  wpx (pend []) (pend []) (ep_term fuel region location limit i term)
    (fun _ => pend []) s.
Proof.
  intros Hs. unfold ep_term. repeat dd_step.
  apply (wp_while_const (pend [])); [done | intros; by apply ep_page_dd |].
  intros s1 Hs1. repeat dd_step.
Qed.

Lemma stable_pend_quiet l : stable (W:=W) (fun _ => quiet) (pend l).
Proof.
  intros s s' Hs Hext. eapply stable_pend; [done|].
  eapply ext_mono; [|done]. apply quiet_no_emit.
Qed.

Lemma scrape_europages_dd fuel region city limit o (s : state W) :
  pend [] s ->
  wpx (pend []) (pend []) (scrape_europages fuel region city limit o)
    (fun _ => pend []) s.
Proof.
  intros Hs. unfold scrape_europages, launch_browser. repeat dd_step.
  apply (wp_finally_const (fun _ => quiet) (pend []));
    [solve_frames | apply stable_pend_quiet | |].
  - apply wp_for_enum_end; [done|]. intros. by apply ep_term_dd.
  - intros ? s1 Hs1. by apply wp_gets, wp_ret.
Qed.

Lemma pa_listing_dd region limit li (s : state W) :
  pend [] s ->
  wpx (pend []) (pend []) (pa_listing region limit li) (fun _ => pend []) s.
Proof. intros Hs. unfold pa_listing. repeat dd_step. Qed.

Lemma pa_page_dd region province cat limit i p (s : state W) :
  pend [] s ->
  wpx (pend []) (pend []) (pa_page region province cat limit i p)
    (fun _ => pend []) s.
Proof.
  intros Hs. unfold pa_page. repeat dd_step.
  apply (wp_for_each_const (pend [])); [done | intros; by apply pa_listing_dd |].
  intros s1 Hs1. repeat dd_step.
Qed.

Lemma pa_category_dd fuel region province limit i cat (s : state W) :
  pend [] s ->
  wpx (pend []) (pend []) (pa_category fuel region province limit i cat)
    (fun _ => pend []) s.
Proof.
  intros Hs. unfold pa_category. repeat dd_step.
  apply (wp_while_const (pend [])); [done | intros; by apply pa_page_dd |].
  intros s1 Hs1. repeat dd_step.
Qed.

Lemma scrape_paginasamarillas_dd fuel region city limit o (s : state W) :
  pend [] s ->
  wpx (pend []) (pend []) (scrape_paginasamarillas fuel region city limit o)
    (fun _ => pend []) s.
Proof.
  intros Hs. unfold scrape_paginasamarillas, launch_browser. repeat dd_step.
  apply (wp_finally_const (fun _ => quiet) (pend []));
    [solve_frames | apply stable_pend_quiet | |].
  - repeat dd_step. apply wp_for_enum_end; [done|]. intros. by apply pa_category_dd.
  - intros ? s1 Hs1. by apply wp_gets, wp_ret.
Qed.

Lemma em_text_dd region limit text (s : state W) :
  pend [] s ->
  wpx (pend []) (pend []) (em_text region limit text) (fun _ => pend []) s.
Proof. intros Hs. unfold em_text. repeat dd_step. Qed.

Lemma em_term_dd region location limit i term (s : state W) :
  pend [] s ->
  wpx (pend []) (pend []) (em_term region location limit i term)
    (fun _ => pend []) s.
Proof.
  intros Hs. unfold em_term. repeat dd_step.
  apply (wp_for_each_const (pend [])); [done | intros; by apply em_text_dd |].
  intros s1 Hs1. repeat dd_step.
Qed.

Lemma scrape_empresia_dd region city limit o (s : state W) :
  pend [] s ->
  wpx (pend []) (pend []) (scrape_empresia region city limit o)
    (fun _ => pend []) s.
Proof.
  intros Hs. unfold scrape_empresia, launch_browser. repeat dd_step.
  apply (wp_finally_const (fun _ => quiet) (pend []));
    [solve_frames | apply stable_pend_quiet | |].
  - repeat dd_step. apply wp_for_enum_end; [done|]. intros. by apply em_term_dd.
  - intros ? s1 Hs1. by apply wp_gets, wp_ret.
Qed.
End DedupRuns.

(** The routines that keep a set of keys seen. *)
Definition has_seen_set (p : portal) : bool :=
  match p with
  | Europages | Paginasamarillas | Empresia => true
  | _ => false
  end.

Section DedupClaim.
Context {W : Type} `{!World W} `{!Lib}.

(** C4, amended.  In a run of the Europages, PaginasAmarillas or Empresia
    routine no two records are appended for the same key (company link,
    upper-cased name, company slug): of the items of one key at most one
    yields a record.  Each key appended stands for one record. *)
Theorem at_most_one_record_per_key fuel a (w : W) :
  has_seen_set (a_portal a) = true ->
  NoDup (emitted (trace (run fuel a w).2))
  /\ length (emitted (trace (run fuel a w).2)) = length (companies (run fuel a w).2).
Proof.
  intros Hp. unfold run.
  set (g := {| MIN_DELAY := a_delay_min a; MAX_DELAY := a_delay_max a |}).
  pose proof (pend_initial w g) as Hs.
  set (o := {| headless := _ |}).
  assert (Hw : forall m : M W (list dict),
            wpx (pend []) (pend []) m (fun _ => pend []) (initial w g) ->
            pend [] (m (initial w g)).2).
  { intros m Hm. unfold wpx in Hm. by destruct (m (initial w g)) as [[| |] ?]. }
  assert (Hend : pend [] (SCRAPERS (a_portal a) fuel (Py.upper (a_region a))
                     (option_map Py.upper (city_given (a_city a))) (a_limit a) o
                     (initial w g)).2).
  { apply Hw. destruct (a_portal a); simpl; try done.
    - by apply scrape_europages_dd.
    - by apply scrape_paginasamarillas_dd.
    - by apply scrape_empresia_dd. }
  by destruct Hend as (?&_&?&_).
Qed.

End DedupClaim.

(** A company page that cannot be opened. *)
Definition acme_down : sim :=
  Sim [] [] ["https://www.europages.es/es/company/acme"] [] (Some O) "Acme" None "".

Definition city_args (p : portal) : args :=
  Args p "BARCELONA" (Some "BADALONA") None None false false 10 200 4 7.

(** C4, as stated, fails both ways.  Europages: a page lists the same
    company twice, its page cannot be opened, and neither item yields a
    record.  Empresite, which keeps no set of keys: a page shows the same
    card twice, and both yield a record. *)
Lemma dedup_claim_counterexample :
  (map cut_products ["/es/company/acme"; "/es/company/acme/products/x"]
   = ["/es/company/acme"; "/es/company/acme"]
   /\ emitted (trace (@run sim sim_world
                        (sim_lib ["/es/company/acme"; "/es/company/acme/products/x"] [])
                        2 (default_args Europages None) acme_down).2) = []
   /\ @main sim sim_world
        (sim_lib ["/es/company/acme"; "/es/company/acme/products/x"] [])
        2 (default_args Europages None) acme_down = [])
  /\ (emitted (trace (@run sim sim_world (sim_lib [] ["Acme"; "Acme"])
                        2 (city_args Empresite) empty_site).2) = ["ACME"; "ACME"]
      /\ map (fun c : dict => c !! "legal_name")
           (@main sim sim_world (sim_lib [] ["Acme"; "Acme"])
              2 (city_args Empresite) empty_site)
         = [Some (Py.PStr "ACME"); Some (Py.PStr "ACME")]).
Proof. repeat split; vm_compute; reflexivity. Qed.

Lemma at_most_one_record_per_key_witness :
  has_seen_set (a_portal (default_args Paginasamarillas None)) = true
  /\ NoDup (emitted (trace (@run sim sim_world (sim_lib [] []) 2
                              (default_args Paginasamarillas None) one_company).2))
  /\ length (emitted (trace (@run sim sim_world (sim_lib [] []) 2
                               (default_args Paginasamarillas None) one_company).2))
     = length (companies (@run sim sim_world (sim_lib [] []) 2
                            (default_args Paginasamarillas None) one_company).2).
Proof.
  split; [reflexivity|].
  apply (@at_most_one_record_per_key sim sim_world (sim_lib [] []) 2
           (default_args Paginasamarillas None) one_company).
  reflexivity.
Defined.

Example paginasamarillas_run :
  emitted (trace (@run sim sim_world (sim_lib [] []) 2
                    (default_args Paginasamarillas None) one_company).2) = ["ACME"]
  /\ map (fun c : dict => c !! "phone")
       (@main sim sim_world (sim_lib [] []) 2
          (default_args Paginasamarillas None) one_company)
     = [Some (Py.PStr "+34931234567")].
Proof. split; vm_compute; reflexivity. Qed.

(** * Further properties of the helpers *)

(** ** Substrings and case *)

Lemma startswith_spec p s : Py.startswith p s = true <-> exists b, s = p +:+ b.
Proof.
  revert s. induction p as [|a p IH]; intros s; simpl.
  - split; [by exists s|done].
  - destruct s as [|b s]; [split; [done|by intros (?&[=])]|].
    destruct (Ascii.eqb_spec a b) as [<-|Hne].
    + rewrite IH. split; intros (r&Hr); exists r; [by rewrite Hr|by injection Hr].
    + split; [done|]. intros (r&[= ? ?]). done.
Qed.

Lemma contains_spec p s :
  Py.contains p s = true <-> exists a b, s = a +:+ p +:+ b.
Proof.
  induction s as [|c s IH]; simpl.
  - rewrite orb_false_r, startswith_spec. split.
    + intros (b&Hb). by exists "", b.
    + intros (a&b&Hab). destruct a; simpl in Hab; [by exists b|done].
  - rewrite orb_true_iff, startswith_spec, IH. split.
    + intros [(b&Hb)|(a&b&Hab)]; [by exists "", b|].
      exists (String c a), b. by rewrite Hab.
    + intros (a&b&Hab). destruct a as [|c' a]; simpl in Hab.
      * left. by exists b.
      * right. injection Hab as -> ->. by exists a, b.
Qed.

Lemma lower_upper_char c : Py.lower_char (Py.upper_char c) = Py.lower_char c.
Proof. by destruct c as [[] [] [] [] [] [] [] []]. Qed.

Lemma lower_char_idem c : Py.lower_char (Py.lower_char c) = Py.lower_char c.
Proof. by destruct c as [[] [] [] [] [] [] [] []]. Qed.

Lemma lower_upper s : Py.lower (Py.upper s) = Py.lower s.
Proof.
  induction s as [|c r IH]; [done|]. unfold Py.lower, Py.upper in *; simpl.
  by rewrite lower_upper_char, IH.
Qed.

Lemma lower_idem s : Py.lower (Py.lower s) = Py.lower s.
Proof.
  induction s as [|c r IH]; [done|]. unfold Py.lower in *; simpl.
  by rewrite lower_char_idem, IH.
Qed.

(** [content.isascii()].  On such content [str.upper] and [str.lower] map
    the letters a-z and A-Z and nothing else, as [Py.upper] and [Py.lower]
    do. *)
Definition isascii (s : string) : bool :=
  forallb (fun c => (nat_of_ascii c <? 128)%nat) (list_ascii_of_string s).

(** X1. A page counts as a bot challenge exactly when its lower-cased
    content holds one of the fifteen indicators as a substring, wherever
    it stands; and on ASCII content the test does not see the case of the
    letters: the content in upper case, or in lower case, gets the same
    answer. *)
Theorem has_challenge_substring content :
  (has_challenge content = true <->
     exists i a b, In i indicators /\ Py.lower content = a +:+ i +:+ b)
  /\ (isascii content = true ->
      has_challenge (Py.upper content) = has_challenge content
      /\ has_challenge (Py.lower content) = has_challenge content).
Proof.
  unfold has_challenge. split; [|by rewrite lower_upper, lower_idem].
  rewrite existsb_exists. split.
  - intros (i&Hi&(a&b&Hab)%contains_spec). by exists i, a, b.
  - intros (i&a&b&Hi&Hab). exists i. split; [done|].
    apply contains_spec. by exists a, b.
Qed.

Lemma has_challenge_substring_witness :
  isascii "<title>Just a Moment...</title>" = true
  /\ has_challenge (Py.upper "<title>Just a Moment...</title>")
     = has_challenge "<title>Just a Moment...</title>"
  /\ has_challenge (Py.lower "<title>Just a Moment...</title>")
     = has_challenge "<title>Just a Moment...</title>".
Proof.
  split; [reflexivity|].
  apply (proj2 (has_challenge_substring "<title>Just a Moment...</title>")).
  reflexivity.
Defined.

(** ** The challenge waiter gives up in time *)

Section Waiting.
Context {W : Type} `{!World W}.

Lemma poll_challenge_bounded fuel timeout elapsed (s : state W) :
  (Z.to_nat (timeout - elapsed) <= fuel)%nat ->
  (poll_challenge fuel timeout elapsed s).1 <> Fuel
  /\ exists n : nat,
       trace (poll_challenge fuel timeout elapsed s).2
       = replicate n (EvSleep 5) ++ trace s
       /\ companies (poll_challenge fuel timeout elapsed s).2 = companies s
       /\ (n = O \/ elapsed + 5 * Z.of_nat n < timeout + 5)
       /\ ((poll_challenge fuel timeout elapsed s).1 = Val false ->
           timeout <= elapsed + 5 * Z.of_nat n).
Proof.
  revert elapsed s. induction fuel as [|f IH]; intros elapsed s Hf; simpl.
  - destruct (Z.ltb_spec elapsed timeout); [lia|]. simpl.
    split; [done|]. exists O. split_and!; try done; [by left|lia].
  - destruct (Z.ltb_spec elapsed timeout) as [Hlt|Hge]; simpl.
    2: { split; [done|]. exists O. split_and!; try done; [by left|lia]. }
    unfold bind, log, modify. simpl. unfold ask. simpl.
    destruct (answer Content (world s)) as [[c|] w'] eqn:Hq; simpl.
    2: { split; [done|]. exists 1%nat. simpl. split_and!; try done. right. lia. }
    destruct (has_challenge c); simpl.
    2: { split; [done|]. exists 1%nat. simpl. split_and!; try done. right. lia. }
    destruct (IH (elapsed + 5) (set_world w' (push_event (EvSleep 5) s)))
      as (Hnf&n&Ht&Hc&Hn&Hr); [lia|].
    split; [done|]. exists (S n). split_and!.
    + rewrite Ht. simpl.
      change (EvSleep 5 :: trace s) with ([EvSleep 5] ++ trace s).
      by rewrite app_assoc, <- replicate_cons_app.
    + by rewrite Hc.
    + right. destruct Hn as [->|Hn]; lia.
    + intros Hv. specialize (Hr Hv). lia.
Qed.

(** X2. Whatever the site answers, [wait_for_challenge] comes back, with
    its verdict or with the error of a failed read: its loop is never cut
    off.  All it logs are [n] sleeps of 5 seconds; it starts a sleep only
    while less than [timeout] seconds were slept, so [5 n < timeout + 5];
    it answers [False] only once [timeout] seconds were slept; and it
    leaves the records alone. *)
Theorem wait_for_challenge_bounded timeout (s : state W) :
  (wait_for_challenge timeout s).1 <> Fuel
  /\ exists n : nat,
       trace (wait_for_challenge timeout s).2 = replicate n (EvSleep 5) ++ trace s
       /\ companies (wait_for_challenge timeout s).2 = companies s
       /\ (n = O \/ 5 * Z.of_nat n < timeout + 5)
       /\ ((wait_for_challenge timeout s).1 = Val false ->
           timeout <= 5 * Z.of_nat n).
Proof.
  unfold wait_for_challenge, bind, ask.
  destruct (answer Content (world s)) as [[c|] w'] eqn:Hq; simpl.
  2: { split; [done|]. exists O. split_and!; try done. by left. }
  destruct (has_challenge c); simpl.
  2: { split; [done|]. exists O. split_and!; try done. by left. }
  destruct (poll_challenge_bounded (Z.to_nat timeout) timeout 0 (set_world w' s))
    as (Hnf&n&Ht&Hc&Hn&Hr); [lia|].
  split; [done|]. exists n. split_and!; try done.
Qed.

End Waiting.

Lemma wait_for_challenge_bounded_witness :
  exists n : nat,
    trace (@wait_for_challenge wall wall_world 12 (initial Wall module_globals)).2
    = replicate n (EvSleep 5) ++ []
    /\ (n = O \/ 5 * Z.of_nat n < 12 + 5)
    /\ 12 <= 5 * Z.of_nat n.
Proof.
  destruct (@wait_for_challenge_bounded wall wall_world 12
              (initial Wall module_globals)) as (_&n&Ht&_&Hn&Hr).
  exists n. split; [exact Ht|]. split; [exact Hn|].
  apply Hr. vm_compute. reflexivity.
Defined.

(** ** The rate-limit retrier: when it returns and when it raises *)

Section Retrier.
Context {W : Type} `{!World W}.

Lemma cffi_attempts_last k url method headers max len a resp (s : state W) r s' :
  a + Z.of_nat (S len) = max ->
  cffi_attempts k url method headers max (seqZ a (Z.of_nat (S len))) resp s
  = (Val r, s') ->
  exists j, (j <= len)%nat
    /\ trace s' = rev (backoff k url (length (companies s)) j a
                       ++ [EvRequest k url (length (companies s))]) ++ trace s
    /\ (status_code r = 429 -> j = len).
Proof.
  revert a resp s. induction len as [|len IH]; intros a resp s Ha.
  - change (seqZ a (Z.of_nat 1)) with [a]. simpl.
    unfold bind, issue, bind, gets, log, modify, ask. simpl.
    destruct (answer _ (world s)) as [[rp|] w]; simpl; [|done].
    replace (a <? max - 1) with false by (symmetry; apply Z.ltb_ge; lia).
    rewrite andb_false_r. intros [= <- <-]. exists O. by split.
  - rewrite seqZ_cons by lia.
    replace (Z.pred (Z.of_nat (S (S len)))) with (Z.of_nat (S len)) by lia.
    cbn [cffi_attempts].
    unfold bind at 1. unfold issue, bind, gets, log, modify, ask. simpl.
    destruct (answer _ (world s)) as [[rp|] w]; simpl; [|done].
    destruct (_ && _) eqn:Hc.
    + intros Hrun. apply IH in Hrun as (j&Hj&Ht&Hl); [|lia].
      exists (S j). split; [lia|]. split; [|intros; f_equal; auto].
      rewrite Ht. simpl.
      replace (Z.succ a) with (a + 1) by lia.
      by rewrite <- !app_assoc.
    + intros [= <- <-]. exists O. split; [lia|]. split; [done|].
      intros H429. rewrite H429 in Hc. simpl in Hc.
      apply Z.ltb_ge in Hc. lia.
Qed.

(** X3. When [_cffi_fetch] hands back a response.  A first response that
    is not a 429 is returned at once, after one request and no sleep; and
    a 429 is handed back only when every one of the [max_retries]
    attempts was made, each but the last followed by its sleep of
    [30 * 2 ^ attempt] seconds. *)
Theorem cffi_fetch_returns k url method headers max (s : state W) :
  1 <= max ->
  (forall r w1,
     answer (Request method url (headers ∪ base_headers)) (world s) = (Some r, w1) ->
     status_code r <> 429 ->
     _cffi_fetch k url method max headers s
     = (Val r,
        set_world w1 (push_event (EvRequest k url (length (companies s))) s)))
  /\ (forall r s',
        _cffi_fetch k url method max headers s = (Val r, s') ->
        status_code r = 429 ->
        trace s' = rev (backoff k url (length (companies s)) (Z.to_nat (max - 1)) 0
                        ++ [EvRequest k url (length (companies s))]) ++ trace s).
Proof.
  intros Hmax. split.
  - intros r w1 Hq Hr. unfold _cffi_fetch.
    rewrite seqZ_cons by lia. cbn [cffi_attempts].
    unfold bind, issue, bind, gets, log, modify, ask. simpl. rewrite Hq. simpl.
    destruct (Z.eqb_spec (status_code r) 429); [done|]. done.
  - intros r s' Hrun H429. unfold _cffi_fetch in Hrun.
    replace max with (Z.of_nat (S (Z.to_nat (max - 1)))) in Hrun at 2 by lia.
    apply cffi_attempts_last in Hrun as (j&Hj&Ht&Hl); [|lia].
    by rewrite <- (Hl H429).
Qed.


End Retrier.

(** A server that is rate limiting, then lets one request through; and one
    whose connection fails. *)
Definition limited_then_ok : sim :=
  Sim [] [Response 429 ""; Response 429 ""; Response 429 "slow down"] [] [] None "" None "".

Lemma cffi_fetch_returns_witness :
  1 <= 3
  /\ @_cffi_fetch sim sim_world OtherReq "u" "GET" 3 ∅ (initial empty_site module_globals)
     = (Val (Response 200 ""),
        set_world empty_site
          (push_event (EvRequest OtherReq "u" 0) (initial empty_site module_globals)))
  /\ trace (@_cffi_fetch sim sim_world OtherReq "u" "GET" 3 ∅
              (initial limited_then_ok module_globals)).2
     = [EvRequest OtherReq "u" 0; EvSleep 60; EvRequest OtherReq "u" 0;
        EvSleep 30; EvRequest OtherReq "u" 0].
Proof.
  split; [lia|]. split.
  - apply (proj1 (@cffi_fetch_returns sim sim_world OtherReq "u" "GET" ∅ 3
                    (initial empty_site module_globals) ltac:(lia))
             (Response 200 "") empty_site); [reflexivity | simpl; lia].
  - apply (proj2 (@cffi_fetch_returns sim sim_world OtherReq "u" "GET" ∅ 3
                    (initial limited_then_ok module_globals) ltac:(lia))
             (Response 429 "slow down")); [vm_compute; reflexivity | reflexivity].
Defined.


(** ** The keys of Europages *)

Definition LF : ascii := ascii_of_nat 10.

Definition one_line (s : string) : Prop := ~ In LF (list_ascii_of_string s).

Lemma one_line_tail c s : one_line (String c s) -> c <> LF /\ one_line s.
Proof.
  unfold one_line. simpl. intros H. split; [intros ->; by apply H; left|].
  intros Hs. apply H. by right.
Qed.

Lemma one_line_products : one_line "/products/".
Proof. unfold one_line. vm_compute. intuition discriminate. Qed.

(** While cutting, the output is empty or starts at the next line. *)
Lemma cut_true_head s :
  cut_products_from true s = "" \/ exists r, cut_products_from true s = String LF r.
Proof.
  induction s as [|c r IH]; [by left|]. cbn [cut_products_from].
  destruct (Ascii.eqb_spec c (ascii_of_nat 10)) as [->|Hc]; [|done].
  right. by eexists.
Qed.

Lemma cut_true_line s : one_line s -> cut_products_from true s = "".
Proof.
  induction s as [|c r IH]; [done|]. intros [Hc Hr]%one_line_tail.
  cbn [cut_products_from].
  destruct (Ascii.eqb_spec c (ascii_of_nat 10)) as [->|_]; [done|]. by apply IH.
Qed.

Lemma startswith_cons_ne a q c s : a <> c -> Py.startswith (String a q) (String c s) = false.
Proof. intros Hne. simpl. by destruct (Ascii.eqb_spec a c). Qed.

(** A one-line prefix of the output is a prefix of the input. *)
Lemma cut_startswith q s :
  one_line q ->
  Py.startswith q (cut_products_from false s) = true -> Py.startswith q s = true.
Proof.
  revert q. induction s as [|c r IH]; intros q Hq; [done|].
  destruct q as [|a q']; [done|]. apply one_line_tail in Hq as [Ha Hq'].
  cbn [cut_products_from].
  destruct (Ascii.eqb_spec c (ascii_of_nat 10)) as [->|Hc].
  { by rewrite startswith_cons_ne. }
  destruct (Py.startswith "/products/" (String c r)).
  { destruct (cut_true_head r) as [->|(r'&->)]; [done|].
    by rewrite startswith_cons_ne. }
  simpl. destruct (Ascii.eqb a c); [|done]. by apply IH.
Qed.

Lemma cut_no_products b s :
  Py.contains "/products/" (cut_products_from b s) = false.
Proof.
  revert b. induction s as [|c r IH]; intros b; [done|].
  cbn [cut_products_from].
  destruct (Ascii.eqb_spec c (ascii_of_nat 10)) as [->|Hc].
  { cbn [Py.contains]. rewrite IH. by vm_compute. }
  destruct b; [apply IH|].
  destruct (Py.startswith "/products/" (String c r)) eqn:Hs; [apply IH|].
  cbn [Py.contains]. rewrite IH, orb_false_r.
  destruct (Py.startswith "/products/" (String c (cut_products_from false r))) eqn:Hs';
    [|done].
  assert (Hcut : cut_products_from false (String c r)
                 = String c (cut_products_from false r)).
  { cbn [cut_products_from]. destruct (Ascii.eqb_spec c (ascii_of_nat 10)); [done|].
    by rewrite Hs. }
  rewrite <- Hcut in Hs'. apply cut_startswith in Hs'; [congruence|].
  apply one_line_products.
Qed.

Lemma cut_unchanged s :
  Py.contains "/products/" s = false -> cut_products_from false s = s.
Proof.
  induction s as [|c r IH]; [done|]. cbn [Py.contains cut_products_from].
  intros [Hs Hr]%orb_false_iff. rewrite Hs, (IH Hr).
  by destruct (Ascii.eqb c (ascii_of_nat 10)).
Qed.

Lemma cut_prefix s :
  one_line s -> exists rest, s = cut_products_from false s +:+ rest.
Proof.
  induction s as [|c r IH]; [by exists ""|]. intros [Hc Hr]%one_line_tail.
  cbn [cut_products_from].
  destruct (Ascii.eqb_spec c (ascii_of_nat 10)) as [->|_]; [done|].
  destruct (Py.startswith "/products/" (String c r)).
  - rewrite (cut_true_line _ Hr). by exists (String c r).
  - destruct (IH Hr) as (rest&Hrest). exists rest.
    change (String c r = String c (cut_products_from false r +:+ rest)).
    by f_equal.
Qed.

(** X5. The key Europages makes of a company link.  The key holds no
    [/products/] segment; a link without one is its own key; cutting a
    key again changes nothing; and the key of a one-line link is a prefix
    of the link, so nothing is rewritten, only dropped from the end. *)
Theorem cut_products_key link :
  Py.contains "/products/" (cut_products link) = false
  /\ cut_products (cut_products link) = cut_products link
  /\ (Py.contains "/products/" link = false -> cut_products link = link)
  /\ (one_line link -> exists rest, link = cut_products link +:+ rest).
Proof.
  unfold cut_products. split_and!.
  - apply cut_no_products.
  - apply cut_unchanged, cut_no_products.
  - apply cut_unchanged.
  - apply cut_prefix.
Qed.

Lemma cut_products_key_witness :
  Py.contains "/products/" "/es/company/acme" = false
  /\ cut_products "/es/company/acme" = "/es/company/acme"
  /\ one_line "/es/company/acme/products/tornillos"
  /\ exists rest,
       "/es/company/acme/products/tornillos"
       = cut_products "/es/company/acme/products/tornillos" +:+ rest.
Proof.
  assert (H1 : Py.contains "/products/" "/es/company/acme" = false) by reflexivity.
  assert (H2 : one_line "/es/company/acme/products/tornillos").
  { unfold one_line. vm_compute. intuition discriminate. }
  split; [exact H1|]. split.
  - exact (proj1 (proj2 (proj2 (cut_products_key "/es/company/acme"))) H1).
  - split; [exact H2|].
    exact (proj2 (proj2 (proj2
             (cut_products_key "/es/company/acme/products/tornillos"))) H2).
Defined.

(** X6. The slugs Europages takes from a page.  They are the keys of the
    page's links that were not seen before, each once, in the order of the
    page; and the set of keys seen gains exactly the keys of the page. *)
Theorem new_slugs_exact raw (seen_urls : gset string) :
  NoDup (new_slugs raw seen_urls).1
  /\ (forall k, k ∈ (new_slugs raw seen_urls).1
                <-> k ∈ map cut_products raw /\ k ∉ seen_urls)
  /\ (new_slugs raw seen_urls).1 `sublist_of` map cut_products raw
  /\ (new_slugs raw seen_urls).2 = seen_urls ∪ list_to_set (map cut_products raw).
Proof.
  revert seen_urls. induction raw as [|link r IH]; intros sn; simpl.
  - split_and!; [constructor| |done|].
    + intros k. split; [by intros ?%elem_of_nil | by intros [?%elem_of_nil _]].
    + by rewrite (right_id_L ∅ (∪)).
  - case_bool_decide as Hin.
    + destruct (IH sn) as (Hnd&Hk&Hsub&Hsn). split_and!; [done| |by constructor|].
      * intros k. rewrite Hk, elem_of_cons. split; [intros []; auto|].
        intros [[->|?] ?]; [done|auto].
      * rewrite Hsn. set_solver.
    + destruct (IH ({[cut_products link]} ∪ sn)) as (Hnd&Hk&Hsub&Hsn).
      destruct (new_slugs r ({[cut_products link]} ∪ sn)) as [l sn1].
      simpl in *. split_and!.
      * constructor; [|done]. rewrite Hk. set_solver.
      * intros k. rewrite !elem_of_cons, Hk, not_elem_of_union, elem_of_singleton.
        split.
        -- intros [->|(?&?&?)]; auto.
        -- intros [[->|?] ?]; [by left|].
           destruct (decide (k = cut_products link)) as [->|]; [by left|by right].
      * by constructor.
      * rewrite Hsn. set_solver.
Qed.

(** ** A limit of zero, a limit below zero *)

Definition with_limit (l : option Z) (a : args) : args :=
  Args (a_portal a) (a_region a) (a_city a) l (a_output a) (a_headless a)
    (a_details a) (a_employee_min a) (a_employee_max a)
    (a_delay_min a) (a_delay_max a).

Section LimitEdges.
Context {W : Type} `{!World W} `{!Lib}.

(** X7. [--limit 0] does not ask for zero records: [limit and ...] is
    false for 0, so the run is the run without a limit, request for
    request and record for record.  A limit below zero is reached from
    the start: the run collects nothing and writes nothing. *)
Theorem limit_edge_cases fuel a (w : W) :
  (a_limit a = Some 0 ->
   run fuel a w = run fuel (with_limit None a) w
   /\ main fuel a w = main fuel (with_limit None a) w)
  /\ (forall L, a_limit a = Some L -> L < 0 ->
      companies (run fuel a w).2 = [] /\ main fuel a w = []).
Proof.
  split.
  - intros Ha.
    assert (Hrun : run fuel a w = run fuel (with_limit None a) w).
    { destruct a as [p ? ? l ? ? ? ? ? ? ?]. simpl in Ha. subst l.
      unfold run, with_limit. simpl. destruct p; reflexivity. }
    split; [done|]. unfold main. by rewrite Hrun.
  - intros L Ha HL. pose proof (run_inv fuel a w) as Hr. rewrite Ha in Hr.
    assert (Hc : forall s : state W, inv (Some L) s -> companies s = []).
    { intros s (_&Hn&_). destruct (companies s) as [|c cs] eqn:E; [done|].
      specialize (Hn (length cs) eq_refl). simpl in Hn.
      destruct (Z.eqb_spec L 0); [lia|]. simpl in Hn.
      apply Z.leb_gt in Hn. lia. }
    unfold main. destruct (run fuel a w) as [[cs| |] s']; simpl; auto.
    destruct Hr as [Hi ->]. by rewrite (Hc _ Hi).
Qed.

End LimitEdges.

Lemma limit_edge_cases_witness :
  a_limit (default_args Einforma (Some 0)) = Some 0
  /\ @run sim sim_world (sim_lib [] []) 3 (default_args Einforma (Some 0)) endless
     = @run sim sim_world (sim_lib [] []) 3
         (with_limit None (default_args Einforma (Some 0))) endless
  /\ a_limit (default_args Einforma (Some (-1))) = Some (-1) /\ -1 < 0
  /\ @main sim sim_world (sim_lib [] []) 3 (default_args Einforma (Some (-1))) endless
     = [].
Proof.
  split; [reflexivity|]. split.
  - apply (proj1 (@limit_edge_cases sim sim_world (sim_lib [] []) 3
                    (default_args Einforma (Some 0)) endless)). reflexivity.
  - split; [reflexivity|]. split; [lia|].
    apply (proj2 (@limit_edge_cases sim sim_world (sim_lib [] []) 3
                    (default_args Einforma (Some (-1))) endless) (-1));
      [reflexivity | lia].
Defined.
